(** * notion-puller: reference normalisation, Markdown/CSV conversion and
      the traversal orchestrator, embedded from the TypeScript sources.

    Source files embedded here:
    - [notion/url-parser.ts]   (reference normaliser)
    - [converters/rich-text.ts] (inline renderer)
    - [converters/blocks.ts]    (block renderer)
    - [converters/markdown.ts]  (document assembler)
    - [converters/csv.ts]       (table exporter)
    - [run.ts]                  (traversal orchestrator)

    JavaScript strings are sequences of UTF-16 code units; they are modelled
    as [list N].  Platform built-ins that the repository does not define
    ([URL], [encodeURIComponent], [localeCompare], the
    remote API client) are parameters: the class [Builtins] and the record
    [Gateway]. *)

From Stdlib Require Import ZArith NArith List Ascii String Bool Lia Sorted Permutation.
From Stdlib Require Floats.PrimFloat.
From stdpp Require Import base decidable option list gmap.

Import ListNotations.
Set Warnings "-register-all".
Local Open Scope N_scope.
Local Open Scope list_scope.

(* ===================================================================== *)
(** * JavaScript strings *)
(* ===================================================================== *)

Module Js.

(** A string is its sequence of UTF-16 code units. *)
Definition jsstring : Type := list N.

(** Code unit of an ASCII character, and ASCII literals. *)
Definition ch (a : ascii) : N := N_of_ascii a.
Definition lit (s : string) : jsstring := List.map ch (list_ascii_of_string s).

Definition LF : N := 10.
Definition CR : N := 13.
Definition DQUOTE : N := 34.
Definition BACKSLASH : N := 92.

(** [!s] for a string: only the empty string is falsy. *)
Definition truthy (s : jsstring) : bool :=
  match s with [] => false | _ :: _ => true end.

(** [arr.length > 0] *)
Definition truthy_list {A} (l : list A) : bool :=
  match l with [] => false | _ :: _ => true end.

(** Truthiness of a [string | null] value. *)
Definition truthy_opt (o : option jsstring) : bool :=
  match o with None => false | Some s => truthy s end.

(** ECMAScript WhiteSpace and LineTerminator code points, as used by
    [trim], [trimStart] and [trimEnd]. *)
Definition is_whitespace (c : N) : bool :=
  ((9 <=? c) && (c <=? 13))
  || (c =? 32) || (c =? 160) || (c =? 5760)
  || ((8192 <=? c) && (c <=? 8202))
  || (c =? 8232) || (c =? 8233) || (c =? 8239) || (c =? 8287)
  || (c =? 12288) || (c =? 65279).

Fixpoint trimStart (s : jsstring) : jsstring :=
  match s with
  | c :: s' => if is_whitespace c then trimStart s' else s
  | [] => []
  end.

Fixpoint trimEnd (s : jsstring) : jsstring :=
  match s with
  | [] => []
  | c :: s' =>
      match trimEnd s' with
      | [] => if is_whitespace c then [] else [c]
      | t => c :: t
      end
  end.

Definition trim (s : jsstring) : jsstring := trimEnd (trimStart s).

(** [parts.join(sep)] *)
Fixpoint join (sep : jsstring) (parts : list jsstring) : jsstring :=
  match parts with
  | [] => []
  | [p] => p
  | p :: rest => p ++ sep ++ join sep rest
  end.

(** [s.split(c)] for a one-character separator: always at least one
    piece. *)
Fixpoint split (sep : N) (s : jsstring) : list jsstring :=
  match s with
  | [] => [[]]
  | c :: s' =>
      if c =? sep then [] :: split sep s'
      else match split sep s' with
           | p :: ps => (c :: p) :: ps
           | [] => [[c]]
           end
  end.

(** [s.repeat(n)] *)
Fixpoint repeat (s : jsstring) (n : nat) : jsstring :=
  match n with O => [] | S n' => s ++ repeat s n' end.

(** [s.slice(a, b)] for constant bounds [0 <= a <= b]. *)
Definition slice (a b : nat) (s : jsstring) : jsstring :=
  firstn (b - a) (skipn a s).

Fixpoint startsWith (p s : jsstring) : bool :=
  match p, s with
  | [], _ => true
  | c :: p', d :: s' => (c =? d) && startsWith p' s'
  | _ :: _, [] => false
  end.

(** [s.includes(p)] *)
Fixpoint includes (p s : jsstring) : bool :=
  startsWith p s ||
  match s with
  | [] => false
  | _ :: s' => includes p s'
  end.

(** [s.includes(c)] for a single character. *)
Definition includes_char (c : N) (s : jsstring) : bool :=
  existsb (N.eqb c) s.

(** [s.replace(/c/g, r)] for a single literal character [c]. *)
Definition replace_char (c : N) (r : jsstring) (s : jsstring) : jsstring :=
  flat_map (fun d => if d =? c then r else [d]) s.

(** [toLowerCase] on the Basic Latin range.  The only call site applies
    it to a string that matched [UUID_DASHED], whose code units are all
    hexadecimal digits or dashes. *)
Definition lower (c : N) : N :=
  if (65 <=? c) && (c <=? 90) then c + 32 else c.
Definition toLowerCase (s : jsstring) : jsstring := List.map lower s.

(** Last [n] code units, when the string has at least [n]. *)
Definition suffix (n : nat) (s : jsstring) : option jsstring :=
  if (n <=? List.length s)%nat then Some (skipn (List.length s - n) s) else None.

End Js.

Import Js.

(* ===================================================================== *)
(** * Platform built-ins *)
(* ===================================================================== *)

(** The part of a WHATWG [URL] object the parser reads. *)
Record Url := { hostname : jsstring; pathname : jsstring }.

(** Built-ins of the JavaScript runtime that the repository calls but does
    not define. *)
Class Builtins := {
  (** [new URL(s)]; [None] when the constructor throws. *)
  new_URL : jsstring -> option Url;
  (** [encodeURIComponent(s)], applied to titles (well-formed text). *)
  encodeURIComponent : jsstring -> jsstring;
  (** [a.localeCompare(b)]: negative, zero or positive. *)
  localeCompare : jsstring -> jsstring -> Z;
}.

(* ===================================================================== *)
(** * notion/url-parser.ts *)
(* ===================================================================== *)

Module UrlParser.

(** [[0-9a-f]] under the [i] flag. *)
Definition is_hex (c : N) : bool :=
  ((48 <=? c) && (c <=? 57))
  || ((97 <=? c) && (c <=? 102))
  || ((65 <=? c) && (c <=? 70)).

(** [[0-9a-f]{n}] at the head of [s]; the rest of the input on success. *)
Fixpoint hex_run (n : nat) (s : jsstring) : option jsstring :=
  match n with
  | O => Some s
  | S n' =>
      match s with
      | c :: s' => if is_hex c then hex_run n' s' else None
      | [] => None
      end
  end.

Definition dash (s : jsstring) : option jsstring :=
  match s with
  | c :: s' => if c =? ch "-" then Some s' else None
  | [] => None
  end.

(** The pieces the two patterns are built from. *)
Inductive tok := Hex (n : nat) | Dash.

Fixpoint match_toks (ts : list tok) (s : jsstring) : option jsstring :=
  match ts with
  | [] => Some s
  | t :: ts' =>
      match (match t with Hex n => hex_run n s | Dash => dash s end) with
      | Some rest => match_toks ts' rest
      | None => None
      end
  end.

(** Anchored match [^...$]: the tokens consume the whole input. *)
Definition test (ts : list tok) (s : jsstring) : bool :=
  match match_toks ts s with Some [] => true | _ => false end.

(** [/^[0-9a-f]{32}$/i.test(s)] *)
Definition UUID_BARE : jsstring -> bool := test [Hex 32].

(** [/^[0-9a-f]{8}-[0-9a-f]{4}-[0-9a-f]{4}-[0-9a-f]{4}-[0-9a-f]{12}$/i.test(s)] *)
Definition UUID_DASHED : jsstring -> bool :=
  test [Hex 8; Dash; Hex 4; Dash; Hex 4; Dash; Hex 4; Dash; Hex 12].

Definition toDashedUuid (hex : jsstring) : jsstring :=
  join (lit "-")
    [ slice 0 8 hex; slice 8 12 hex; slice 12 16 hex;
      slice 16 20 hex; slice 20 32 hex ].

(** First piece of a [split]: the text before the first separator. *)
Definition before (sep : N) (s : jsstring) : jsstring :=
  List.hd [] (split sep s).

Definition extractIdFromPath (path : jsstring) : option jsstring :=
  let clean := before (ch "#") (before (ch "?") path) in
  let segments := List.filter truthy (split (ch "/") clean) in
  match List.last (List.map Some segments) None with
  | None => None
  | Some last =>
      match suffix 32 last with
      | Some m32 =>
          if UUID_BARE m32 then Some m32
          else match suffix 36 last with
               | Some m36 =>
                   if UUID_DASHED m36
                   then Some (replace_char (ch "-") [] m36) else None
               | None => None
               end
      | None => None
      end
  end.

Record ParsedReference := { id : jsstring }.

(** The messages of the [Error]s thrown. *)
Inductive ParseError :=
| InvalidUrl (trimmed : jsstring)
| NotANotionUrl (trimmed : jsstring)
| NoIdInUrl (trimmed : jsstring)
| Unrecognized (trimmed : jsstring).

Section WithBuiltins.
Context {rt : Builtins}.

Definition parseNotionReference (input : jsstring)
  : ParsedReference + ParseError :=
  let trimmed := trim input in
  if UUID_BARE trimmed then
    inl {| id := toDashedUuid trimmed |}
  else if UUID_DASHED trimmed then
    inl {| id := toLowerCase trimmed |}
  else if startsWith (lit "http://") trimmed
          || startsWith (lit "https://") trimmed then
    match new_URL trimmed with
    | None => inr (InvalidUrl trimmed)
    | Some url =>
        if negb (includes (lit "notion") (hostname url)) then
          inr (NotANotionUrl trimmed)
        else
          match extractIdFromPath (pathname url) with
          | None => inr (NoIdInUrl trimmed)
          | Some hex =>
              if truthy hex then inl {| id := toDashedUuid hex |}
              else inr (NoIdInUrl trimmed)
          end
    end
  else inr (Unrecognized trimmed).
End WithBuiltins.

End UrlParser.


(* ===================================================================== *)
(** * converters/rich-text.ts *)
(* ===================================================================== *)

Module RichText.

Record Annotations := {
  bold : bool;
  italic : bool;
  strikethrough : bool;
  underline : bool;
  code : bool;
  color : jsstring;
}.

(** [item.mention], by its [type]. *)
Inductive Mention :=
| MentionPage
| MentionDatabase
| MentionUser
| MentionDate (start : jsstring) (end_ : option jsstring)
| MentionLinkPreview
| MentionOther.

(** The three variants of [RichTextItemResponse]. *)
Inductive ItemBody :=
| Text (content : jsstring)
| MentionItem (mention : Mention)
| Equation (expression : jsstring).

Record RichTextItem := {
  body : ItemBody;
  plain_text : jsstring;
  annotations : Annotations;
  href : option jsstring;
}.

(** The separator written in the template literal of [renderMention]:
    space, U+00E2, U+2020, U+2019, space. *)
Definition date_separator : jsstring := [32; 226; 8224; 8217; 32].

Definition renderMention (item : RichTextItem) : jsstring :=
  match body item with
  | MentionItem mention =>
      match mention with
      | MentionPage => plain_text item
      | MentionDatabase => plain_text item
      | MentionUser => plain_text item
      | MentionDate start end_ =>
          match end_ with
          | Some e => if truthy e then start ++ date_separator ++ e else start
          | None => start
          end
      | MentionLinkPreview => plain_text item
      | MentionOther => plain_text item
      end
  | _ => plain_text item
  end.

Definition applyAnnotations (text : jsstring) (ann : Annotations) : jsstring :=
  if negb (truthy text) then text
  else if code ann then lit "`" ++ text ++ lit "`"
  else
    let text := if strikethrough ann then lit "~~" ++ text ++ lit "~~" else text in
    let text :=
      if bold ann && italic ann then lit "***" ++ text ++ lit "***"
      else if bold ann then lit "**" ++ text ++ lit "**"
      else if italic ann then lit "*" ++ text ++ lit "*"
      else text in
    let text := if underline ann then lit "<u>" ++ text ++ lit "</u>" else text in
    text.

Definition renderRichTextItem (item : RichTextItem) : jsstring :=
  match body item with
  | Equation expression => lit "$" ++ expression ++ lit "$"
  | _ =>
      let text :=
        match body item with
        | Text content => content
        | _ => renderMention item
        end in
      let text := applyAnnotations text (annotations item) in
      match href item with
      | Some h => if truthy h then lit "[" ++ text ++ lit "](" ++ h ++ lit ")" else text
      | None => text
      end
  end.

Definition renderRichText (items : list RichTextItem) : jsstring :=
  join [] (List.map renderRichTextItem items).

End RichText.

(* ===================================================================== *)
(** * converters/blocks.ts *)
(* ===================================================================== *)

Module Blocks.
Import RichText.

(** [icon] of a callout. *)
Record Icon := { icon_type : jsstring; emoji : option jsstring }.

(** The payload of the media kinds: [type] is "external" or "file". *)
Record FileRef := {
  file_type : jsstring;
  file_caption : option (list RichTextItem);
  external_url : option jsstring;
  file_url : option jsstring;
}.

(** [block[block.type]]: the kind-specific payload, by shape.  The API
    types tie the shape to [block.type]; a field read from a payload of
    another shape is modelled as empty. *)
Inductive Payload :=
| PText (rich_text : list RichTextItem)
| PToDo (rich_text : list RichTextItem) (checked : bool)
| PCode (rich_text caption : list RichTextItem) (language : jsstring)
| PCallout (rich_text : list RichTextItem) (icon : option Icon)
| PFile (file : FileRef)
| PLink (url : jsstring) (caption : list RichTextItem)
| PLinkPreview (url : jsstring)
| PEquation (expression : jsstring)
| PChild (title : jsstring)
| PTableRow (cells : list (list RichTextItem))
| PNone.

(** [BlockWithChildren] *)
Inductive Block := mkBlock {
  block_id : jsstring;
  type : jsstring;
  payload : Payload;
  children : list Block;
}.

Definition rich_text_of (p : Payload) : list RichTextItem :=
  match p with
  | PText rt | PToDo rt _ | PCode rt _ _ | PCallout rt _ => rt
  | _ => []
  end.
Definition caption_of (p : Payload) : list RichTextItem :=
  match p with
  | PCode _ c _ | PLink _ c => c
  | PFile f => default [] (file_caption f)
  | _ => []
  end.
Definition checked_of (p : Payload) : bool :=
  match p with PToDo _ c => c | _ => false end.
Definition language_of (p : Payload) : jsstring :=
  match p with PCode _ _ l => l | _ => [] end.
Definition icon_of (p : Payload) : option Icon :=
  match p with PCallout _ i => i | _ => None end.
Definition url_of (p : Payload) : jsstring :=
  match p with PLink u _ | PLinkPreview u => u | _ => [] end.
Definition expression_of (p : Payload) : jsstring :=
  match p with PEquation e => e | _ => [] end.
Definition title_of (p : Payload) : jsstring :=
  match p with PChild t => t | _ => [] end.
Definition cells_of (p : Payload) : list (list RichTextItem) :=
  match p with PTableRow c => c | _ => [] end.
Definition file_of (p : Payload) : FileRef :=
  match p with
  | PFile f => f
  | _ => {| file_type := []; file_caption := None;
            external_url := None; file_url := None |}
  end.

(** [a || b] on strings. *)
Definition or_else (a b : jsstring) : jsstring := if truthy a then a else b.

Definition renderIcon (icon : option Icon) : jsstring :=
  match icon with
  | None => []
  | Some i =>
      if decide (icon_type i = lit "emoji") then
        match emoji i with
        | Some e => e ++ lit " "
        | None => []
        end
      else []
  end.

Definition renderImage (image : FileRef) : jsstring :=
  let caption := renderRichText (default [] (file_caption image)) in
  let url :=
    if decide (file_type image = lit "external")
    then default [] (external_url image)
    else default [] (file_url image) in
  lit "![" ++ caption ++ lit "](" ++ url ++ lit ")".

Definition renderFileBlock (file : FileRef) (label : jsstring) : jsstring :=
  let caption :=
    match file_caption file with
    | Some c => renderRichText c
    | None => []
    end in
  let url :=
    if decide (file_type file = lit "external") then default [] (external_url file)
    else if decide (file_type file = lit "file") then default [] (file_url file)
    else [] in
  let display := or_else caption label in
  if truthy url then lit "[" ++ display ++ lit "](" ++ url ++ lit ")" else display.

(** One pass of the loop of [renderTable] over [rows], [i] being the
    index of the row at the head. *)
Fixpoint renderTable_rows (i : nat) (rows : list Block) (lines : list jsstring)
  : list jsstring :=
  match rows with
  | [] => lines
  | row :: rest =>
      if decide (type row = lit "table_row") then
        let cells :=
          List.map (fun cell => replace_char (ch "|") (lit "\|") (renderRichText cell))
                   (cells_of (payload row)) in
        let lines :=
          lines ++ [lit "| " ++ join (lit " | ") cells ++ lit " |"] in
        let lines :=
          match i with
          | O => lines ++ [lit "| " ++ join (lit " | ")
                               (List.map (fun _ => lit "---") cells) ++ lit " |"]
          | S _ => lines
          end in
        renderTable_rows (S i) rest lines
      else renderTable_rows (S i) rest lines
  end.

Definition renderTable (block : Block) : jsstring :=
  let rows := children block in
  match rows with
  | [] => []
  | _ => join [LF] (renderTable_rows 0 rows [])
  end.

Section WithBuiltins.
Context {rt : Builtins}.

Definition renderBlock (block : Block) : jsstring :=
  let ty := type block in
  let p := payload block in
  if decide (ty = lit "paragraph") then renderRichText (rich_text_of p)
  else if decide (ty = lit "heading_1") then lit "# " ++ renderRichText (rich_text_of p)
  else if decide (ty = lit "heading_2") then lit "## " ++ renderRichText (rich_text_of p)
  else if decide (ty = lit "heading_3") then lit "### " ++ renderRichText (rich_text_of p)
  else if decide (ty = lit "bulleted_list_item") then
    lit "- " ++ renderRichText (rich_text_of p)
  else if decide (ty = lit "numbered_list_item") then
    lit "1. " ++ renderRichText (rich_text_of p)
  else if decide (ty = lit "to_do") then
    let checkbox := if checked_of p then lit "[x]" else lit "[ ]" in
    lit "- " ++ checkbox ++ lit " " ++ renderRichText (rich_text_of p)
  else if decide (ty = lit "code") then
    let lang :=
      if decide (language_of p = lit "plain text") then [] else language_of p in
    let code := renderRichText (rich_text_of p) in
    let caption := renderRichText (caption_of p) in
    let result := lit "```" ++ lang ++ [LF] ++ code ++ [LF] ++ lit "```" in
    if truthy caption then result ++ [LF] ++ lit "*" ++ caption ++ lit "*"
    else result
  else if decide (ty = lit "quote") then
    join [LF]
      (List.map (fun line => lit "> " ++ line)
                (split LF (renderRichText (rich_text_of p))))
  else if decide (ty = lit "callout") then
    let icon := renderIcon (icon_of p) in
    let text := renderRichText (rich_text_of p) in
    lit "> " ++ icon ++ text
  else if decide (ty = lit "divider") then lit "---"
  else if decide (ty = lit "image") then renderImage (file_of p)
  else if decide (ty = lit "video") then renderFileBlock (file_of p) (lit "video")
  else if decide (ty = lit "audio") then renderFileBlock (file_of p) (lit "audio")
  else if decide (ty = lit "file") then renderFileBlock (file_of p) (lit "file")
  else if decide (ty = lit "pdf") then renderFileBlock (file_of p) (lit "pdf")
  else if decide (ty = lit "bookmark") then
    let caption := renderRichText (caption_of p) in
    let label := or_else caption (url_of p) in
    lit "[" ++ label ++ lit "](" ++ url_of p ++ lit ")"
  else if decide (ty = lit "embed") then
    let caption := renderRichText (caption_of p) in
    let label := or_else caption (lit "embed") in
    lit "[" ++ label ++ lit "](" ++ url_of p ++ lit ")"
  else if decide (ty = lit "link_preview") then
    lit "[" ++ url_of p ++ lit "](" ++ url_of p ++ lit ")"
  else if decide (ty = lit "toggle") then
    lit "**" ++ renderRichText (rich_text_of p) ++ lit "**"
  else if decide (ty = lit "equation") then
    lit "$$" ++ [LF] ++ expression_of p ++ [LF] ++ lit "$$"
  else if decide (ty = lit "table") then renderTable block
  else if decide (ty = lit "table_of_contents") then lit "<!-- table of contents -->"
  else if decide (ty = lit "breadcrumb") then []
  else if decide (ty = lit "column_list") then []
  else if decide (ty = lit "column") then []
  else if decide (ty = lit "child_page") then
    lit "**[" ++ title_of p ++ lit "](./"
      ++ encodeURIComponent (title_of p) ++ lit ".md)**"
  else if decide (ty = lit "child_database") then
    lit "**[" ++ title_of p ++ lit "](./"
      ++ encodeURIComponent (title_of p) ++ lit "/_index.csv)**"
  else if decide (ty = lit "synced_block") then []
  else lit "<!-- unsupported: " ++ ty ++ lit " -->".
End WithBuiltins.

(** The case labels of the [switch] in [renderBlock]. *)
Definition recognized_kinds : list jsstring :=
  List.map lit
    [ "paragraph"; "heading_1"; "heading_2"; "heading_3";
      "bulleted_list_item"; "numbered_list_item"; "to_do"; "code"; "quote";
      "callout"; "divider"; "image"; "video"; "audio"; "file"; "pdf";
      "bookmark"; "embed"; "link_preview"; "toggle"; "equation"; "table";
      "table_of_contents"; "breadcrumb"; "column_list"; "column";
      "child_page"; "child_database"; "synced_block" ]%string.

Definition isListItem (type : jsstring) : bool :=
  bool_decide (type = lit "bulleted_list_item")
  || bool_decide (type = lit "numbered_list_item")
  || bool_decide (type = lit "to_do").

End Blocks.

(* ===================================================================== *)
(** * notion/pages.ts and notion/databases.ts: the data of the API *)
(* ===================================================================== *)

Module Notion.
Import RichText.

(** A JavaScript number, carried as the text [String(n)] gives for it. *)
Definition JsNumber : Type := jsstring.
Definition String_of (n : JsNumber) : jsstring := n.

Record DateValue := { date_start : jsstring; date_end : option jsstring }.

Inductive FormulaValue :=
| FormulaString (s : option jsstring)
| FormulaNumber (n : option JsNumber)
| FormulaBoolean (b : option bool)
| FormulaDate (d : option DateValue)
| FormulaOther.

(** An element of a rollup array: the keys the code looks for, and the
    text [JSON.stringify] gives for the element. *)
Record RollupItem := {
  item_plain_text : option jsstring;
  item_name : option jsstring;
  item_json : jsstring;
}.

Inductive RollupValue :=
| RollupNumber (n : option JsNumber)
| RollupDate (d : option DateValue)
| RollupArray (items : list RollupItem)
| RollupOther.

(** A user reference: partial (no [name] key) or full. *)
Inductive UserRef :=
| PartialUser (id : jsstring)
| FullUser (id : jsstring) (name : option jsstring).

Inductive FileItem :=
| ExternalFile (url : jsstring)
| HostedFile (url : jsstring)
| OtherFile.

(** [PageObjectResponse["properties"][string]] *)
Inductive PropertyValue :=
| PvTitle (title : list RichTextItem)
| PvRichText (rich_text : list RichTextItem)
| PvNumber (n : option JsNumber)
| PvSelect (name : option jsstring)
| PvMultiSelect (names : list jsstring)
| PvStatus (name : option jsstring)
| PvDate (d : option DateValue)
| PvCheckbox (b : bool)
| PvUrl (u : option jsstring)
| PvEmail (e : option jsstring)
| PvPhoneNumber (p : option jsstring)
| PvFormula (f : FormulaValue)
| PvRelation (ids : list jsstring)
| PvRollup (r : RollupValue)
| PvPeople (people : list UserRef)
| PvFiles (files : list FileItem)
| PvCreatedTime (t : jsstring)
| PvCreatedBy (u : UserRef)
| PvLastEditedTime (t : jsstring)
| PvLastEditedBy (u : UserRef)
| PvUniqueId (prefix : option jsstring) (number : JsNumber)
| PvOther.

(** [PageObjectResponse]: [properties] in the enumeration order of
    [Object.values]. *)
Record Page := {
  page_id : jsstring;
  created_time : jsstring;
  last_edited_time : jsstring;
  properties : list (jsstring * PropertyValue);
}.

Definition plain_texts (items : list RichTextItem) : jsstring :=
  join [] (List.map plain_text items).

(** pages.ts *)
Fixpoint getPageTitle_props (props : list (jsstring * PropertyValue)) : jsstring :=
  match props with
  | [] => lit "Untitled"
  | (_, PvTitle (t :: ts)) :: _ => plain_texts (t :: ts)
  | _ :: rest => getPageTitle_props rest
  end.

Definition getPageTitle (page : Page) : jsstring :=
  getPageTitle_props (properties page).

(** [entry.properties[colName]] *)
Fixpoint lookup_property (name : jsstring) (props : list (jsstring * PropertyValue))
  : option PropertyValue :=
  match props with
  | [] => None
  | (k, v) :: rest => if decide (k = name) then Some v else lookup_property name rest
  end.

(** databases.ts: one property of a data-source schema. *)
Record SchemaProperty := {
  prop_id : jsstring;
  prop_type : jsstring;
  relation_database_id : jsstring;
}.

Record PropertyMeta := { meta_id : jsstring; meta_type : jsstring; meta_name : jsstring }.

(** [Map<string, {id, type, name}>] in iteration order. *)
Definition PropertySchema : Type := list (jsstring * PropertyMeta).

Record DatabaseData := {
  database_title : list RichTextItem;
  dataSource_properties : list (jsstring * SchemaProperty);
  propertySchema : PropertySchema;
  entries : list Page;
}.

Definition getDatabaseTitle (data : DatabaseData) : jsstring :=
  match database_title data with
  | [] => lit "Untitled Database"
  | items => plain_texts items
  end.

(** Space, U+2192, space. *)
Definition arrow : jsstring := [32; 8594; 32].

Definition render_date (d : option DateValue) : jsstring :=
  match d with
  | None => []
  | Some d =>
      if truthy_opt (date_end d)
      then date_start d ++ arrow ++ default [] (date_end d)
      else date_start d
  end.

Definition opt_string (o : option jsstring) : jsstring := default [] o.

Definition user_name_or_id (u : UserRef) : jsstring :=
  match u with
  | PartialUser id => id
  | FullUser id name => default id name
  end.

Definition extractPropertyValue (prop : PropertyValue) : jsstring :=
  match prop with
  | PvTitle title => plain_texts title
  | PvRichText rich_text => plain_texts rich_text
  | PvNumber n => match n with Some n => String_of n | None => [] end
  | PvSelect name => opt_string name
  | PvMultiSelect names => join (lit "; ") names
  | PvStatus name => opt_string name
  | PvDate d => render_date d
  | PvCheckbox b => if b then lit "true" else lit "false"
  | PvUrl u => opt_string u
  | PvEmail e => opt_string e
  | PvPhoneNumber p => opt_string p
  | PvFormula f =>
      match f with
      | FormulaString s => opt_string s
      | FormulaNumber n => match n with Some n => String_of n | None => [] end
      | FormulaBoolean b =>
          match b with
          | Some true => lit "true"
          | Some false => lit "false"
          | None => lit "null"
          end
      | FormulaDate d => render_date d
      | FormulaOther => []
      end
  | PvRelation ids => join (lit "; ") ids
  | PvRollup r =>
      match r with
      | RollupNumber n => match n with Some n => String_of n | None => [] end
      | RollupDate d => render_date d
      | RollupArray items =>
          join (lit "; ")
            (List.map (fun item =>
               match item_plain_text item with
               | Some t => t
               | None =>
                   match item_name item with
                   | Some n => n
                   | None => item_json item
                   end
               end) items)
      | RollupOther => []
      end
  | PvPeople people =>
      join (lit "; ")
        (List.map (fun p => match p with
                            | PartialUser id => id
                            | FullUser _ name => opt_string name
                            end) people)
  | PvFiles files =>
      join (lit "; ")
        (List.map (fun f => match f with
                            | ExternalFile u => u
                            | HostedFile u => u
                            | OtherFile => []
                            end) files)
  | PvCreatedTime t => t
  | PvCreatedBy u => user_name_or_id u
  | PvLastEditedTime t => t
  | PvLastEditedBy u => user_name_or_id u
  | PvUniqueId prefix number =>
      if truthy_opt prefix
      then default [] prefix ++ lit "-" ++ String_of number
      else String_of number
  | PvOther => []
  end.

(** databases.ts: [findRelationTargets] *)
Record RelationTarget := { propertyName : jsstring; targetDatabaseId : jsstring }.

Definition findRelationTargets (data : DatabaseData) : list RelationTarget :=
  flat_map
    (fun '(name, prop) =>
       if decide (prop_type prop = lit "relation")
       then [ {| propertyName := name;
                 targetDatabaseId := relation_database_id prop |} ]
       else [])
    (dataSource_properties data).

End Notion.

(* ===================================================================== *)
(** * converters/csv.ts *)
(* ===================================================================== *)

Module Csv.
Import Notion.

(** [escapeField] *)
Definition escapeField (value : jsstring) : jsstring :=
  if includes_char (ch ",") value
     || includes_char LF value
     || includes_char CR value
     || includes_char DQUOTE value
  then [DQUOTE] ++ replace_char DQUOTE [DQUOTE; DQUOTE] value ++ [DQUOTE]
  else value.

Section WithBuiltins.
Context {rt : Builtins}.

(** [others.sort((a, b) => a.localeCompare(b))]: the sort is stable;
    it is modelled by a stable insertion sort. *)
Fixpoint insert_sorted (a : jsstring) (l : list jsstring) : list jsstring :=
  match l with
  | [] => [a]
  | b :: l' =>
      if (localeCompare b a <=? 0)%Z then b :: insert_sorted a l'
      else a :: b :: l'
  end.

Definition sort (l : list jsstring) : list jsstring :=
  fold_left (fun acc a => insert_sorted a acc) l [].

(** The loop of [sortColumns]: the last title-typed name seen, and
    the other names in iteration order. *)
Fixpoint scan_columns (schema : PropertySchema)
         (titleCol : option jsstring) (others : list jsstring)
  : option jsstring * list jsstring :=
  match schema with
  | [] => (titleCol, others)
  | (name, meta) :: rest =>
      if decide (meta_type meta = lit "title")
      then scan_columns rest (Some name) others
      else scan_columns rest titleCol (others ++ [name])
  end.

Definition sortColumns (schema : PropertySchema) : list jsstring :=
  let '(titleCol, others) := scan_columns schema None [] in
  let others := sort others in
  match titleCol with
  | Some t => if truthy t then t :: others else others
  | None => others
  end.

(** The [lines] array of [entriesToCsv]. *)
Definition csv_lines (entries : list Page) (schema : PropertySchema)
  : list jsstring :=
  let columns := sortColumns schema in
  join (lit ",") (List.map escapeField columns)
  :: List.map
       (fun entry =>
          join (lit ",")
            (List.map
               (fun colName =>
                  match lookup_property colName (properties entry) with
                  | None => []
                  | Some prop => escapeField (extractPropertyValue prop)
                  end)
               columns))
       entries.

Definition entriesToCsv (entries : list Page) (schema : PropertySchema)
  : jsstring :=
  join [LF] (csv_lines entries schema) ++ [LF].
End WithBuiltins.

End Csv.

(* ===================================================================== *)
(** * converters/markdown.ts *)
(* ===================================================================== *)

Module Markdown.
Import Notion Blocks.

(** [escapeYaml]: backslashes first, then double quotes. *)
Definition escapeYaml (s : jsstring) : jsstring :=
  replace_char DQUOTE [BACKSLASH; DQUOTE]
    (replace_char BACKSLASH [BACKSLASH; BACKSLASH] s).

Definition buildFrontmatter (page : Page) : jsstring :=
  let title := getPageTitle page in
  join [LF]
    [ lit "---";
      lit "title: " ++ [DQUOTE] ++ escapeYaml title ++ [DQUOTE];
      lit "created: " ++ created_time page;
      lit "last_edited: " ++ last_edited_time page;
      lit "---";
      [] ].

Definition indentLines (text indent : jsstring) : jsstring :=
  if negb (truthy indent) then text
  else join [LF]
         (List.map (fun line => if truthy line then indent ++ line else line)
                   (split LF text)).

(** [s.replace(/\n{3,}/g, "\n\n")]: [k] line feeds of the current run
    are pending. *)
Definition emit_run (k : nat) : jsstring :=
  match k with
  | 0%nat => []
  | 1%nat => [LF]
  | _ => [LF; LF]
  end.

Fixpoint collapse_from (k : nat) (s : jsstring) : jsstring :=
  match s with
  | [] => emit_run k
  | c :: s' =>
      if c =? LF then collapse_from (S k) s'
      else emit_run k ++ c :: collapse_from 0 s'
  end.

Definition collapse_newlines (s : jsstring) : jsstring := collapse_from 0 s.

Section WithBuiltins.
Context {rt : Builtins}.

(** The body of the [for] loop of [renderBlocks] for one block;
    [childMd d] is [renderBlocks(block.children, d)]. *)
Definition renderBlocks_step (depth : nat) (prev : option Block)
           (block : Block) (childMd : nat -> jsstring)
           (lines : list jsstring) : list jsstring :=
  let indent := repeat (lit "    ") depth in
  if decide (type block = lit "table") then
    lines ++ [indentLines (renderBlock block) indent] ++ [[]]
  else
    let rendered := renderBlock block in
    let hasContent := truthy rendered in
    let isList := isListItem (type block) in
    let prevIsList :=
      match prev with Some p => isListItem (type p) | None => false end in
    let needsBlankBefore := hasContent && negb (isList && prevIsList) in
    let lines :=
      if needsBlankBefore && truthy_list lines
           && negb (bool_decide (List.last lines [] = []))
      then lines ++ [[]] else lines in
    let lines :=
      if hasContent then lines ++ [indentLines rendered indent] else lines in
    match children block with
    | [] => lines
    | _ :: _ =>
        let childDepth :=
          if isList || bool_decide (type block = lit "toggle")
             || bool_decide (type block = lit "callout")
          then S depth else depth in
        let md := childMd childDepth in
        if truthy (trim md) then lines ++ [md] else lines
    end.

(** The [for] loop of [renderBlocks]; [child b d] renders the children
    of [b] at depth [d]. *)
Definition renderBlocks_loop (child : Block -> nat -> jsstring) (depth : nat)
  : option Block -> list Block -> list jsstring -> list jsstring :=
  fix loop (prev : option Block) (blocks : list Block) (lines : list jsstring) :=
    match blocks with
    | [] => lines
    | block :: rest =>
        loop (Some block) rest
             (renderBlocks_step depth prev block (child block) lines)
    end.

(** [renderBlocks(block.children, depth)] *)
Fixpoint renderChildren (block : Block) (depth : nat) {struct block} : jsstring :=
  match block with
  | mkBlock _ _ _ cs =>
      join [LF] (renderBlocks_loop renderChildren depth None cs [])
  end.

Definition renderBlocks (blocks : list Block) (depth : nat) : jsstring :=
  join [LF] (renderBlocks_loop renderChildren depth None blocks []).

Definition blocksToMarkdown (blocks : list Block) (page : option Page)
  : jsstring :=
  let parts :=
    match page with
    | Some p => [buildFrontmatter p]
    | None => []
    end ++ [renderBlocks blocks 0] in
  trimEnd (collapse_newlines (join [LF] parts)) ++ [LF].
End WithBuiltins.

End Markdown.

(* ===================================================================== *)
(** * output/writer.ts *)
(* ===================================================================== *)

Module Writer.

(** The character class of the first [replace]: the control characters
    and nine punctuation marks that are unsafe in file names. *)
Definition is_unsafe (c : N) : bool :=
  (c <=? 31)
  || existsb (N.eqb c)
       [ch "<"; ch ">"; ch ":"; DQUOTE; ch "/"; BACKSLASH; ch "|"; ch "?"; ch "*"].

(** [s.replace(/\s+/g, " ")] *)
Fixpoint collapse_whitespace (s : jsstring) : jsstring :=
  match s with
  | [] => []
  | c :: s' =>
      if is_whitespace c then
        match s' with
        | d :: _ => if is_whitespace d then collapse_whitespace s'
                    else 32 :: collapse_whitespace s'
        | [] => [32]
        end
      else c :: collapse_whitespace s'
  end.

Fixpoint drop_dots (s : jsstring) : jsstring :=
  match s with
  | c :: s' => if c =? ch "." then drop_dots s' else s
  | [] => []
  end.

(** [s.replace(/^\.+/, "_")] *)
Definition replace_leading_dots (s : jsstring) : jsstring :=
  match s with
  | c :: s' => if c =? ch "." then ch "_" :: drop_dots s' else s
  | [] => []
  end.

Definition sanitizeFilename (name : jsstring) : jsstring :=
  let s := List.map (fun c => if is_unsafe c then ch "_" else c) name in
  let s := collapse_whitespace s in
  let s := replace_leading_dots s in
  let s := slice 0 200 (trim s) in
  if truthy s then s else lit "Untitled".

End Writer.

(* ===================================================================== *)
(** * run.ts *)
(* ===================================================================== *)

Module Run.
Import Notion Blocks Writer.

(** The read operations of the remote API as the orchestrator uses them
    ([fetchBlockChildren] with the whole tree below the block); [None]
    when the call throws.  One run reads one snapshot of the workspace.
    Writing a file is taken to succeed, and the messages of [console.log]
    are left out. *)
Record Gateway := {
  fetchPage : jsstring -> option Page;
  fetchBlockChildren : jsstring -> option (list Block);
  fetchDatabase : jsstring -> option DatabaseData;
}.

(** The three call sites of [writeOutputFile]. *)
Inductive WriteSite := PageDocument | CsvIndex | EntryDocument.

(** What a run does to the outside: a fetch of the resource [id], or a
    file written for the resource [id] at one of the call sites. *)
Inductive Event :=
| EvFetchPage (id : jsstring)
| EvFetchBlocks (id : jsstring)
| EvFetchDatabase (id : jsstring)
| EvWrite (site : WriteSite) (id : jsstring)
          (outputDir relativePath content : jsstring).

(** The [visited] set shared by all calls of a run, and the events so
    far (oldest first). *)
Record State := { visited : gset jsstring; trace : list Event }.

Definition initial : State := {| visited := ∅; trace := [] |}.

Inductive Outcome :=
| Done (st : State)
| Threw (st : State)
| OutOfFuel.

Definition M : Type := State -> Outcome.

Definition ret : M := Done.

Definition seq (a b : M) : M :=
  fun st => match a st with Done st' => b st' | o => o end.

Notation "a >> b" := (seq a b) (at level 62, right associativity).

Definition emit (e : Event) : M :=
  fun st => Done {| visited := visited st; trace := trace st ++ [e] |}.

Definition mark (id : jsstring) : M :=
  fun st => Done {| visited := {[id]} ∪ visited st; trace := trace st |}.

(** [await fetch...(client, id)]: the call is made, then it returns or
    throws. *)
Definition fetch {A} (e : Event) (r : option A) (k : A -> M) : M :=
  emit e >> match r with Some a => k a | None => Threw end.

Definition when (b : bool) (a : M) : M := if b then a else ret.

(** [for (const x of l) { await f(x) }] *)
Definition for_each {A} (f : A -> M) : list A -> M :=
  fix go (l : list A) : M :=
    match l with
    | [] => ret
    | x :: l' => f x >> go l'
    end.

Definition writeOutputFile (site : WriteSite) (id outputDir relativePath content : jsstring)
  : M := emit (EvWrite site id outputDir relativePath content).

(** A pull procedure: [(id, outputDir, maxDepth)]. *)
Definition Puller : Type := jsstring -> jsstring -> Z -> M.

Section WithWorld.
Context {rt : Builtins}.
Variable client : Gateway.

Section Bodies.
(** The procedures the bodies call back into. *)
Variables pullPage pullDatabase : Puller.

(** The body of the loop of [pullChildResources] for one block, with the
    recursive call on its children. *)
Fixpoint pullChildResources_block (outputDir : jsstring) (maxDepth : Z)
         (block : Block) {struct block} : M :=
  match block with
  | mkBlock id ty _ cs =>
      (if decide (ty = lit "child_page") then pullPage id outputDir maxDepth
       else if decide (ty = lit "child_database")
            then pullDatabase id outputDir maxDepth
            else ret) >>
      when (truthy_list cs)
           (for_each (pullChildResources_block outputDir maxDepth) cs)
  end.

Definition pullChildResources (blocks : list Block) (outputDir : jsstring)
           (maxDepth : Z) : M :=
  for_each (pullChildResources_block outputDir maxDepth) blocks.

Definition pullPage_body : Puller := fun pageId outputDir maxDepth st =>
  if decide (pageId ∈ visited st) then Done st
  else
    (mark pageId >>
     fetch (EvFetchPage pageId) (fetchPage client pageId) (fun page =>
       let title := getPageTitle page in
       fetch (EvFetchBlocks pageId) (fetchBlockChildren client pageId) (fun blocks =>
         let markdown := Markdown.blocksToMarkdown blocks (Some page) in
         let filename := sanitizeFilename title ++ lit ".md" in
         writeOutputFile PageDocument pageId outputDir filename markdown >>
         when (0 <? maxDepth)%Z
              (let pageDir := outputDir ++ lit "/" ++ sanitizeFilename title in
               pullChildResources blocks pageDir (maxDepth - 1)%Z)))) st.

(** The body of the loop of [pullDatabase] over [data.entries]. *)
Definition pull_entry (outputDir dbDir : jsstring) (maxDepth : Z)
           (entry : Page) : M :=
  fetch (EvFetchBlocks (page_id entry))
        (fetchBlockChildren client (page_id entry)) (fun blocks =>
    match blocks with
    | [] => ret
    | _ :: _ =>
        let title := getPageTitle entry in
        let markdown := Markdown.blocksToMarkdown blocks (Some entry) in
        let filename := sanitizeFilename title ++ lit ".md" in
        writeOutputFile EntryDocument (page_id entry) outputDir
                        (dbDir ++ lit "/" ++ filename) markdown >>
        when (0 <? maxDepth)%Z
             (let entryDir :=
                outputDir ++ lit "/" ++ dbDir ++ lit "/" ++ sanitizeFilename title in
              pullChildResources blocks entryDir (maxDepth - 1)%Z)
    end).

(** The body of the loop of [pullDatabase] over the relation targets. *)
Definition follow_relation (outputDir : jsstring) (maxDepth : Z)
           (rel : RelationTarget) : M := fun st =>
  if decide (targetDatabaseId rel ∈ visited st) then Done st
  else pullDatabase (targetDatabaseId rel) outputDir (maxDepth - 1)%Z st.

Definition pullDatabase_body : Puller := fun databaseId outputDir maxDepth st =>
  if decide (databaseId ∈ visited st) then Done st
  else
    (mark databaseId >>
     fetch (EvFetchDatabase databaseId) (fetchDatabase client databaseId) (fun data =>
       let dbTitle := getDatabaseTitle data in
       let dbDir := sanitizeFilename dbTitle in
       let csv := Csv.entriesToCsv (entries data) (propertySchema data) in
       writeOutputFile CsvIndex databaseId outputDir
                       (dbDir ++ lit "/_index.csv") csv >>
       for_each (pull_entry outputDir dbDir maxDepth) (entries data) >>
       when (0 <? maxDepth)%Z
            (for_each (follow_relation outputDir maxDepth)
                      (findRelationTargets data)))) st.
End Bodies.

(** The two procedures call each other; [fuel] bounds the nesting of
    their calls. *)
Fixpoint pullPage (fuel : nat) : Puller :=
  match fuel with
  | O => fun _ _ _ _ => OutOfFuel
  | S n => pullPage_body (pullPage n) (pullDatabase n)
  end
with pullDatabase (fuel : nat) : Puller :=
  match fuel with
  | O => fun _ _ _ _ => OutOfFuel
  | S n => pullDatabase_body (pullPage n) (pullDatabase n)
  end.

Inductive ResourceType := IsPage | IsDatabase.

(** [run], once the reference is parsed and its type known: a fresh
    visited set, then the pull of the root. *)
Definition run_resolved (fuel : nat) (type : ResourceType) (id output : jsstring)
           (depth : Z) : Outcome :=
  match type with
  | IsPage => pullPage fuel id output depth initial
  | IsDatabase => pullDatabase fuel id output depth initial
  end.
End WithWorld.

End Run.

(* ===================================================================== *)
(** * A concrete runtime and sample data *)
(* ===================================================================== *)

Module Sample.
Import RichText Blocks Notion.

(** Comparison by code units, standing in for [localeCompare]. *)
Fixpoint compare_units (a b : jsstring) : Z :=
  match a, b with
  | [], [] => 0%Z
  | [], _ :: _ => (-1)%Z
  | _ :: _, [] => 1%Z
  | x :: a', y :: b' =>
      if x <? y then (-1)%Z
      else if y <? x then 1%Z
      else compare_units a' b'
  end.

Definition builtins : Builtins := {|
  new_URL := fun _ => None;
  encodeURIComponent := fun s => s;
  localeCompare := compare_units;
|}.

Definition plain : Annotations :=
  {| bold := false; italic := false; strikethrough := false;
     underline := false; code := false; color := lit "default" |}.

Definition text_item (s : string) : RichTextItem :=
  {| body := Text (lit s); plain_text := lit s;
     annotations := plain; href := None |}.

Definition date_item (start : jsstring) (end_ : option jsstring) : RichTextItem :=
  {| body := MentionItem (MentionDate start end_);
     plain_text := start;
     annotations := plain;
     href := None |}.

Definition leaf (ty : string) (p : Payload) : Block :=
  mkBlock (lit "b") (lit ty) p [].


(** A list item with a child. *)
Definition bullet_with (s : string) (child : Block) : Block :=
  mkBlock (lit "b") (lit "bulleted_list_item") (PText [text_item s]) [child].

Definition paragraph (s : string) : Block := leaf "paragraph" (PText [text_item s]).

(** A small workspace.  The page E holds a paragraph and an inline
    database D1; D1 has no entries and a relation to the database D2; D2
    has the single entry E and a relation back to D1. *)
Definition title_prop (s : string) : jsstring * PropertyValue :=
  (lit "Name", PvTitle [text_item s]).

Definition page_E : Page :=
  {| page_id := lit "E"; created_time := lit "2025-01-15T10:30:00.000Z";
     last_edited_time := lit "2025-02-01T14:22:00.000Z";
     properties := [title_prop "Entry"] |}.

Definition blocks_E : list Block :=
  [paragraph "Hello"; mkBlock (lit "D1") (lit "child_database") (PChild (lit "Inline")) []].

Definition schema_prop (ty target : string) : SchemaProperty :=
  {| prop_id := lit "p"; prop_type := lit ty; relation_database_id := lit target |}.

Definition meta (ty name : string) : jsstring * PropertyMeta :=
  (lit name, {| meta_id := lit "p"; meta_type := lit ty; meta_name := lit name |}).

Definition database (title other : string) (rows : list Page) : DatabaseData :=
  {| database_title := [text_item title];
     dataSource_properties :=
       [(lit "Name", schema_prop "title" EmptyString);
        (lit "Link", schema_prop "relation" other)];
     propertySchema := [meta "title" "Name"; meta "relation" "Link"];
     entries := rows |}.

Definition world : Run.Gateway :=
  {| Run.fetchPage := fun id =>
       if decide (id = lit "E") then Some page_E else None;
     Run.fetchBlockChildren := fun id =>
       if decide (id = lit "E") then Some blocks_E else None;
     Run.fetchDatabase := fun id =>
       if decide (id = lit "D1") then Some (database "Inline" "D2" [])
       else if decide (id = lit "D2") then Some (database "Tasks" "D1" [page_E])
       else None |}.

End Sample.

(* ===================================================================== *)
(** * The specification's wording, as definitions *)
(* ===================================================================== *)

Import RichText Blocks Notion.

Module Spec.

(** The kinds rendered as nothing at all. *)
Definition silent_kinds : list jsstring :=
  List.map lit ["breadcrumb"; "column_list"; "column"; "synced_block"]%string.

(** The content of a literal-text or mention span: the string the
    annotations are applied to.  Equation spans have none. *)
Definition span_text (item : RichTextItem) : option jsstring :=
  match body item with
  | Text content => Some content
  | MentionItem _ => Some (renderMention item)
  | Equation _ => None
  end.

(** A date mention as the specification words it: [start], or [start],
    space, U+2192, space, [end]. *)
Definition date_mention (start : jsstring) (end_ : option jsstring) : jsstring :=
  match end_ with
  | Some e => start ++ [32; 8594; 32] ++ e
  | None => start
  end.

Definition wrap (l r : string) (s : jsstring) : jsstring := lit l ++ s ++ lit r.

(** Steps (2), (3) and (4) of the annotation order. *)
Definition strike (ann : Annotations) (s : jsstring) : jsstring :=
  if strikethrough ann then wrap "~~" "~~" s else s.

Definition emphasis (ann : Annotations) (s : jsstring) : jsstring :=
  match bold ann, italic ann with
  | true, true => wrap "***" "***" s
  | true, false => wrap "**" "**" s
  | false, true => wrap "*" "*" s
  | false, false => s
  end.

Definition underlined (ann : Annotations) (s : jsstring) : jsstring :=
  if underline ann then wrap "<u>" "</u>" s else s.

(** Step (1), then the others in order. *)
Definition annotate (ann : Annotations) (s : jsstring) : jsstring :=
  if code ann then wrap "`" "`" s
  else underlined ann (emphasis ann (strike ann s)).

(** The hyperlink target a span carries: a non-empty [href]. *)
Definition link_target (item : RichTextItem) : option jsstring :=
  match href item with
  | Some h => if truthy h then Some h else None
  | None => None
  end.

(** The final step: [[text](href)]. *)
Definition link (item : RichTextItem) (s : jsstring) : jsstring :=
  match link_target item with
  | Some h => lit "[" ++ s ++ lit "](" ++ h ++ lit ")"
  | None => s
  end.

Definition render_span (item : RichTextItem) (text : jsstring) : jsstring :=
  link item (annotate (annotations item) text).

(** The names of a schema by type, in iteration order. *)
Definition is_title (entry : jsstring * PropertyMeta) : bool :=
  bool_decide (meta_type (snd entry) = lit "title").

Definition title_names (schema : PropertySchema) : list jsstring :=
  List.map fst (List.filter is_title schema).

Definition other_names (schema : PropertySchema) : list jsstring :=
  List.map fst (List.filter (fun e => negb (is_title e)) schema).




Section Layout.
Context {rt : Builtins}.


End Layout.

(** The references fetched by [pullPage] or [pullDatabase] as the resource
    they pull, oldest first. *)
Definition pulled_ids (trace : list Run.Event) : list jsstring :=
  flat_map (fun e => match e with
                     | Run.EvFetchPage id | Run.EvFetchDatabase id => [id]
                     | _ => []
                     end) trace.

(** The references whose page document or CSV index was written. *)
Definition written_ids (trace : list Run.Event) : list jsstring :=
  flat_map (fun e => match e with
                     | Run.EvWrite Run.PageDocument id _ _ _
                     | Run.EvWrite Run.CsvIndex id _ _ _ => [id]
                     | _ => []
                     end) trace.

(** The references whose block tree was fetched. *)
Definition block_fetches (trace : list Run.Event) : list jsstring :=
  flat_map (fun e => match e with Run.EvFetchBlocks id => [id] | _ => [] end) trace.

(** The references a document was written for, at any call site. *)
Definition documents (trace : list Run.Event) : list jsstring :=
  flat_map (fun e => match e with
                     | Run.EvWrite Run.PageDocument id _ _ _
                     | Run.EvWrite Run.EntryDocument id _ _ _ => [id]
                     | _ => []
                     end) trace.

(** At most once per reference: no reference pulled twice, none written
    twice, and all of them in the visited set. *)
Definition at_most_once (st : Run.State) : Prop :=
  NoDup (pulled_ids (Run.trace st))
  /\ NoDup (written_ids (Run.trace st))
  /\ (forall id, In id (pulled_ids (Run.trace st)) -> id ∈ Run.visited st)
  /\ (forall id, In id (written_ids (Run.trace st)) -> id ∈ Run.visited st).

(** [st'] comes after [st]: the visited set has grown and the trace has
    been extended by [events]. *)
Definition follows (st st' : Run.State) (events : list Run.Event) : Prop :=
  Run.visited st ⊆ Run.visited st'
  /\ Run.trace st' = Run.trace st ++ events.

(** The state an outcome ends in, when the call returned or threw. *)
Definition final (o : Run.Outcome) : option Run.State :=
  match o with
  | Run.Done st | Run.Threw st => Some st
  | Run.OutOfFuel => None
  end.

End Spec.

(* ===================================================================== *)
(** * Notions used by the proofs *)
(* ===================================================================== *)

Module Facts.
Import Markdown Csv Run.

(** Membership of a literal in a literal list, by evaluation. *)
Ltac in_by_eval :=
  apply list_elem_of_In; apply (bool_decide_unpack _); vm_compute; exact I.

Section Order.
Context {rt : Builtins}.

(** The order the comparator induces. *)
Definition locale_le (a b : jsstring) : Prop := (localeCompare a b <= 0)%Z.

(** A consistent comparator relates any two names one way or the other. *)
Definition comparator_total : Prop := forall a b, locale_le a b \/ locale_le b a.

End Order.


(** An action that comes back, by returning or throwing. *)
Definition returns (m : M) : Prop := forall st, m st <> OutOfFuel.



(** An event that is neither a pull nor a write of a pulled resource. *)
Definition untracked (e : Event) : Prop :=
  Spec.pulled_ids [e] = [] /\ Spec.written_ids [e] = [].

(** An action under which the visited set and the trace only grow and
    at-most-once is kept, whether it returns or throws. *)
Definition steady (m : M) : Prop :=
  forall st st', Spec.final (m st) = Some st' ->
    (exists events, Spec.follows st st' events)
    /\ (Spec.at_most_once st -> Spec.at_most_once st').

(** A procedure all of whose calls are steady. *)
Definition steady_puller (p : Puller) : Prop := forall id dir d, steady (p id dir d).

(** The state after the first steps of a pull. *)
Definition then_ (st : State) (events : list Event) : State :=
  {| visited := visited st; trace := trace st ++ events |}.

Definition marked (id : jsstring) (st : State) : State :=
  {| visited := {[id]} ∪ visited st; trace := trace st |}.

End Facts.

Import Facts.

(* ===================================================================== *)
(** * Further sample data and notions *)
(* ===================================================================== *)


(* ===================================================================== *)
(** * notion/pages.ts and notion/databases.ts: the paginated requests *)
(* ===================================================================== *)

Module Paging.

(** One page of a paginated listing, as the loops read it. *)
Record Listed (A : Type) := {
  results : list A;
  has_more : bool;
  next_cursor : option jsstring;
}.
Arguments results {A} _.
Arguments has_more {A} _.
Arguments next_cursor {A} _.

(** [response.has_more ? (response.next_cursor ?? undefined) : undefined] *)
Definition next {A} (response : Listed A) : option jsstring :=
  if has_more response then next_cursor response else None.

(** How an asynchronous call ends: with a value, with an error thrown, or
    not within the fuel given. *)
Inductive Fetched (A : Type) :=
| Got (a : A)
| Failed
| Starved.
Arguments Got {A} _.
Arguments Failed {A}.
Arguments Starved {A}.

End Paging.

Module Pages.
Import Paging.

(** An element of [response.results]: a partial block, which has no
    [type] key, or a full one. *)
Inductive ListedBlock :=
| PartialBlock (id : jsstring)
| FullBlock (id type : jsstring) (payload : Payload) (has_children : bool).

Definition shouldRecurse (type : jsstring) (has_children : bool) : bool :=
  has_children
  && negb (bool_decide (type = lit "child_page"))
  && negb (bool_decide (type = lit "child_database")).

(** The [for] loop over [response.results]; [fetchChildren id] is the
    recursive call [fetchBlockChildren(client, id)]. *)
Fixpoint attach (fetchChildren : jsstring -> Fetched (list Block))
         (listed : list ListedBlock) (blocks : list Block)
  : Fetched (list Block) :=
  match listed with
  | [] => Got blocks
  | PartialBlock _ :: rest => attach fetchChildren rest blocks
  | FullBlock id type payload has_children :: rest =>
      match (if shouldRecurse type has_children then fetchChildren id else Got []) with
      | Got children =>
          attach fetchChildren rest (blocks ++ [mkBlock id type payload children])
      | Failed => Failed
      | Starved => Starved
      end
  end.

Section WithClient.
(** [client.blocks.children.list({ block_id, start_cursor, page_size: 100 })];
    [None] when the call throws. *)
Variable blocks_children_list :
  jsstring -> option jsstring -> option (Listed ListedBlock).

(** The [do ... while (cursor)] loop from the request with [cursor] on,
    [blocks] being what is collected so far; [fuel] bounds the number of
    requests in a row and the nesting of the recursive calls. *)
Fixpoint fetch_from (fuel : nat) (blockId : jsstring) (cursor : option jsstring)
         (blocks : list Block) : Fetched (list Block) :=
  match fuel with
  | O => Starved
  | S n =>
      match blocks_children_list blockId cursor with
      | None => Failed
      | Some response =>
          match attach (fun id => fetch_from n id None []) (results response) blocks with
          | Got blocks =>
              if truthy_opt (next response)
              then fetch_from n blockId (next response) blocks
              else Got blocks
          | Failed => Failed
          | Starved => Starved
          end
      end
  end.

Definition fetchBlockChildren (fuel : nat) (blockId : jsstring)
  : Fetched (list Block) :=
  fetch_from fuel blockId None [].
End WithClient.

End Pages.

Module Databases.
Import Paging.

(** An element of the results of a query: a full page object (it has
    [properties] and its [object] is "page"), or anything else. *)
Inductive QueryResult :=
| PageResult (page : Page)
| OtherResult.

(** The [for] loop over [response.results]. *)
Definition collect (listed : list QueryResult) (entries : list Page) : list Page :=
  fold_left (fun entries result =>
               match result with
               | PageResult page => entries ++ [page]
               | OtherResult => entries
               end) listed entries.

Section WithClient.
(** [client.dataSources.query({ data_source_id, start_cursor, page_size: 100 })];
    [None] when the call throws. *)
Variable dataSources_query :
  jsstring -> option jsstring -> option (Listed QueryResult).

Fixpoint query_from (fuel : nat) (dataSourceId : jsstring) (cursor : option jsstring)
         (entries : list Page) : Fetched (list Page) :=
  match fuel with
  | O => Starved
  | S n =>
      match dataSources_query dataSourceId cursor with
      | None => Failed
      | Some response =>
          let entries := collect (results response) entries in
          if truthy_opt (next response)
          then query_from n dataSourceId (next response) entries
          else Got entries
      end
  end.

Definition queryAllEntries (fuel : nat) (dataSourceId : jsstring)
  : Fetched (list Page) :=
  query_from fuel dataSourceId None [].
End WithClient.

End Databases.

Module Shape.
Import Paging.

(** The listing that starts with the request with [cursor]: [n] requests
    that all succeed, each but the last giving the cursor of the next,
    and [all] the results of them in order. *)
Inductive listing {A} (request : option jsstring -> option (Listed A))
  : option jsstring -> nat -> list A -> Prop :=
| listing_last cursor response :
    request cursor = Some response ->
    truthy_opt (next response) = false ->
    listing request cursor 1 (results response)
| listing_more cursor response n rest :
    request cursor = Some response ->
    truthy_opt (next response) = true ->
    listing request (next response) n rest ->
    listing request cursor (S n) (results response ++ rest).

(** A listed block whose children are fetched. *)
Definition recurses (b : Pages.ListedBlock) : option jsstring :=
  match b with
  | Pages.FullBlock id type _ has_children =>
      if Pages.shouldRecurse type has_children then Some id else None
  | Pages.PartialBlock _ => None
  end.

(** The block a listed block becomes, [kids id] being the children
    fetched for [id]. *)
Definition block_of (kids : jsstring -> list Block) (b : Pages.ListedBlock)
  : list Block :=
  match b with
  | Pages.FullBlock id type payload has_children =>
      [mkBlock id type payload
               (if Pages.shouldRecurse type has_children then kids id else [])]
  | Pages.PartialBlock _ => []
  end.

Definition page_of (r : Databases.QueryResult) : list Page :=
  match r with
  | Databases.PageResult page => [page]
  | Databases.OtherResult => []
  end.

(** The five lines of the front matter of a page, without the line
    break that ends the last one. *)
Definition front_matter (page : Page) : jsstring :=
  join [LF]
    [ lit "---";
      lit "title: " ++ [DQUOTE] ++ Markdown.escapeYaml (getPageTitle page) ++ [DQUOTE];
      lit "created: " ++ created_time page;
      lit "last_edited: " ++ last_edited_time page;
      lit "---" ].

(** A property that gives the page its title: title-typed, with at least
    one span. *)
Definition titled (prop : jsstring * PropertyValue) : bool :=
  match snd prop with
  | PvTitle (_ :: _) => true
  | _ => false
  end.

(** No block for a child page or a child database, at any depth, has
    children attached. *)
Fixpoint sealed (block : Block) : bool :=
  match block with
  | mkBlock _ type _ children =>
      (if bool_decide (type = lit "child_page")
          || bool_decide (type = lit "child_database")
       then negb (truthy_list children) else true)
      && forallb sealed children
  end.

(** [s] has no occurrence of the character [c]. *)
Definition without (c : N) (s : jsstring) : Prop := Forall (fun d => d <> c) s.

(** All characters of [s] are white space. *)
Definition blank (s : jsstring) : Prop := Forall (fun c => is_whitespace c = true) s.

(** [s.replace(/-/g, "")] *)
Definition strip_dashes (s : jsstring) : jsstring := replace_char (ch "-") [] s.

(** [s] is [n] hexadecimal digits. *)
Definition hex_digits (n : nat) (s : jsstring) : Prop :=
  length s = n /\ Forall (fun c => UrlParser.is_hex c = true) s.

(** [s] has a character that is not white space. *)
Definition has_ink (s : jsstring) : bool :=
  existsb (fun c => negb (is_whitespace c)) s.

(** The indentation of nesting depth [d]: four spaces per level. *)
Definition indent_of (d : nat) : jsstring := repeat (lit "    ") d.

(** [text] with every non-empty line moved [d] levels in. *)
Definition indented (d : nat) (text : jsstring) : jsstring :=
  Markdown.indentLines text (indent_of d).

(** The kinds whose children are laid out one level deeper. *)
Definition nests (block : Block) : bool :=
  isListItem (type block)
  || bool_decide (type block = lit "toggle")
  || bool_decide (type block = lit "callout").

(** The line of a table for one row: its cells between pipes, the pipes
    inside a cell escaped. *)
Definition table_line (row : Block) : jsstring :=
  lit "| "
  ++ join (lit " | ")
       (List.map (fun cell => replace_char (ch "|") (lit "\|") (renderRichText cell))
                 (cells_of (payload row)))
  ++ lit " |".

(** The separator line under a header row: one [---] per cell. *)
Definition table_separator (row : Block) : jsstring :=
  lit "| "
  ++ join (lit " | ") (List.map (fun _ => lit "---") (cells_of (payload row)))
  ++ lit " |".

Definition is_table_row (row : Block) : bool :=
  bool_decide (type row = lit "table_row").

Section Order.
Context {rt : Builtins}.

(** A comparator that ranks the names: any two are related one way or
    the other, and the relation is transitive. *)
Definition comparator_ranks : Prop :=
  comparator_total
  /\ (forall a b c, locale_le a b -> locale_le b c -> locale_le a c).

(** The comparator tells the names of [names] apart: no two different
    ones compare as equal. *)
Definition told_apart (names : list jsstring) : Prop :=
  forall a b, In a names -> In b names -> locale_le a b -> locale_le b a -> a = b.

End Order.

End Shape.

Import Shape.

Module Sample2.

(** A runtime whose [URL] parses every input to [u]. *)
Definition runtime_with_url (u : Url) : Builtins := {|
  new_URL := fun _ => Some u;
  encodeURIComponent := fun s => s;
  localeCompare := Sample.compare_units;
|}.

(** A table row of plain cells, and a table of such rows. *)
Definition row (cells : list string) : Block :=
  mkBlock (lit "r") (lit "table_row")
          (PTableRow (List.map (fun s => [Sample.text_item s]) cells)) [].

Definition table (rows : list Block) : Block :=
  mkBlock (lit "t") (lit "table") PNone rows.

(** A parent P listed in two pages, the first with a partial block; its
    toggle has one child, and so has, remotely, its child page. *)
Definition listed (id : string) (ty : string) (p : Payload) (has_children : bool)
  : Pages.ListedBlock :=
  Pages.FullBlock (lit id) (lit ty) p has_children.

Definition first_page : Paging.Listed Pages.ListedBlock :=
  {| Paging.results := [listed "a" "paragraph" (PText [Sample.text_item "one"]) false;
                        Pages.PartialBlock (lit "z")];
     Paging.has_more := true;
     Paging.next_cursor := Some (lit "c1") |}.

Definition second_page : Paging.Listed Pages.ListedBlock :=
  {| Paging.results := [listed "t" "toggle" (PText [Sample.text_item "more"]) true;
                        listed "s" "child_page" (PChild (lit "Sub")) true];
     Paging.has_more := false;
     Paging.next_cursor := None |}.

Definition inner_page : Paging.Listed Pages.ListedBlock :=
  {| Paging.results := [listed "x" "paragraph" (PText [Sample.text_item "in"]) false];
     Paging.has_more := false;
     Paging.next_cursor := None |}.

Definition blocks_children_list (id : jsstring) (cursor : option jsstring)
  : option (Paging.Listed Pages.ListedBlock) :=
  if decide (id = lit "P") then
    match cursor with
    | None => Some first_page
    | Some c => if decide (c = lit "c1") then Some second_page else None
    end
  else if decide (id = lit "t") then Some inner_page
  else if decide (id = lit "s") then Some inner_page
  else None.

(** A data source Q queried in two pages. *)
Definition dataSources_query (id : jsstring) (cursor : option jsstring)
  : option (Paging.Listed Databases.QueryResult) :=
  if decide (id = lit "Q") then
    match cursor with
    | None =>
        Some {| Paging.results := [Databases.PageResult Sample.page_E;
                                   Databases.OtherResult];
                Paging.has_more := true;
                Paging.next_cursor := Some (lit "c1") |}
    | Some c =>
        if decide (c = lit "c1") then
          Some {| Paging.results := [Databases.PageResult Sample.page_E];
                  Paging.has_more := false;
                  Paging.next_cursor := Some (lit "c2") |}
        else None
    end
  else None.

End Sample2.

(* ===================================================================== *)
(** * Calls that can throw, and the numbers of the source *)
(* ===================================================================== *)

Module Uri.

(** The surrogate code units. *)
Definition is_lead (c : N) : bool := (55296 <=? c) && (c <=? 56319).
Definition is_trail (c : N) : bool := (56320 <=? c) && (c <=? 57343).

(** [s.isWellFormed()]: no surrogate stands alone.  The built-in
    [encodeURIComponent(s)] throws a URIError exactly when [s] is not well
    formed, and returns otherwise; [encodeURIComponent] of the class
    [Builtins] is its value where it returns. *)
Fixpoint isWellFormed (s : jsstring) : bool :=
  match s with
  | [] => true
  | c :: s' =>
      if is_lead c then
        match s' with
        | d :: s'' => is_trail d && isWellFormed s''
        | [] => false
        end
      else negb (is_trail c) && isWellFormed s'
  end.

End Uri.

Module Outcome.

(** How a call of the block renderer ends. *)
Inductive Rendered :=
| Returned (text : jsstring)
| ThrewURIError.

Section WithBuiltins.
Context {rt : Builtins}.

(** [renderBlock] as a call: its arms for a child page and for a child
    database pass the title to [encodeURIComponent], which throws when
    the title is not well formed; no other arm calls anything that throws
    on a block of the API's types. *)
Definition renderBlock_outcome (block : Block) : Rendered :=
  let ty := type block in
  if decide (ty = lit "child_page") then
    if Uri.isWellFormed (title_of (payload block))
    then Returned (renderBlock block) else ThrewURIError
  else if decide (ty = lit "child_database") then
    if Uri.isWellFormed (title_of (payload block))
    then Returned (renderBlock block) else ThrewURIError
  else Returned (renderBlock block).
End WithBuiltins.

End Outcome.

Module Number.
Import PrimFloat.



End Number.

(* ===================================================================== *)
(** * The layout of a block tree *)
(* ===================================================================== *)

Module Layout.
Import Markdown.





Section WithBuiltins.
Context {rt : Builtins}.



End WithBuiltins.


End Layout.

Module Conduct.
Import Run.

(** The event [e] is a request that fails in [client]. *)
Definition failed (client : Gateway) (e : Event) : Prop :=
  match e with
  | EvFetchPage id => fetchPage client id = None
  | EvFetchBlocks id => fetchBlockChildren client id = None
  | EvFetchDatabase id => fetchDatabase client id = None
  | EvWrite _ _ _ _ _ => False
  end.

(** An action that passes over no failed request: when it returns, all
    its requests have succeeded; when it throws, a request that failed is
    the last thing it did. *)
Definition passes_no_failure (client : Gateway) (m : M) : Prop :=
  forall st,
    match m st with
    | Done st' =>
        exists events,
          trace st' = trace st ++ events
          /\ Forall (fun e => ~ failed client e) events
    | Threw st' =>
        exists events,
          trace st' = trace st ++ events
          /\ forall before e after,
               events = before ++ e :: after -> failed client e -> after = []
    | OutOfFuel => True
    end.

(** An action that pulls nothing: however it ends, the visited set and
    the references pulled are as before. *)
Definition pulls_nothing (m : M) : Prop :=
  forall st st',
    Spec.final (m st) = Some st' ->
    visited st' = visited st
    /\ Spec.pulled_ids (trace st') = Spec.pulled_ids (trace st).

End Conduct.

Import Conduct.

Ltac case_leb :=
  repeat match goal with
         | |- context [N.leb ?a ?b] => destruct (N.leb_spec a b)
         | |- context [N.eqb ?a ?b] => destruct (N.eqb_spec a b)
         end.

(* ===================================================================== *)
(** * Properties of the block renderer *)
(* ===================================================================== *)

Lemma silent_kinds_recognized ty :
  In ty Spec.silent_kinds -> In ty recognized_kinds.
Proof.
  intros Hin. unfold Spec.silent_kinds in Hin. simpl in Hin.
  destruct Hin as [<-|[<-|[<-|[<-|[]]]]]; in_by_eval.
Qed.

(** C2, as stated, fails: a [table_of_contents] block does not render as
    the empty string but as a one-line HTML comment. *)
Lemma renderBlock_table_of_contents_not_empty :
  renderBlock (rt := Sample.builtins) (Sample.leaf "table_of_contents" PNone)
    = lit "<!-- table of contents -->"
  /\ renderBlock (rt := Sample.builtins) (Sample.leaf "table_of_contents" PNone) <> [].
Proof. split; [vm_compute; reflexivity | vm_compute; discriminate]. Qed.

(** C2 (amended): a block of kind breadcrumb, column_list, column or
    synced_block renders as the empty string, whatever its payload and
    children; a table_of_contents block renders as the HTML comment
    [<!-- table of contents -->]. *)
Theorem renderBlock_structural_kinds {rt : Builtins} (block : Block) :
  (In (type block) Spec.silent_kinds -> renderBlock block = [])
  /\ (type block = lit "table_of_contents" ->
      renderBlock block = lit "<!-- table of contents -->").
Proof.
  split.
  - intros Hin. unfold Spec.silent_kinds in Hin. simpl in Hin.
    unfold renderBlock.
    destruct Hin as [<-|[<-|[<-|[<-|[]]]]]; vm_compute; reflexivity.
  - intros Hty. unfold renderBlock. rewrite Hty. vm_compute. reflexivity.
Qed.

Lemma renderBlock_structural_kinds_witness :
  let block := mkBlock (lit "b1") (lit "column_list") PNone
                 [Sample.paragraph "left"; Sample.paragraph "right"] in
  In (type block) Spec.silent_kinds
  /\ renderBlock (rt := Sample.builtins) block = [].
Proof.
  intros block.
  assert (Hin : In (type block) Spec.silent_kinds)
    by (vm_compute; right; left; reflexivity).
  split; [exact Hin|].
  exact (proj1 (renderBlock_structural_kinds (rt := Sample.builtins) block) Hin).
Defined.

(** The default arm of the renderer. *)
Lemma renderBlock_default_arm {rt : Builtins} (block : Block) :
  ~ In (type block) recognized_kinds ->
  renderBlock block = lit "<!-- unsupported: " ++ type block ++ lit " -->".
Proof.
  intros Hnot. unfold renderBlock.
  repeat (destruct (decide _) as [e|_];
          [exfalso; apply Hnot; rewrite e; in_by_eval|]).
  reflexivity.
Qed.

(** C9, as stated, fails: the renderer is not a total function over all
    block kinds.  A child page is one of the recognized kinds, and the
    call of the renderer on a child page whose title is a lone surrogate
    throws the URIError of [encodeURIComponent]. *)
Lemma renderBlock_child_page_throws :
  let block := Sample.leaf "child_page" (PChild [55357]) in
  In (type block) recognized_kinds
  /\ Uri.isWellFormed (title_of (payload block)) = false
  /\ Outcome.renderBlock_outcome (rt := Sample.builtins) block = Outcome.ThrewURIError.
Proof.
  cbv zeta. split; [in_by_eval|]. split; reflexivity.
Qed.

(** C9 (amended): a block whose [type] is none of the case labels of the
    renderer is rendered as the HTML comment [<!-- unsupported: TYPE -->],
    which names the type, and the call does not throw.  On the blocks of
    the API's types the call of the renderer throws exactly for a child
    page or a child database whose title is not well formed. *)
Theorem renderBlock_unknown_kind {rt : Builtins} (block : Block) :
  (~ In (type block) recognized_kinds ->
   Outcome.renderBlock_outcome block
   = Outcome.Returned (lit "<!-- unsupported: " ++ type block ++ lit " -->"))
  /\ (Outcome.renderBlock_outcome block = Outcome.ThrewURIError
      <-> (type block = lit "child_page" \/ type block = lit "child_database")
          /\ Uri.isWellFormed (title_of (payload block)) = false).
Proof.
  split.
  - intros Hnot. unfold Outcome.renderBlock_outcome. cbv zeta.
    destruct (decide (type block = lit "child_page")) as [e|_];
      [exfalso; apply Hnot; rewrite e; in_by_eval|].
    destruct (decide (type block = lit "child_database")) as [e|_];
      [exfalso; apply Hnot; rewrite e; in_by_eval|].
    f_equal. now apply renderBlock_default_arm.
  - unfold Outcome.renderBlock_outcome. cbv zeta.
    destruct (decide (type block = lit "child_page")) as [Hp|Hp];
      [|destruct (decide (type block = lit "child_database")) as [Hd|Hd]];
      try (destruct (Uri.isWellFormed (title_of (payload block))));
      split; try discriminate; try tauto;
      intros [[H|H] Hw]; congruence.
Qed.

Lemma renderBlock_unknown_kind_witness :
  let block := Sample.leaf "link_to_page" PNone in
  ~ In (type block) recognized_kinds
  /\ Outcome.renderBlock_outcome (rt := Sample.builtins) block
     = Outcome.Returned (lit "<!-- unsupported: link_to_page -->").
Proof.
  intros block.
  assert (Hnot : ~ In (type block) recognized_kinds).
  { intros Hin. apply list_elem_of_In in Hin.
    apply (bool_decide_pack _) in Hin. vm_compute in Hin. exact Hin. }
  split; [exact Hnot|].
  exact (proj1 (renderBlock_unknown_kind (rt := Sample.builtins) block) Hnot).
Defined.

(* ===================================================================== *)
(** * Properties of the rich-text renderer *)
(* ===================================================================== *)

Lemma truthy_nonempty (s : jsstring) : s <> [] -> truthy s = true.
Proof. destruct s; [congruence | reflexivity]. Qed.

(** A date mention without an end bound renders as its start bound. *)
Lemma renderMention_date_open (item : RichTextItem) (start : jsstring) :
  body item = MentionItem (MentionDate start None) ->
  renderMention item = start.
Proof. intros Hb. unfold renderMention. rewrite Hb. reflexivity. Qed.

Lemma renderMention_date_open_witness :
  let item := Sample.date_item (lit "2024-01-01") None in
  body item = MentionItem (MentionDate (lit "2024-01-01") None)
  /\ renderMention item = lit "2024-01-01".
Proof.
  intros item. split; [reflexivity|].
  exact (renderMention_date_open item (lit "2024-01-01") eq_refl).
Defined.

(** A date mention with an end bound renders the two bounds around the
    separator of the source text. *)
Lemma renderMention_date_range (item : RichTextItem) (start e : jsstring) :
  body item = MentionItem (MentionDate start (Some e)) -> e <> [] ->
  renderMention item = start ++ date_separator ++ e.
Proof.
  intros Hb He. unfold renderMention. rewrite Hb.
  rewrite (truthy_nonempty e He). reflexivity.
Qed.

(** C3: for the date mention from 2024-01-01 to 2024-01-31 the renderer
    gives the two bounds separated by space, U+00E2, U+2020, U+2019, space
    (the three characters an arrow turns into when its UTF-8 bytes are read
    as Windows-1252), and not by space, U+2192, space as the claim has it;
    without an end bound it gives the start bound. *)
Theorem renderMention_date_separator_garbled :
  let item := Sample.date_item (lit "2024-01-01") (Some (lit "2024-01-31")) in
  renderMention item = lit "2024-01-01" ++ [32; 226; 8224; 8217; 32] ++ lit "2024-01-31"
  /\ renderRichText [item] = renderMention item
  /\ renderMention item
       <> Spec.date_mention (lit "2024-01-01") (Some (lit "2024-01-31"))
  /\ renderMention (Sample.date_item (lit "2024-01-01") None) = lit "2024-01-01".
Proof.
  cbv zeta. repeat split; try (vm_compute; reflexivity).
  vm_compute. discriminate.
Qed.

(** C4, as stated, fails on a span whose content is empty: with [code]
    set the claimed result is a pair of backticks, but the renderer gives
    the empty string. *)
Lemma renderRichTextItem_empty_content_unmarked :
  let item := {| body := Text []; plain_text := [];
                 annotations := {| bold := true; italic := false;
                                   strikethrough := false; underline := false;
                                   code := true; color := lit "default" |};
                 href := None |} in
  Spec.span_text item = Some []
  /\ Spec.render_span item [] = lit "``"
  /\ renderRichTextItem item = []
  /\ renderRichTextItem item <> Spec.render_span item [].
Proof.
  cbv zeta. repeat split; try (vm_compute; reflexivity).
  vm_compute. discriminate.
Qed.

Lemma applyAnnotations_nonempty (text : jsstring) (ann : Annotations) :
  text <> [] -> applyAnnotations text ann = Spec.annotate ann text.
Proof.
  intros Hne. unfold applyAnnotations, Spec.annotate.
  rewrite (truthy_nonempty text Hne). simpl.
  destruct (code ann); [reflexivity|].
  unfold Spec.underlined, Spec.emphasis, Spec.strike.
  destruct (strikethrough ann), (bold ann), (italic ann), (underline ann);
    reflexivity.
Qed.

Lemma renderRichTextItem_link (item : RichTextItem) (text : jsstring) :
  Spec.span_text item = Some text ->
  renderRichTextItem item
  = Spec.link item (applyAnnotations text (annotations item)).
Proof.
  unfold Spec.span_text, renderRichTextItem, Spec.link, Spec.link_target.
  destruct (body item) eqn:Hb; intros [= <-].
  - destruct (href item) as [h|]; [destruct (truthy h)|]; reflexivity.
  - destruct (href item) as [h|]; [destruct (truthy h)|]; reflexivity.
Qed.

(** C4 (amended): for a span of literal-text or mention type whose content
    is not empty, the rendering is the content annotated in the stated
    order (code alone; otherwise strikethrough, then emphasis, then
    underline) and then, when the span carries a non-empty hyperlink
    target, wrapped as a link. *)
Theorem renderRichTextItem_annotation_order (item : RichTextItem) (text : jsstring) :
  Spec.span_text item = Some text ->
  text <> [] ->
  renderRichTextItem item = Spec.render_span item text.
Proof.
  intros Hs Hne. rewrite (renderRichTextItem_link item text Hs).
  unfold Spec.render_span. now rewrite applyAnnotations_nonempty.
Qed.

Lemma renderRichTextItem_annotation_order_witness :
  let item :=
    {| body := Text (lit "hi"); plain_text := lit "hi";
       annotations := {| bold := true; italic := true; strikethrough := true;
                         underline := true; code := false; color := lit "red" |};
       href := Some (lit "https://example.org") |} in
  Spec.span_text item = Some (lit "hi")
  /\ lit "hi" <> []
  /\ renderRichTextItem item = Spec.render_span item (lit "hi")
  /\ Spec.render_span item (lit "hi")
     = lit "[<u>***~~hi~~***</u>](https://example.org)".
Proof.
  intros item.
  assert (Hs : Spec.span_text item = Some (lit "hi")) by reflexivity.
  assert (Hne : lit "hi" <> []) by (vm_compute; discriminate).
  split; [exact Hs|]. split; [exact Hne|]. split; [|vm_compute; reflexivity].
  exact (renderRichTextItem_annotation_order item (lit "hi") Hs Hne).
Defined.

(** C10: on a span of literal-text or mention type whose content is the
    empty string no annotation marker is emitted, whatever the flags; the
    span renders as the empty string, or as [[](href)] when it carries a
    hyperlink target. *)
Theorem renderRichTextItem_empty_content (item : RichTextItem) :
  Spec.span_text item = Some [] ->
  applyAnnotations [] (annotations item) = []
  /\ renderRichTextItem item
     = match Spec.link_target item with
       | Some h => lit "[](" ++ h ++ lit ")"
       | None => []
       end.
Proof.
  intros Hs. split; [reflexivity|].
  rewrite (renderRichTextItem_link item [] Hs).
  unfold Spec.link. destruct (Spec.link_target item); reflexivity.
Qed.

Lemma renderRichTextItem_empty_content_witness :
  let item :=
    {| body := Text []; plain_text := [];
       annotations := {| bold := true; italic := true; strikethrough := true;
                         underline := true; code := true; color := lit "red" |};
       href := Some (lit "https://example.org") |} in
  Spec.span_text item = Some []
  /\ applyAnnotations [] (annotations item) = []
  /\ renderRichTextItem item = lit "[](https://example.org)".
Proof.
  intros item.
  assert (Hs : Spec.span_text item = Some []) by reflexivity.
  split; [exact Hs|].
  exact (renderRichTextItem_empty_content item Hs).
Defined.

(* ===================================================================== *)
(** * Properties of the reference normaliser *)
(* ===================================================================== *)

Import UrlParser.

Lemma is_hex_not_whitespace (c : N) : is_hex c = true -> is_whitespace c = false.
Proof.
  unfold is_hex, is_whitespace. intros Hc.
  assert (Hr : (48 <= c <= 57) \/ (97 <= c <= 102) \/ (65 <= c <= 70)).
  { apply orb_true_iff in Hc as [Hc|Hc]; [apply orb_true_iff in Hc as [Hc|Hc]|];
      apply andb_true_iff in Hc as [H1 H2];
      apply N.leb_le in H1; apply N.leb_le in H2; lia. }
  clear Hc.
  repeat (apply orb_false_iff; split);
    try (apply andb_false_iff);
    rewrite ?N.leb_gt, ?N.eqb_neq; lia.
Qed.

Lemma trimEnd_no_whitespace (s : jsstring) :
  Forall (fun c => is_whitespace c = false) s -> trimEnd s = s.
Proof.
  induction 1 as [|c s Hc _ IH]; [reflexivity|].
  simpl. rewrite IH, Hc. destruct s; reflexivity.
Qed.

Lemma trim_no_whitespace (s : jsstring) :
  Forall (fun c => is_whitespace c = false) s -> trim s = s.
Proof.
  intros Hs. unfold trim.
  assert (Hstart : trimStart s = s).
  { destruct Hs as [|c s Hc _]; [reflexivity|]. simpl. now rewrite Hc. }
  rewrite Hstart. now apply trimEnd_no_whitespace.
Qed.

(** A string matches [UUID_BARE] exactly when it is 32 hexadecimal digits. *)
Lemma hex_run_all (n : nat) (s rest : jsstring) :
  hex_run n s = Some rest ->
  exists digits, s = digits ++ rest /\ length digits = n
                 /\ Forall (fun c => is_hex c = true) digits.
Proof.
  revert s. induction n as [|n IH]; intros s Hrun; simpl in Hrun.
  - injection Hrun as <-. exists []. repeat split; constructor.
  - destruct s as [|c s]; [discriminate|].
    destruct (is_hex c) eqn:Hc; [|discriminate].
    destruct (IH s Hrun) as (digits & -> & Hlen & Hall).
    exists (c :: digits). repeat split; simpl; [congruence|now constructor].
Qed.

Lemma UUID_BARE_inv (h : jsstring) :
  UUID_BARE h = true ->
  length h = 32%nat /\ Forall (fun c => is_hex c = true) h.
Proof.
  unfold UUID_BARE, test. cbn [match_toks].
  destruct (hex_run 32 h) as [rest|] eqn:Hrun; [|discriminate].
  destruct rest; [|discriminate]. intros _.
  destruct (hex_run_all _ _ _ Hrun) as (digits & -> & Hlen & Hall).
  rewrite app_nil_r. now split.
Qed.

Lemma hex_run_app (n : nat) (digits rest : jsstring) :
  length digits = n -> Forall (fun c => is_hex c = true) digits ->
  hex_run n (digits ++ rest) = Some rest.
Proof.
  intros <- Hall. induction Hall as [|c digits Hc _ IH]; [reflexivity|].
  simpl. now rewrite Hc.
Qed.

Lemma hex_run_stops (n : nat) (digits : jsstring) (c : N) (rest : jsstring) :
  (length digits < n)%nat -> Forall (fun c => is_hex c = true) digits ->
  is_hex c = false ->
  hex_run n (digits ++ c :: rest) = None.
Proof.
  intros Hlt Hall Hc. revert n Hlt.
  induction Hall as [|d digits Hd _ IH]; intros n Hlt.
  - destruct n; [simpl in Hlt; lia|]. simpl. now rewrite Hc.
  - destruct n; [simpl in Hlt; lia|]. simpl. rewrite Hd.
    apply IH. simpl in Hlt. lia.
Qed.

Lemma match_toks_hex (n : nat) (ts : list tok) (digits rest : jsstring) :
  length digits = n -> Forall (fun c => is_hex c = true) digits ->
  match_toks (Hex n :: ts) (digits ++ rest) = match_toks ts rest.
Proof. intros Hlen Hall. cbn [match_toks]. now rewrite hex_run_app. Qed.

Lemma match_toks_dash (ts : list tok) (rest : jsstring) :
  match_toks (Dash :: ts) (lit "-" ++ rest) = match_toks ts rest.
Proof. reflexivity. Qed.

Lemma toDashedUuid_pieces (hex : jsstring) :
  toDashedUuid hex
  = slice 0 8 hex ++ lit "-" ++ slice 8 12 hex ++ lit "-" ++ slice 12 16 hex
      ++ lit "-" ++ slice 16 20 hex ++ lit "-" ++ slice 20 32 hex.
Proof. reflexivity. Qed.

Lemma slice_length (a b : nat) (s : jsstring) :
  (b <= length s)%nat -> length (slice a b s) = (b - a)%nat.
Proof. intros Hb. unfold slice. rewrite length_take, length_drop. lia. Qed.

Lemma slice_Forall (P : N -> Prop) (a b : nat) (s : jsstring) :
  Forall P s -> Forall P (slice a b s).
Proof. intros Hs. unfold slice. now apply Forall_take, Forall_drop. Qed.

Lemma UUID_DASHED_toDashedUuid (h : jsstring) :
  UUID_BARE h = true -> UUID_DASHED (toDashedUuid h) = true.
Proof.
  intros Hbare. destruct (UUID_BARE_inv h Hbare) as [Hlen Hall].
  unfold UUID_DASHED, test. rewrite toDashedUuid_pieces.
  rewrite <- (app_nil_r (slice 20 32 h)).
  repeat (rewrite match_toks_hex;
          [ | rewrite slice_length; [reflexivity | lia]
            | now apply slice_Forall ];
          rewrite ?match_toks_dash).
  reflexivity.
Qed.

Lemma UUID_BARE_toDashedUuid (h : jsstring) :
  UUID_BARE h = true -> UUID_BARE (toDashedUuid h) = false.
Proof.
  intros Hbare. destruct (UUID_BARE_inv h Hbare) as [Hlen Hall].
  unfold UUID_BARE, test. cbn [match_toks]. rewrite toDashedUuid_pieces.
  change (lit "-" ++ ?r) with (45 :: r).
  rewrite hex_run_stops; [reflexivity | | now apply slice_Forall | reflexivity].
  rewrite slice_length; lia.
Qed.

Lemma toDashedUuid_no_whitespace (h : jsstring) :
  UUID_BARE h = true ->
  Forall (fun c => is_whitespace c = false) (toDashedUuid h).
Proof.
  intros Hbare. destruct (UUID_BARE_inv h Hbare) as [_ Hall].
  assert (Hns : Forall (fun c => is_whitespace c = false) h)
    by (eapply Forall_impl; [exact Hall | apply is_hex_not_whitespace]).
  rewrite toDashedUuid_pieces.
  repeat (apply Forall_app; split);
    try (now apply slice_Forall); repeat constructor.
Qed.

(** A bare reference is dashed and its letter case is left as it is. *)
Lemma parseNotionReference_bare {rt : Builtins} (h : jsstring) :
  UUID_BARE h = true ->
  parseNotionReference h = inl {| id := toDashedUuid h |}.
Proof.
  intros Hbare. unfold parseNotionReference.
  assert (Htrim : trim h = h).
  { apply trim_no_whitespace.
    destruct (UUID_BARE_inv h Hbare) as [_ Hall].
    eapply Forall_impl; [exact Hall|]. apply is_hex_not_whitespace. }
  rewrite Htrim. cbv zeta. now rewrite Hbare.
Qed.

(** The dashed form of the same digits is lower-cased. *)
Lemma parseNotionReference_dashed {rt : Builtins} (h : jsstring) :
  UUID_BARE h = true ->
  parseNotionReference (toDashedUuid h)
  = inl {| id := toLowerCase (toDashedUuid h) |}.
Proof.
  intros Hbare. unfold parseNotionReference.
  rewrite (trim_no_whitespace _ (toDashedUuid_no_whitespace h Hbare)).
  cbv zeta.
  now rewrite (UUID_BARE_toDashedUuid h Hbare), (UUID_DASHED_toDashedUuid h Hbare).
Qed.

Lemma toLowerCase_toDashedUuid (h : jsstring) :
  toLowerCase (toDashedUuid h) = toDashedUuid (toLowerCase h).
Proof.
  rewrite !toDashedUuid_pieces. unfold toLowerCase, slice.
  rewrite !List.map_app, <- !List.firstn_map, <- !List.skipn_map.
  reflexivity.
Qed.

(** The two routes agree up to letter case, and agree on lower-case
    digits. *)
Lemma parseNotionReference_agree_lower_case {rt : Builtins} (h : jsstring) :
  UUID_BARE h = true -> toLowerCase h = h ->
  parseNotionReference h = parseNotionReference (toDashedUuid h).
Proof.
  intros Hbare Hlow.
  rewrite parseNotionReference_bare, parseNotionReference_dashed by assumption.
  now rewrite toLowerCase_toDashedUuid, Hlow.
Qed.

Lemma parseNotionReference_agree_lower_case_witness :
  let h := lit "abc123def456abc123def456abc123de" in
  UUID_BARE h = true
  /\ toLowerCase h = h
  /\ parseNotionReference (rt := Sample.builtins) h
     = parseNotionReference (rt := Sample.builtins) (toDashedUuid h)
  /\ parseNotionReference (rt := Sample.builtins) h
     = inl {| id := lit "abc123de-f456-abc1-23de-f456abc123de" |}.
Proof.
  intros h.
  assert (Hbare : UUID_BARE h = true) by (vm_compute; reflexivity).
  assert (Hlow : toLowerCase h = h) by (vm_compute; reflexivity).
  split; [exact Hbare|]. split; [exact Hlow|].
  split; [|vm_compute; reflexivity].
  exact (parseNotionReference_agree_lower_case (rt := Sample.builtins) h Hbare Hlow).
Defined.

(** C1: on the 32 upper-case hexadecimal digits
    ABCDEF0123456789ABCDEF0123456789 the bare route keeps the letter case
    while the dashed route lower-cases, so the two normalisations differ
    (and the bare one is not the lower-cased dashed UUID). *)
Theorem parseNotionReference_bare_keeps_upper_case {rt : Builtins} :
  let h := lit "ABCDEF0123456789ABCDEF0123456789" in
  UUID_BARE h = true
  /\ parseNotionReference h
     = inl {| id := lit "ABCDEF01-2345-6789-ABCD-EF0123456789" |}
  /\ parseNotionReference (toDashedUuid h)
     = inl {| id := lit "abcdef01-2345-6789-abcd-ef0123456789" |}
  /\ parseNotionReference h <> parseNotionReference (toDashedUuid h).
Proof.
  cbv zeta.
  assert (Hbare : UUID_BARE (lit "ABCDEF0123456789ABCDEF0123456789") = true)
    by (vm_compute; reflexivity).
  split; [exact Hbare|].
  rewrite (parseNotionReference_bare _ Hbare), (parseNotionReference_dashed _ Hbare).
  split; [vm_compute; reflexivity|].
  split; [vm_compute; reflexivity|].
  vm_compute. discriminate.
Qed.

(* ===================================================================== *)
(** * Properties of the table exporter *)
(* ===================================================================== *)

Import Csv.

Section SortColumns.
Context {rt : Builtins}.

Lemma insert_sorted_perm (a : jsstring) (l : list jsstring) :
  Permutation (insert_sorted a l) (a :: l).
Proof.
  induction l as [|b l IH]; simpl; [reflexivity|].
  destruct (localeCompare b a <=? 0)%Z; [|reflexivity].
  rewrite IH. apply perm_swap.
Qed.

Lemma insert_sorted_hd (a b : jsstring) (l : list jsstring) :
  locale_le b a -> HdRel locale_le b l -> HdRel locale_le b (insert_sorted a l).
Proof.
  intros Hba Hhd. destruct l as [|c l]; simpl; [now constructor|].
  destruct (localeCompare c a <=? 0)%Z; constructor; [|exact Hba].
  now inversion Hhd.
Qed.

Lemma insert_sorted_sorted (a : jsstring) (l : list jsstring) :
  comparator_total -> Sorted locale_le l -> Sorted locale_le (insert_sorted a l).
Proof.
  intros Htot Hs. induction Hs as [|b l Hs IH Hhd]; simpl.
  - repeat constructor.
  - destruct (Z.leb_spec (localeCompare b a) 0) as [Hle|Hgt].
    + constructor; [exact IH|]. now apply insert_sorted_hd.
    + constructor; [now constructor|]. constructor.
      destruct (Htot a b) as [Hab|Hba]; [exact Hab|].
      unfold locale_le in Hba. lia.
Qed.

Lemma sort_from (acc l : list jsstring) :
  comparator_total -> Sorted locale_le acc ->
  let r := fold_left (fun acc a => insert_sorted a acc) l acc in
  Sorted locale_le r /\ Permutation r (acc ++ l).
Proof.
  intros Htot. revert acc. induction l as [|a l IH]; intros acc Hacc; simpl.
  - rewrite app_nil_r. now split.
  - destruct (IH (insert_sorted a acc) (insert_sorted_sorted a acc Htot Hacc))
      as [Hs Hp].
    split; [exact Hs|]. rewrite Hp, insert_sorted_perm.
    change (a :: acc ++ l) with ((a :: acc) ++ l).
    rewrite (Permutation_middle acc l a). reflexivity.
Qed.

(** [sort] gives the names back in ascending order. *)
Lemma sort_sorted_perm (l : list jsstring) :
  comparator_total -> Sorted locale_le (sort l) /\ Permutation (sort l) l.
Proof. intros Htot. apply (sort_from [] l Htot). constructor. Qed.

Lemma last_cons_default {A} (x d : A) (l : list A) :
  List.last (x :: l) d = List.last l x.
Proof.
  revert x d. induction l as [|y l IH]; intros x d; [reflexivity|].
  change (List.last (x :: y :: l) d) with (List.last (y :: l) d).
  now rewrite (IH y d), (IH y x).
Qed.

Lemma scan_columns_spec (schema : PropertySchema)
      (titleCol : option jsstring) (others : list jsstring) :
  scan_columns schema titleCol others
  = (List.last (List.map Some (Spec.title_names schema)) titleCol,
     others ++ Spec.other_names schema).
Proof.
  revert titleCol others.
  induction schema as [|[name meta] schema IH]; intros titleCol others.
  - simpl. now rewrite app_nil_r.
  - unfold Spec.title_names, Spec.other_names, Spec.is_title in *.
    cbn [scan_columns List.filter List.map fst snd negb].
    destruct (decide (meta_type meta = lit "title")) as [Ht|Ht].
    + rewrite (bool_decide_eq_true_2 _ Ht). cbn [negb List.map fst].
      rewrite IH. f_equal. symmetry. apply last_cons_default.
    + rewrite (bool_decide_eq_false_2 _ Ht). cbn [negb List.map fst].
      rewrite IH. now rewrite <- app_assoc.
Qed.

(** With a single title-typed property of non-empty name, that name comes
    first and the other names follow in ascending order. *)
Lemma sortColumns_title_first (schema : PropertySchema) (t : jsstring) :
  comparator_total ->
  Spec.title_names schema = [t] -> t <> [] ->
  exists rest,
    sortColumns schema = t :: rest
    /\ Sorted locale_le rest
    /\ Permutation rest (Spec.other_names schema).
Proof.
  intros Htot Ht Hne. unfold sortColumns.
  rewrite scan_columns_spec, Ht. cbn [List.map List.last app].
  rewrite (truthy_nonempty t Hne).
  destruct (sort_sorted_perm (Spec.other_names schema) Htot) as [Hs Hp].
  eauto.
Qed.

(** Without a title-typed property all names are sorted. *)
Lemma sortColumns_no_title (schema : PropertySchema) :
  comparator_total ->
  Spec.title_names schema = [] ->
  Sorted locale_le (sortColumns schema)
  /\ Permutation (sortColumns schema) (Spec.other_names schema).
Proof.
  intros Htot Ht. unfold sortColumns.
  rewrite scan_columns_spec, Ht. cbn [List.map List.last app].
  apply (sort_sorted_perm _ Htot).
Qed.

(** The header is the first line of the export. *)
Lemma entriesToCsv_header (entries : list Page) (schema : PropertySchema) :
  exists rows,
    length rows = length entries
    /\ entriesToCsv entries schema
       = join [LF] (join (lit ",") (List.map escapeField (sortColumns schema))
                     :: rows) ++ [LF].
Proof.
  unfold entriesToCsv, csv_lines. eexists. split; [|reflexivity].
  now rewrite length_map.
Qed.

(** The example of the specification, in each of the six iteration orders
    of the schema. *)
Lemma sortColumns_name_apple_zebra (schema : PropertySchema) :
  Permutation [Sample.meta "title" "Name"; Sample.meta "rich_text" "Zebra";
               Sample.meta "rich_text" "Apple"] schema ->
  (localeCompare (lit "Apple") (lit "Zebra") < 0)%Z ->
  (0 < localeCompare (lit "Zebra") (lit "Apple"))%Z ->
  sortColumns schema = [lit "Name"; lit "Apple"; lit "Zebra"].
Proof.
  intros Hperm Haz Hza.
  apply permutations_Permutation in Hperm.
  apply Z.lt_le_incl, Z.leb_le in Haz. apply Z.leb_gt in Hza.
  let a := eval vm_compute in (lit "Apple") in
  let z := eval vm_compute in (lit "Zebra") in
  change (lit "Apple") with a in *; change (lit "Zebra") with z in *.
  vm_compute in Hperm. change (list_elem_of ?x ?l) with (x ∈ l) in Hperm.
  unfold sortColumns. rewrite scan_columns_spec.
  repeat match goal with
         | Hin : _ ∈ _ :: _ |- _ => apply elem_of_cons in Hin as [->|Hin]
         | Hin : _ ∈ [] |- _ => now apply elem_of_nil in Hin
         end;
    match goal with
    | |- context [Spec.title_names ?s] =>
        let t := eval vm_compute in (Spec.title_names s) in
        let o := eval vm_compute in (Spec.other_names s) in
        change (Spec.title_names s) with t;
        change (Spec.other_names s) with o
    end;
    cbn [List.map List.last app sort fold_left insert_sorted truthy];
    rewrite ?Haz, ?Hza; reflexivity.
Qed.

End SortColumns.

Lemma compare_units_total : comparator_total (rt := Sample.builtins).
Proof.
  intros a. unfold locale_le. cbn [localeCompare Sample.builtins].
  induction a as [|x a IH]; intros [|y b]; cbn [Sample.compare_units]; try lia.
  destruct (N.ltb_spec x y), (N.ltb_spec y x); try lia. apply IH.
Qed.

Lemma sortColumns_title_first_witness :
  let schema := [Sample.meta "rich_text" "Zebra"; Sample.meta "title" "Name";
                 Sample.meta "rich_text" "Apple"] in
  comparator_total (rt := Sample.builtins)
  /\ Spec.title_names schema = [lit "Name"]
  /\ lit "Name" <> []
  /\ (exists rest,
        sortColumns (rt := Sample.builtins) schema = lit "Name" :: rest
        /\ Sorted (locale_le (rt := Sample.builtins)) rest
        /\ Permutation rest (Spec.other_names schema))
  /\ sortColumns (rt := Sample.builtins) schema
     = [lit "Name"; lit "Apple"; lit "Zebra"].
Proof.
  intros schema.
  assert (Ht : Spec.title_names schema = [lit "Name"]) by (vm_compute; reflexivity).
  assert (Hne : lit "Name" <> []) by (vm_compute; discriminate).
  split; [exact compare_units_total|]. split; [exact Ht|]. split; [exact Hne|].
  split; [|vm_compute; reflexivity].
  exact (sortColumns_title_first (rt := Sample.builtins) schema (lit "Name")
           compare_units_total Ht Hne).
Defined.

Lemma sortColumns_name_apple_zebra_witness :
  let schema := [Sample.meta "rich_text" "Apple"; Sample.meta "rich_text" "Zebra";
                 Sample.meta "title" "Name"] in
  sortColumns (rt := Sample.builtins) schema = [lit "Name"; lit "Apple"; lit "Zebra"].
Proof.
  intros schema.
  apply (sortColumns_name_apple_zebra (rt := Sample.builtins) schema).
  - apply (Permutation_rev [Sample.meta "title" "Name"; Sample.meta "rich_text" "Zebra";
                             Sample.meta "rich_text" "Apple"]).
  - vm_compute. reflexivity.
  - vm_compute. reflexivity.
Defined.

(** C6: for the schema whose title-typed property has the empty name and
    whose only other property is the text property Apple, the title column
    is absent from the header (and from every row): the columns are just
    Apple and the export of no entries is the single line "Apple", where
    the claim has the title-typed name first. *)
Theorem sortColumns_drops_title_of_empty_name {rt : Builtins} :
  let schema :=
    [ ([], {| meta_id := lit "title"; meta_type := lit "title"; meta_name := [] |});
      (lit "Apple", {| meta_id := lit "a"; meta_type := lit "rich_text";
                       meta_name := lit "Apple" |}) ] in
  Spec.title_names schema = [[]]
  /\ Spec.other_names schema = [lit "Apple"]
  /\ sortColumns schema = [lit "Apple"]
  /\ sortColumns schema <> [] :: [lit "Apple"]
  /\ entriesToCsv [] schema = lit "Apple" ++ [LF].
Proof.
  cbv zeta. repeat split; try (vm_compute; reflexivity).
  vm_compute. discriminate.
Qed.

(* ===================================================================== *)
(** * Properties of the document assembler *)
(* ===================================================================== *)

Import Markdown.

(** ** Joining lines *)


Lemma join_head_nonempty (sep x : jsstring) (rest : list jsstring) :
  x <> [] -> join sep (x :: rest) <> [].
Proof. destruct x; [congruence|]. destruct rest; discriminate. Qed.

Lemma join_two_nonempty (sep x y : jsstring) (rest : list jsstring) :
  sep <> [] -> join sep (x :: y :: rest) <> [].
Proof.
  intros Hsep Hj. change (x ++ sep ++ join sep (y :: rest) = []) in Hj.
  apply app_eq_nil in Hj as [_ Hj]. apply app_eq_nil in Hj as [Hj _]. auto.
Qed.

Lemma split_nonempty (sep : N) (s : jsstring) : split sep s <> [].
Proof.
  destruct s as [|c s]; cbn [split]; [discriminate|].
  destruct (c =? sep); [discriminate|]. destruct (split sep s); discriminate.
Qed.

Lemma indentLines_nonempty (text indent : jsstring) :
  text <> [] -> indentLines text indent <> [].
Proof.
  intros Hne. unfold indentLines. destruct (truthy indent) eqn:Hi; [|exact Hne].
  cbn [negb]. destruct text as [|c text]; [congruence|]. cbn [split].
  destruct (c =? LF).
  - destruct (split LF text) eqn:Hs; cbn [List.map];
      [now apply split_nonempty in Hs | apply join_two_nonempty; discriminate].
  - destruct (split LF text) as [|p ps]; cbn [List.map truthy].
    + apply join_head_nonempty. destruct indent; discriminate.
    + apply join_head_nonempty. destruct indent; discriminate.
Qed.

(** ** The lines of the walk *)

Section Walk.
Context {rt : Builtins}.

Lemma last_snoc {A} (l : list A) (x d : A) : List.last (l ++ [x]) d = x.
Proof. apply last_last. Qed.

End Walk.

(** ** Newlines of the final document *)





(** What [trimEnd] keeps is a prefix that is empty or ends with a
    character that is not white space. *)
Lemma trimEnd_prefix (s : jsstring) : exists ws, s = trimEnd s ++ ws.
Proof.
  induction s as [|c s [ws IH]]; [now exists []|].
  cbn [trimEnd]. destruct (trimEnd s) as [|d t] eqn:Ht.
  - destruct (is_whitespace c).
    + now exists (c :: s).
    + exists ws. cbn. now rewrite IH at 1.
  - exists ws. cbn. now rewrite IH at 1.
Qed.






(** ** The claim on the assembler *)




(* ===================================================================== *)
(** * Properties of the traversal orchestrator *)
(* ===================================================================== *)

Import Run.

(** Induction on a block tree, with the hypothesis on all children. *)
Lemma Block_tree_ind (P : Block -> Prop) :
  (forall id ty p cs, Forall P cs -> P (mkBlock id ty p cs)) ->
  forall block, P block.
Proof.
  intros Hstep. fix IH 1. intros [id ty p cs]. apply Hstep.
  induction cs as [|c cs IHcs]; constructor; [apply IH | exact IHcs].
Qed.

(** ** Actions that always come back *)

Lemma returns_ret : returns ret.
Proof. intros st. discriminate. Qed.

Lemma returns_seq (a b : M) : returns a -> returns b -> returns (a >> b).
Proof.
  intros Ha Hb st. unfold seq. specialize (Ha st).
  destruct (a st); [apply Hb | discriminate | congruence].
Qed.

Lemma returns_emit (e : Event) : returns (emit e).
Proof. intros st. discriminate. Qed.

Lemma returns_mark (id : jsstring) : returns (mark id).
Proof. intros st. discriminate. Qed.

Lemma returns_fetch {A} (e : Event) (r : option A) (k : A -> M) :
  (forall a, returns (k a)) -> returns (fetch e r k).
Proof.
  intros Hk. apply returns_seq; [apply returns_emit|].
  destruct r; [apply Hk | intros st; discriminate].
Qed.

Lemma returns_when (b : bool) (a : M) : (b = true -> returns a) -> returns (when b a).
Proof. destruct b; intros Ha; [now apply Ha | apply returns_ret]. Qed.

Lemma returns_for_each {A} (f : A -> M) (l : list A) :
  Forall (fun x => returns (f x)) l -> returns (for_each f l).
Proof.
  induction 1 as [|x l Hx _ IH]; [apply returns_ret|].
  now apply returns_seq.
Qed.

Section Termination.
Context {rt : Builtins}.
Variable client : Gateway.

Lemma returns_pullChildResources_block (pp pd : Puller) (maxDepth : Z) :
  (forall id dir, returns (pp id dir maxDepth)) ->
  (forall id dir, returns (pd id dir maxDepth)) ->
  forall block dir, returns (pullChildResources_block pp pd dir maxDepth block).
Proof.
  intros Hpp Hpd block. induction block as [id ty p cs IH] using Block_tree_ind.
  intros dir. cbn [pullChildResources_block].
  apply returns_seq.
  - destruct (decide _); [apply Hpp|].
    destruct (decide _); [apply Hpd | apply returns_ret].
  - apply returns_when. intros _. apply returns_for_each.
    eapply Forall_impl; [exact IH|]. intros c Hc. apply Hc.
Qed.

Lemma returns_pullChildResources (pp pd : Puller) (maxDepth : Z) :
  (forall id dir, returns (pp id dir maxDepth)) ->
  (forall id dir, returns (pd id dir maxDepth)) ->
  forall blocks dir, returns (pullChildResources pp pd blocks dir maxDepth).
Proof.
  intros Hpp Hpd blocks dir. apply returns_for_each.
  apply Forall_forall. intros block _.
  now apply returns_pullChildResources_block.
Qed.

Lemma returns_pullPage_body (pp pd : Puller) (maxDepth : Z) :
  ((0 < maxDepth)%Z -> forall id dir, returns (pp id dir (maxDepth - 1)%Z)) ->
  ((0 < maxDepth)%Z -> forall id dir, returns (pd id dir (maxDepth - 1)%Z)) ->
  forall id dir, returns (pullPage_body client pp pd id dir maxDepth).
Proof.
  intros Hpp Hpd id dir st. unfold pullPage_body.
  destruct (decide _) as [|_]; [discriminate|].
  revert st. apply returns_seq; [apply returns_mark|].
  apply returns_fetch. intros page. apply returns_fetch. intros blocks.
  apply returns_seq; [apply returns_emit|].
  apply returns_when. intros Hd. apply Z.ltb_lt in Hd.
  apply returns_pullChildResources; auto.
Qed.

Lemma returns_pullDatabase_body (pp pd : Puller) (maxDepth : Z) :
  ((0 < maxDepth)%Z -> forall id dir, returns (pp id dir (maxDepth - 1)%Z)) ->
  ((0 < maxDepth)%Z -> forall id dir, returns (pd id dir (maxDepth - 1)%Z)) ->
  forall id dir, returns (pullDatabase_body client pp pd id dir maxDepth).
Proof.
  intros Hpp Hpd id dir st. unfold pullDatabase_body.
  destruct (decide _) as [|_]; [discriminate|].
  revert st. apply returns_seq; [apply returns_mark|].
  apply returns_fetch. intros data.
  apply returns_seq; [apply returns_emit|].
  apply returns_seq.
  - apply returns_for_each. apply Forall_forall. intros entry _.
    unfold pull_entry. apply returns_fetch. intros [|b blocks]; [apply returns_ret|].
    apply returns_seq; [apply returns_emit|].
    apply returns_when. intros Hd. apply Z.ltb_lt in Hd.
    apply returns_pullChildResources; auto.
  - apply returns_when. intros Hd. apply Z.ltb_lt in Hd.
    apply returns_for_each. apply Forall_forall. intros rel _ st.
    unfold follow_relation. destruct (decide _); [discriminate|].
    now apply Hpd.
Qed.

(** With more fuel than the depth budget both procedures come back. *)
Lemma pull_returns (fuel : nat) (maxDepth : Z) :
  (Z.to_nat maxDepth < fuel)%nat ->
  (forall id dir, returns (pullPage client fuel id dir maxDepth))
  /\ (forall id dir, returns (pullDatabase client fuel id dir maxDepth)).
Proof.
  revert maxDepth. induction fuel as [|fuel IH]; intros maxDepth Hlt; [lia|].
  assert (Hrec : (0 < maxDepth)%Z -> (Z.to_nat (maxDepth - 1) < fuel)%nat) by lia.
  split; intros id dir; cbn [pullPage pullDatabase].
  - apply returns_pullPage_body; intros Hd; apply (IH _ (Hrec Hd)).
  - apply returns_pullDatabase_body; intros Hd; apply (IH _ (Hrec Hd)).
Qed.

End Termination.

(** ** What a body asks of the procedures it calls *)






Section Crossing.
Context {rt : Builtins}.
Variable client : Gateway.






End Crossing.

(** ** At most once per reference *)

Lemma pulled_ids_app (t u : list Event) :
  Spec.pulled_ids (t ++ u) = Spec.pulled_ids t ++ Spec.pulled_ids u.
Proof. apply flat_map_app. Qed.

Lemma written_ids_app (t u : list Event) :
  Spec.written_ids (t ++ u) = Spec.written_ids t ++ Spec.written_ids u.
Proof. apply flat_map_app. Qed.

Lemma at_most_once_untracked (st : State) (e : Event) :
  untracked e -> Spec.at_most_once st ->
  Spec.at_most_once {| visited := visited st; trace := trace st ++ [e] |}.
Proof.
  intros [Hp Hw] (Hnp & Hnw & Hvp & Hvw). unfold Spec.at_most_once. cbn.
  rewrite pulled_ids_app, written_ids_app, Hp, Hw, !app_nil_r.
  repeat split; assumption.
Qed.

Lemma NoDup_snoc (l : list jsstring) (x : jsstring) :
  NoDup l -> ~ In x l -> NoDup (l ++ [x]).
Proof.
  intros Hl Hx. apply NoDup_app. repeat split.
  - exact Hl.
  - intros y Hy Hy'. apply list_elem_of_In in Hy.
    apply list_elem_of_singleton in Hy'. subst. contradiction.
  - apply NoDup_singleton.
Qed.

(** The first two steps of a pull of a reference not yet visited. *)
Lemma at_most_once_pull (st : State) (id : jsstring) (e : Event) :
  Spec.pulled_ids [e] = [id] -> Spec.written_ids [e] = [] ->
  id ∉ visited st -> Spec.at_most_once st ->
  Spec.at_most_once
    {| visited := {[id]} ∪ visited st; trace := trace st ++ [e] |}.
Proof.
  intros Hp Hw Hfresh (Hnp & Hnw & Hvp & Hvw). unfold Spec.at_most_once. cbn.
  rewrite pulled_ids_app, written_ids_app, Hp, Hw, !app_nil_r.
  repeat split.
  - apply NoDup_snoc; [exact Hnp|]. intros Hin. apply Hfresh. now apply Hvp.
  - exact Hnw.
  - intros x Hx. apply in_app_or in Hx as [Hx|[<-|[]]]; set_solver.
  - intros x Hx. specialize (Hvw x Hx). set_solver.
Qed.

(** The write of the document of a visited reference not yet written. *)
Lemma at_most_once_write (st : State) (id : jsstring) (e : Event) :
  Spec.pulled_ids [e] = [] -> Spec.written_ids [e] = [id] ->
  id ∈ visited st -> ~ In id (Spec.written_ids (trace st)) ->
  Spec.at_most_once st ->
  Spec.at_most_once {| visited := visited st; trace := trace st ++ [e] |}.
Proof.
  intros Hp Hw Hin Hfresh (Hnp & Hnw & Hvp & Hvw). unfold Spec.at_most_once. cbn.
  rewrite pulled_ids_app, written_ids_app, Hp, Hw, !app_nil_r.
  repeat split; try assumption.
  - now apply NoDup_snoc.
  - intros x Hx. apply in_app_or in Hx as [Hx|[<-|[]]]; auto.
Qed.

Lemma follows_trans (st1 st2 st3 : State) (e1 e2 : list Event) :
  Spec.follows st1 st2 e1 -> Spec.follows st2 st3 e2 ->
  Spec.follows st1 st3 (e1 ++ e2).
Proof.
  intros [Hv1 Ht1] [Hv2 Ht2]. split; [set_solver|].
  now rewrite Ht2, Ht1, app_assoc.
Qed.

Lemma steady_ret : steady ret.
Proof.
  intros st st' [= <-]. split; [|auto]. exists []. split; [done|].
  now rewrite app_nil_r.
Qed.

Lemma steady_seq (a b : M) : steady a -> steady b -> steady (a >> b).
Proof.
  intros Ha Hb st st' Hf. unfold seq in Hf.
  destruct (a st) as [st1| |] eqn:Hast; [| |discriminate].
  - destruct (Ha st st1) as [[e1 Hf1] Hi1]; [now rewrite Hast|].
    destruct (Hb st1 st' Hf) as [[e2 Hf2] Hi2].
    split; [|auto]. exists (e1 ++ e2). now apply (follows_trans st st1 st').
  - apply (Ha st st'). now rewrite Hast.
Qed.

Lemma steady_when (c : bool) (a : M) : steady a -> steady (when c a).
Proof. destruct c; [auto | intros _; apply steady_ret]. Qed.

Lemma steady_for_each {A} (f : A -> M) (l : list A) :
  Forall (fun x => steady (f x)) l -> steady (for_each f l).
Proof.
  induction 1 as [|x l Hx _ IH]; [apply steady_ret|].
  now apply steady_seq.
Qed.

Lemma steady_emit (e : Event) : untracked e -> steady (emit e).
Proof.
  intros He st st' [= <-]. split.
  - exists [e]. split; [done | reflexivity].
  - now apply at_most_once_untracked.
Qed.

Lemma steady_Threw : steady Threw.
Proof.
  intros st st' [= <-]. split; [|auto]. exists []. split; [done|].
  now rewrite app_nil_r.
Qed.

Lemma steady_fetch {A} (e : Event) (r : option A) (k : A -> M) :
  untracked e -> (forall a, steady (k a)) -> steady (fetch e r k).
Proof.
  intros He Hk. apply steady_seq; [now apply steady_emit|].
  destruct r; [apply Hk | apply steady_Threw].
Qed.

Section AtMostOnce.
Context {rt : Builtins}.
Variable client : Gateway.

Lemma steady_pullChildResources_block (pp pd : Puller) :
  steady_puller pp -> steady_puller pd ->
  forall block dir d, steady (pullChildResources_block pp pd dir d block).
Proof.
  intros Hpp Hpd block. induction block as [id ty p cs IH] using Block_tree_ind.
  intros dir d. cbn [pullChildResources_block].
  apply steady_seq.
  - destruct (decide _); [apply Hpp|].
    destruct (decide _); [apply Hpd | apply steady_ret].
  - apply steady_when. apply steady_for_each.
    eapply Forall_impl; [exact IH|]. intros c Hc. apply Hc.
Qed.

Lemma steady_pullChildResources (pp pd : Puller) :
  steady_puller pp -> steady_puller pd ->
  forall blocks dir d, steady (pullChildResources pp pd blocks dir d).
Proof.
  intros Hpp Hpd blocks dir d. apply steady_for_each.
  apply Forall_forall. intros block _.
  now apply steady_pullChildResources_block.
Qed.

(** A pull of a visited reference does nothing. *)
Lemma pullPage_body_visited (pp pd : Puller) (id dir : jsstring) (d : Z) (st : State) :
  id ∈ visited st -> pullPage_body client pp pd id dir d st = Done st.
Proof. intros Hin. unfold pullPage_body. now destruct (decide _). Qed.

Lemma pullDatabase_body_visited (pp pd : Puller) (id dir : jsstring) (d : Z)
      (st : State) :
  id ∈ visited st -> pullDatabase_body client pp pd id dir d st = Done st.
Proof. intros Hin. unfold pullDatabase_body. now destruct (decide _). Qed.

Lemma run_mark (id : jsstring) (m : M) (st : State) :
  (mark id >> m) st = m (marked id st).
Proof. reflexivity. Qed.

Lemma run_emit (e : Event) (m : M) (st : State) :
  (emit e >> m) st = m (then_ st [e]).
Proof. reflexivity. Qed.

Lemma run_write (site : WriteSite) (id dir file doc : jsstring) (m : M) (st : State) :
  (writeOutputFile site id dir file doc >> m) st
  = m (then_ st [EvWrite site id dir file doc]).
Proof. reflexivity. Qed.

Lemma run_fetch_some {A} (e : Event) (a : A) (k : A -> M) (st : State) :
  fetch e (Some a) k st = k a (then_ st [e]).
Proof. reflexivity. Qed.

Lemma run_fetch_none {A} (e : Event) (k : A -> M) (st : State) :
  fetch e None k st = Threw (then_ st [e]).
Proof. reflexivity. Qed.

Lemma marked_subset (id : jsstring) (st : State) (s : gset jsstring) :
  {[id]} ∪ visited st ⊆ s -> visited st ⊆ s.
Proof. set_solver. Qed.

Lemma marked_elem (id : jsstring) (st : State) (s : gset jsstring) :
  {[id]} ∪ visited st ⊆ s -> id ∈ s.
Proof. set_solver. Qed.

Lemma not_written_when_fresh (st : State) (id : jsstring) :
  Spec.at_most_once st -> id ∉ visited st ->
  ~ In id (Spec.written_ids (trace st)).
Proof. intros (_ & _ & _ & Hvw) Hfresh Hin. apply Hfresh. now apply Hvw. Qed.

(** A pull of a reference not yet visited: the reference is marked, then
    the page is fetched, and whatever happens next the reference stays
    marked and at-most-once is kept. *)
Lemma pullPage_body_fresh (pp pd : Puller) (id dir : jsstring) (d : Z)
      (st st' : State) :
  steady_puller pp -> steady_puller pd ->
  id ∉ visited st ->
  Spec.final (pullPage_body client pp pd id dir d st) = Some st' ->
  id ∈ visited st'
  /\ (exists events, Spec.follows st st' (EvFetchPage id :: events))
  /\ (Spec.at_most_once st -> Spec.at_most_once st').
Proof.
  intros Hpp Hpd Hfresh. unfold pullPage_body.
  destruct (decide _) as [|_]; [contradiction|].
  rewrite run_mark.
  set (st1 := then_ (marked id st) [EvFetchPage id]).
  assert (H1 : Spec.at_most_once st -> Spec.at_most_once st1).
  { intros Hst. now apply (at_most_once_pull st id). }
  assert (S1 : {[id]} ∪ visited st ⊆ visited st1) by reflexivity.
  assert (F1 : Spec.follows st st1 [EvFetchPage id])
    by (split; [exact (marked_subset id st _ S1) | reflexivity]).
  assert (V1 : id ∈ visited st1) by exact (marked_elem id st _ S1).
  destruct (fetchPage client id) as [page|].
  2:{ rewrite run_fetch_none. intros [= <-]. eauto. }
  rewrite run_fetch_some.
  set (st2 := then_ st1 [EvFetchBlocks id]).
  assert (H2 : Spec.at_most_once st -> Spec.at_most_once st2).
  { intros Hst. apply at_most_once_untracked; [split; reflexivity | auto]. }
  destruct (fetchBlockChildren client id) as [blocks|].
  2:{ rewrite run_fetch_none.
      intros [= <-]. split; [exact V1|]. split; [|exact H2].
      exists [EvFetchBlocks id]. split; [exact (marked_subset id st _ S1)|].
      unfold st2, st1, then_, marked. cbn [trace app].
      rewrite <- !app_assoc. reflexivity. }
  set (doc := Markdown.blocksToMarkdown blocks (Some page)).
  set (file := Writer.sanitizeFilename (getPageTitle page) ++ lit ".md").
  set (st3 := then_ st2 [EvWrite PageDocument id dir file doc]).
  assert (H3 : Spec.at_most_once st -> Spec.at_most_once st3).
  { intros Hst. apply (at_most_once_write st2 id); try reflexivity; auto.
    unfold st2, st1, then_, marked. cbn [trace].
    rewrite !written_ids_app. cbn [Spec.written_ids flat_map app].
    rewrite !app_nil_r. now apply not_written_when_fresh. }
  set (rest := when (0 <? d)%Z
                 (pullChildResources pp pd blocks
                    (dir ++ lit "/" ++ Writer.sanitizeFilename (getPageTitle page))
                    (d - 1)%Z)).
  assert (Hrest : steady rest)
    by (apply steady_when; now apply steady_pullChildResources).
  rewrite run_fetch_some, run_write. fold doc file st3 rest. intros Hf.
  destruct (Hrest st3 st' Hf) as [[events [Hv Ht]] Hi].
  split; [exact (marked_elem id st _ Hv)|]. split; [|auto].
  exists ([EvFetchBlocks id; EvWrite PageDocument id dir file doc] ++ events).
  split; [exact (marked_subset id st _ Hv)|].
  rewrite Ht. unfold st3, st2, st1, then_, marked. cbn [trace app].
  rewrite <- !app_assoc. reflexivity.
Qed.

Lemma steady_pull_entry (pp pd : Puller) (dir dbDir : jsstring) (d : Z) (entry : Page) :
  steady_puller pp -> steady_puller pd ->
  steady (pull_entry client pp pd dir dbDir d entry).
Proof.
  intros Hpp Hpd. unfold pull_entry.
  apply steady_fetch; [split; reflexivity|]. intros [|b blocks]; [apply steady_ret|].
  apply steady_seq; [apply steady_emit; split; reflexivity|].
  apply steady_when. now apply steady_pullChildResources.
Qed.

Lemma steady_follow_relation (pd : Puller) (dir : jsstring) (d : Z)
      (rel : RelationTarget) :
  steady_puller pd -> steady (follow_relation pd dir d rel).
Proof.
  intros Hpd st st'. unfold follow_relation.
  destruct (decide _); [apply steady_ret | apply Hpd].
Qed.

(** The same for a database not yet visited: marked, then fetched. *)
Lemma pullDatabase_body_fresh (pp pd : Puller) (id dir : jsstring) (d : Z)
      (st st' : State) :
  steady_puller pp -> steady_puller pd ->
  id ∉ visited st ->
  Spec.final (pullDatabase_body client pp pd id dir d st) = Some st' ->
  id ∈ visited st'
  /\ (exists events, Spec.follows st st' (EvFetchDatabase id :: events))
  /\ (Spec.at_most_once st -> Spec.at_most_once st').
Proof.
  intros Hpp Hpd Hfresh. unfold pullDatabase_body.
  destruct (decide _) as [|_]; [contradiction|].
  rewrite run_mark.
  set (st1 := then_ (marked id st) [EvFetchDatabase id]).
  assert (H1 : Spec.at_most_once st -> Spec.at_most_once st1).
  { intros Hst. now apply (at_most_once_pull st id). }
  assert (S1 : {[id]} ∪ visited st ⊆ visited st1) by reflexivity.
  assert (F1 : Spec.follows st st1 [EvFetchDatabase id])
    by (split; [exact (marked_subset id st _ S1) | reflexivity]).
  assert (V1 : id ∈ visited st1) by exact (marked_elem id st _ S1).
  destruct (fetchDatabase client id) as [data|].
  2:{ rewrite run_fetch_none. intros [= <-]. eauto. }
  rewrite run_fetch_some, run_write.
  set (csv := Csv.entriesToCsv (entries data) (propertySchema data)).
  set (dbDir := Writer.sanitizeFilename (getDatabaseTitle data)).
  set (st2 := then_ st1 [EvWrite CsvIndex id dir (dbDir ++ lit "/_index.csv") csv]).
  assert (H2 : Spec.at_most_once st -> Spec.at_most_once st2).
  { intros Hst. apply (at_most_once_write st1 id); try reflexivity; auto.
    unfold st1, then_, marked. cbn [trace].
    rewrite !written_ids_app. cbn [Spec.written_ids flat_map app].
    rewrite !app_nil_r. now apply not_written_when_fresh. }
  set (rest := for_each (pull_entry client pp pd dir dbDir d) (entries data) >>
               when (0 <? d)%Z
                 (for_each (follow_relation pd dir d) (findRelationTargets data))).
  assert (Hrest : steady rest).
  { apply steady_seq.
    - apply steady_for_each. apply Forall_forall. intros entry _.
      now apply steady_pull_entry.
    - apply steady_when. apply steady_for_each. apply Forall_forall.
      intros rel _. now apply steady_follow_relation. }
  intros Hf.
  destruct (Hrest st2 st' Hf) as [[events [Hv Ht]] Hi].
  split; [exact (marked_elem id st _ Hv)|]. split; [|auto].
  exists ([EvWrite CsvIndex id dir (dbDir ++ lit "/_index.csv") csv] ++ events).
  split; [exact (marked_subset id st _ Hv)|].
  rewrite Ht. unfold st2, st1, then_, marked. cbn [trace app].
  rewrite <- !app_assoc. reflexivity.
Qed.

Lemma steady_pullPage_body (pp pd : Puller) :
  steady_puller pp -> steady_puller pd -> steady_puller (pullPage_body client pp pd).
Proof.
  intros Hpp Hpd id dir d st st' Hf.
  destruct (decide (id ∈ visited st)) as [Hin|Hfresh].
  - rewrite pullPage_body_visited in Hf by exact Hin. now apply steady_ret.
  - destruct (pullPage_body_fresh pp pd id dir d st st' Hpp Hpd Hfresh Hf)
      as (_ & [events Hfol] & Hi).
    split; [eauto | exact Hi].
Qed.

Lemma steady_pullDatabase_body (pp pd : Puller) :
  steady_puller pp -> steady_puller pd ->
  steady_puller (pullDatabase_body client pp pd).
Proof.
  intros Hpp Hpd id dir d st st' Hf.
  destruct (decide (id ∈ visited st)) as [Hin|Hfresh].
  - rewrite pullDatabase_body_visited in Hf by exact Hin. now apply steady_ret.
  - destruct (pullDatabase_body_fresh pp pd id dir d st st' Hpp Hpd Hfresh Hf)
      as (_ & [events Hfol] & Hi).
    split; [eauto | exact Hi].
Qed.

(** Both procedures are steady, with any fuel. *)
Lemma pull_steady (fuel : nat) :
  steady_puller (pullPage client fuel) /\ steady_puller (pullDatabase client fuel).
Proof.
  induction fuel as [|fuel [IHp IHd]].
  - split; intros id dir d st st' Hf; discriminate Hf.
  - split; cbn [pullPage pullDatabase];
      [now apply steady_pullPage_body | now apply steady_pullDatabase_body].
Qed.

End AtMostOnce.

(** ** The claims on the orchestrator *)

Lemma at_most_once_initial : Spec.at_most_once initial.
Proof.
  unfold Spec.at_most_once, initial. cbn.
  repeat split; try constructor; intros id [].
Qed.

(** C7, as stated, fails: in the sample workspace a run from the page E
    with depth 2 fetches the block tree of E twice and writes a document
    for E twice, the second time as an entry of the database D2, after E
    has been put in the visited set. *)
Lemma pull_entry_ignores_visited :
  let outcome :=
    pullPage (rt := Sample.builtins) Sample.world 3%nat (lit "E") (lit "out") 2%Z initial in
  exists st,
    outcome = Done st
    /\ lit "E" ∈ visited st
    /\ Spec.block_fetches (trace st) = [lit "E"; lit "E"]
    /\ Spec.documents (trace st) = [lit "E"; lit "E"]
    /\ ~ NoDup (Spec.block_fetches (trace st))
    /\ ~ NoDup (Spec.documents (trace st)).
Proof.
  cbv zeta.
  destruct (pullPage (rt := Sample.builtins) Sample.world 3%nat (lit "E") (lit "out")
                     2%Z initial) as [st| |] eqn:Hrun.
  2,3: (exfalso; vm_compute in Hrun; discriminate Hrun).
  assert (Hb : Spec.block_fetches (trace st) = [lit "E"; lit "E"]).
  { apply (f_equal (fun o => match o with
                             | Done s => Spec.block_fetches (trace s)
                             | _ => []
                             end)) in Hrun.
    rewrite <- Hrun. vm_compute. reflexivity. }
  assert (Hd : Spec.documents (trace st) = [lit "E"; lit "E"]).
  { apply (f_equal (fun o => match o with
                             | Done s => Spec.documents (trace s)
                             | _ => []
                             end)) in Hrun.
    rewrite <- Hrun. vm_compute. reflexivity. }
  assert (Hv : lit "E" ∈ visited st).
  { assert (Hf : Spec.final (Done st) = Some st) by reflexivity.
    rewrite <- Hrun in Hf. cbn [pullPage] in Hf.
    destruct (pull_steady (rt := Sample.builtins) Sample.world 2%nat) as [Hpp Hpd].
    destruct (pullPage_body_fresh (rt := Sample.builtins) Sample.world _ _
                (lit "E") (lit "out") 2%Z initial st Hpp Hpd
                (not_elem_of_empty _) Hf) as [Hin _].
    exact Hin. }
  assert (Hdup : ~ NoDup [lit "E"; lit "E"]).
  { intros Hn. apply NoDup_cons in Hn as [Hn _]. apply Hn. now left. }
  exists st. rewrite Hb, Hd. repeat split; (exact Hv || exact Hdup).
Qed.

(** C7 (amended): [pullPage] and [pullDatabase] called on a reference
    that is in the visited set return at once and change nothing (no
    error, no fetch, no file); called on a reference that is not, they put
    it in the visited set and only then fetch it, so that it stays
    visited however the call ends (and with fuel beyond the depth budget
    the call does end); hence within one run no reference is fetched twice
    as the page or database being pulled and no page document or CSV index
    is written twice for a reference.  (Entries of a database are fetched
    and written by [pullDatabase] itself, which does not look them up in
    the visited set.) *)
Theorem pull_at_most_once {rt : Builtins} (client : Gateway) (fuel : nat)
        (id dir : jsstring) (maxDepth : Z) (st : State) :
  (id ∈ visited st ->
   pullPage client (S fuel) id dir maxDepth st = Done st
   /\ pullDatabase client (S fuel) id dir maxDepth st = Done st)
  /\ (id ∉ visited st ->
      forall st',
        (Spec.final (pullPage client (S fuel) id dir maxDepth st) = Some st' ->
         id ∈ visited st'
         /\ exists events, Spec.follows st st' (EvFetchPage id :: events))
        /\ (Spec.final (pullDatabase client (S fuel) id dir maxDepth st) = Some st' ->
            id ∈ visited st'
            /\ exists events, Spec.follows st st' (EvFetchDatabase id :: events)))
  /\ (Spec.at_most_once st ->
      forall st',
        Spec.final (pullPage client (S fuel) id dir maxDepth st) = Some st'
        \/ Spec.final (pullDatabase client (S fuel) id dir maxDepth st) = Some st' ->
        Spec.at_most_once st')
  /\ (forall type st',
        Spec.final (run_resolved client (S fuel) type id dir maxDepth) = Some st' ->
        Spec.at_most_once st')
  /\ ((Z.to_nat maxDepth <= fuel)%nat ->
      (exists st', Spec.final (pullPage client (S fuel) id dir maxDepth st) = Some st')
      /\ (exists st',
            Spec.final (pullDatabase client (S fuel) id dir maxDepth st) = Some st')).
Proof.
  destruct (pull_steady client fuel) as [Hpp Hpd].
  destruct (pull_steady client (S fuel)) as [Hpp' Hpd'].
  split; [|split; [|split; [|split]]].
  - intros Hin. cbn [pullPage pullDatabase].
    split; [now apply pullPage_body_visited | now apply pullDatabase_body_visited].
  - intros Hfresh st'. cbn [pullPage pullDatabase]. split; intros Hf.
    + destruct (pullPage_body_fresh client _ _ id dir maxDepth st st' Hpp Hpd Hfresh Hf)
        as (Hv & Hfol & _). now split.
    + destruct (pullDatabase_body_fresh client _ _ id dir maxDepth st st' Hpp Hpd
                  Hfresh Hf) as (Hv & Hfol & _). now split.
  - intros Hst st' [Hf|Hf]; [apply (Hpp' _ _ _ _ _ Hf) | apply (Hpd' _ _ _ _ _ Hf)];
      exact Hst.
  - intros [|] st' Hf; unfold run_resolved in Hf;
      [apply (Hpp' _ _ _ _ _ Hf) | apply (Hpd' _ _ _ _ _ Hf)];
      apply at_most_once_initial.
  - intros Hfuel.
    destruct (pull_returns client (S fuel) maxDepth) as [Hp Hd]; [lia|].
    specialize (Hp id dir st). specialize (Hd id dir st).
    split.
    + destruct (pullPage client (S fuel) id dir maxDepth st) as [st'|st'|];
        [exists st'; reflexivity | exists st'; reflexivity | congruence].
    + destruct (pullDatabase client (S fuel) id dir maxDepth st) as [st'|st'|];
        [exists st'; reflexivity | exists st'; reflexivity | congruence].
Qed.

Lemma pull_at_most_once_witness :
  let st := {| visited := {[lit "E"]}; trace := [EvFetchPage (lit "E")] |} in
  lit "E" ∈ visited st
  /\ pullPage (rt := Sample.builtins) Sample.world 3%nat (lit "E") (lit "out") 2%Z st = Done st
  /\ pullDatabase (rt := Sample.builtins) Sample.world 3%nat (lit "E") (lit "out") 2%Z st
     = Done st.
Proof.
  intros st.
  assert (Hin : lit "E" ∈ visited st)
    by (unfold st; cbn [visited]; apply elem_of_singleton; reflexivity).
  split; [exact Hin|].
  exact (proj1 (pull_at_most_once (rt := Sample.builtins) Sample.world 2%nat
                  (lit "E") (lit "out") 2%Z st) Hin).
Defined.




(* ===================================================================== *)
(** * Further properties: strings *)
(* ===================================================================== *)

Lemma split_app (sep : N) (a b : jsstring) :
  split sep (a ++ sep :: b) = split sep a ++ split sep b.
Proof.
  induction a as [|c a IH]; cbn [app split].
  - now rewrite N.eqb_refl.
  - rewrite IH. destruct (c =? sep); [reflexivity|].
    pose proof (split_nonempty sep a) as Hne.
    destruct (split sep a); [contradiction|reflexivity].
Qed.

Lemma split_without (sep : N) (s : jsstring) : without sep s -> split sep s = [s].
Proof.
  induction 1 as [|c s Hc _ IH]; [reflexivity|].
  cbn [split]. apply N.eqb_neq in Hc. now rewrite Hc, IH.
Qed.

(** Joining the pieces of a split gives the text back. *)
Lemma join_split (sep : N) (s : jsstring) : join [sep] (split sep s) = s.
Proof.
  induction s as [|c s IH]; [reflexivity|]. cbn [split].
  pose proof (split_nonempty sep s) as Hne.
  destruct (N.eqb_spec c sep) as [->|Hc].
  - destruct (split sep s) as [|p ps]; [contradiction|].
    change (join [sep] ([] :: p :: ps)) with (sep :: join [sep] (p :: ps)).
    now rewrite IH.
  - destruct (split sep s) as [|p ps]; [contradiction|].
    destruct ps as [|q ps].
    + cbn in *. now rewrite IH.
    + change (join [sep] ((c :: p) :: q :: ps))
        with (c :: (p ++ [sep] ++ join [sep] (q :: ps))).
      change (join [sep] (p :: q :: ps))
        with (p ++ [sep] ++ join [sep] (q :: ps)) in IH.
      now rewrite IH.
Qed.

(** Splitting a join of pieces free of the separator gives the pieces. *)
Lemma split_join (sep : N) (parts : list jsstring) :
  parts <> [] -> Forall (without sep) parts ->
  split sep (join [sep] parts) = parts.
Proof.
  intros Hne Hall. induction Hall as [|p parts Hp Hall IH]; [congruence|].
  destruct parts as [|q parts].
  - cbn. now apply split_without.
  - change (join [sep] (p :: q :: parts)) with (p ++ sep :: join [sep] (q :: parts)).
    rewrite split_app, (split_without sep p Hp), IH by discriminate. reflexivity.
Qed.

Lemma trimStart_blank (ws s : jsstring) : blank ws -> trimStart (ws ++ s) = trimStart s.
Proof. induction 1 as [|c ws Hc _ IH]; [reflexivity|]. cbn. now rewrite Hc. Qed.

Lemma trimEnd_blank (ws : jsstring) : blank ws -> trimEnd ws = [].
Proof. induction 1 as [|c ws Hc _ IH]; [reflexivity|]. cbn. now rewrite IH, Hc. Qed.

Lemma trimEnd_app_blank (s ws : jsstring) : blank ws -> trimEnd (s ++ ws) = trimEnd s.
Proof.
  intros Hws. induction s as [|c s IH]; [now apply trimEnd_blank|].
  cbn [app trimEnd]. now rewrite IH.
Qed.

Lemma trim_app_blank (s ws : jsstring) : blank ws -> trim (s ++ ws) = trim s.
Proof.
  intros Hws. unfold trim. induction s as [|c s IH].
  - cbn [app]. rewrite <- (app_nil_r ws), trimStart_blank by exact Hws.
    reflexivity.
  - cbn [app trimStart]. destruct (is_whitespace c); [exact IH|].
    now apply (trimEnd_app_blank (c :: s)).
Qed.

(** White space around a text does not change what [trim] gives. *)
Lemma trim_padded (ws1 s ws2 : jsstring) :
  blank ws1 -> blank ws2 -> trim (ws1 ++ s ++ ws2) = trim s.
Proof.
  intros H1 H2. unfold trim. rewrite trimStart_blank by exact H1.
  now apply trim_app_blank.
Qed.

(* ===================================================================== *)
(** * Further properties: the reference normaliser *)
(* ===================================================================== *)

(** X3: white space before and after a reference is ignored. *)
Theorem parseNotionReference_padded {rt : Builtins} (ws1 s ws2 : jsstring) :
  blank ws1 -> blank ws2 ->
  parseNotionReference (ws1 ++ s ++ ws2) = parseNotionReference s.
Proof.
  intros H1 H2. unfold parseNotionReference.
  now rewrite (trim_padded ws1 s ws2 H1 H2).
Qed.

Lemma parseNotionReference_padded_witness :
  let ws1 := lit "  " in
  let ws2 := [LF] in
  blank ws1 /\ blank ws2
  /\ parseNotionReference (rt := Sample.builtins)
       (ws1 ++ lit "abc123def456abc123def456abc123de" ++ ws2)
     = parseNotionReference (rt := Sample.builtins)
         (lit "abc123def456abc123def456abc123de").
Proof.
  intros ws1 ws2.
  assert (H1 : blank ws1) by (repeat constructor).
  assert (H2 : blank ws2) by (repeat constructor).
  split; [exact H1|]. split; [exact H2|].
  exact (parseNotionReference_padded (rt := Sample.builtins) ws1 _ ws2 H1 H2).
Defined.

(** The shape of a string that matches [UUID_DASHED]. *)
Lemma match_toks_hex_inv (n : nat) (ts : list tok) (s rest : jsstring) :
  match_toks (Hex n :: ts) s = Some rest ->
  exists digits s', s = digits ++ s' /\ length digits = n
                    /\ Forall (fun c => is_hex c = true) digits
                    /\ match_toks ts s' = Some rest.
Proof.
  cbn [match_toks]. destruct (hex_run n s) as [s'|] eqn:Hrun; [|discriminate].
  intros Hts. destruct (hex_run_all _ _ _ Hrun) as (digits & -> & Hlen & Hall).
  now exists digits, s'.
Qed.

Lemma match_toks_dash_inv (ts : list tok) (s rest : jsstring) :
  match_toks (Dash :: ts) s = Some rest ->
  exists s', s = lit "-" ++ s' /\ match_toks ts s' = Some rest.
Proof.
  cbn [match_toks]. destruct s as [|c s]; [discriminate|]. cbn [dash].
  destruct (N.eqb_spec c (ch "-")) as [->|]; [|discriminate].
  intros Hts. now exists s.
Qed.

Lemma UUID_DASHED_inv (s : jsstring) :
  UUID_DASHED s = true ->
  exists a b c d e,
    s = a ++ lit "-" ++ b ++ lit "-" ++ c ++ lit "-" ++ d ++ lit "-" ++ e
    /\ hex_digits 8 a /\ hex_digits 4 b /\ hex_digits 4 c
    /\ hex_digits 4 d /\ hex_digits 12 e.
Proof.
  unfold UUID_DASHED, test.
  destruct (match_toks _ s) as [rest|] eqn:Hm; [|discriminate].
  destruct rest; [|discriminate]. intros _.
  apply match_toks_hex_inv in Hm as (a & s1 & -> & La & Ha & Hm).
  apply match_toks_dash_inv in Hm as (s2 & -> & Hm).
  apply match_toks_hex_inv in Hm as (b & s3 & -> & Lb & Hb & Hm).
  apply match_toks_dash_inv in Hm as (s4 & -> & Hm).
  apply match_toks_hex_inv in Hm as (c & s5 & -> & Lc & Hc & Hm).
  apply match_toks_dash_inv in Hm as (s6 & -> & Hm).
  apply match_toks_hex_inv in Hm as (d & s7 & -> & Ld & Hd & Hm).
  apply match_toks_dash_inv in Hm as (s8 & -> & Hm).
  apply match_toks_hex_inv in Hm as (e & s9 & -> & Le & He & Hm).
  cbn in Hm. injection Hm as ->. rewrite app_nil_r.
  exists a, b, c, d, e. unfold hex_digits. auto 10.
Qed.

Lemma strip_dashes_app (a b : jsstring) :
  strip_dashes (a ++ b) = strip_dashes a ++ strip_dashes b.
Proof. apply flat_map_app. Qed.

Lemma strip_dashes_hex (s : jsstring) :
  Forall (fun c => is_hex c = true) s -> strip_dashes s = s.
Proof.
  induction 1 as [|c s Hc _ IH]; [reflexivity|].
  unfold strip_dashes, replace_char in *. cbn [flat_map]. rewrite IH.
  destruct (N.eqb_spec c (ch "-")) as [->|]; [discriminate Hc | reflexivity].
Qed.

Lemma strip_dashes_dash (s : jsstring) : strip_dashes (lit "-" ++ s) = strip_dashes s.
Proof. reflexivity. Qed.

Lemma hex_digits_app (n m : nat) (a b : jsstring) :
  hex_digits n a -> hex_digits m b -> hex_digits (n + m) (a ++ b).
Proof.
  intros [La Ha] [Lb Hb]. split; [rewrite length_app; lia | now apply Forall_app].
Qed.

Lemma UUID_BARE_hex_digits (h : jsstring) : UUID_BARE h = true <-> hex_digits 32 h.
Proof.
  split; [apply UUID_BARE_inv|]. intros [Hlen Hall].
  unfold UUID_BARE, test. cbn [match_toks].
  rewrite <- (app_nil_r h), hex_run_app by assumption. reflexivity.
Qed.

Lemma slice_app_l (n : nat) (a rest : jsstring) :
  length a = n -> slice 0 n (a ++ rest) = a.
Proof.
  intros <-. unfold slice. rewrite Nat.sub_0_r.
  change (drop 0 (a ++ rest)) with (a ++ rest). apply take_app_length.
Qed.

Lemma slice_shift (n i j : nat) (a rest : jsstring) :
  length a = n -> slice (n + i) (n + j) (a ++ rest) = slice i j rest.
Proof.
  intros <-. unfold slice. rewrite drop_app_add.
  replace (length a + j - (length a + i))%nat with (j - i)%nat by lia.
  reflexivity.
Qed.

(** Round trip: removing the dashes of a dashed UUID and putting them back
    gives the same text. *)
Lemma toDashedUuid_strip_dashes (s : jsstring) :
  UUID_DASHED s = true ->
  UUID_BARE (strip_dashes s) = true /\ toDashedUuid (strip_dashes s) = s.
Proof.
  intros Hs.
  destruct (UUID_DASHED_inv s Hs)
    as (a & b & c & d & e & -> & Ha & Hb & Hc & Hd & He).
  assert (Hstrip : strip_dashes
                     (a ++ lit "-" ++ b ++ lit "-" ++ c ++ lit "-" ++ d ++ lit "-" ++ e)
                   = a ++ b ++ c ++ d ++ e).
  { rewrite !strip_dashes_app. change (strip_dashes (lit "-")) with (@nil N).
    cbn [app].
    now rewrite !strip_dashes_hex
      by (apply Ha || apply Hb || apply Hc || apply Hd || apply He). }
  rewrite Hstrip. split.
  - apply UUID_BARE_hex_digits.
    apply (hex_digits_app 8 24), (hex_digits_app 4 20), (hex_digits_app 4 16),
      (hex_digits_app 4 12); assumption.
  - destruct Ha as [La _], Hb as [Lb _], Hc as [Lc _], Hd as [Ld _], He as [Le _].
    rewrite toDashedUuid_pieces.
    rewrite (slice_app_l 8 a) by exact La.
    rewrite (slice_shift 8 0 4 a), (slice_app_l 4 b) by assumption.
    rewrite (slice_shift 8 4 8 a), (slice_shift 4 0 4 b), (slice_app_l 4 c)
      by assumption.
    rewrite (slice_shift 8 8 12 a), (slice_shift 4 4 8 b), (slice_shift 4 0 4 c),
      (slice_app_l 4 d) by assumption.
    rewrite (slice_shift 8 12 24 a), (slice_shift 4 8 20 b), (slice_shift 4 4 16 c),
      (slice_shift 4 0 12 d) by assumption.
    rewrite <- (app_nil_r e) at 1. rewrite (slice_app_l 12 e) by exact Le.
    reflexivity.
Qed.

(** And the other way round. *)
Lemma strip_dashes_toDashedUuid (h : jsstring) :
  UUID_BARE h = true -> strip_dashes (toDashedUuid h) = h.
Proof.
  intros Hbare. destruct (UUID_BARE_inv h Hbare) as [Hlen Hall].
  rewrite toDashedUuid_pieces.
  rewrite !strip_dashes_app. change (strip_dashes (lit "-")) with (@nil N).
  cbn [app].
  rewrite !strip_dashes_hex by (now apply slice_Forall).
  unfold slice. cbn [Nat.sub skipn].
  change (take 8 h ++ take 4 (drop 8 h) ++ take 4 (drop 12 h)
            ++ take 4 (drop 16 h) ++ take 12 (drop 20 h) = h).
  rewrite (take_ge (drop 20 h)) by (rewrite length_drop; lia).
  replace (drop 20 h) with (drop 4 (drop 16 h)) by (now rewrite drop_drop).
  rewrite take_drop.
  replace (drop 16 h) with (drop 4 (drop 12 h)) by (now rewrite drop_drop).
  rewrite take_drop.
  replace (drop 12 h) with (drop 4 (drop 8 h)) by (now rewrite drop_drop).
  rewrite take_drop. apply take_drop.
Qed.

Lemma is_hex_lower (c : N) : is_hex (lower c) = is_hex c.
Proof.
  unfold is_hex, lower.
  destruct (N.leb_spec 65 c), (N.leb_spec c 90); cbn [andb];
    case_leb; cbn; try reflexivity; lia.
Qed.

Lemma lower_dash (c : N) : (lower c =? ch "-") = (c =? ch "-").
Proof.
  unfold lower. change (ch "-") with 45.
  destruct (N.leb_spec 65 c), (N.leb_spec c 90); cbn [andb];
    case_leb; cbn; try reflexivity; lia.
Qed.

Lemma hex_run_lower (n : nat) (s : jsstring) :
  hex_run n (toLowerCase s) = option_map toLowerCase (hex_run n s).
Proof.
  revert s. induction n as [|n IH]; intros s; [reflexivity|].
  destruct s as [|c s]; [reflexivity|]. cbn [toLowerCase List.map hex_run].
  rewrite is_hex_lower. destruct (is_hex c); [apply IH | reflexivity].
Qed.

Lemma match_toks_lower (ts : list tok) (s : jsstring) :
  match_toks ts (toLowerCase s) = option_map toLowerCase (match_toks ts s).
Proof.
  revert s. induction ts as [|t ts IH]; intros s; [reflexivity|].
  cbn [match_toks]. destruct t as [n|].
  - rewrite hex_run_lower. destruct (hex_run n s); [apply IH | reflexivity].
  - destruct s as [|c s]; [reflexivity|]. cbn [toLowerCase List.map dash].
    rewrite lower_dash. destruct (c =? ch "-"); [apply IH | reflexivity].
Qed.

Lemma UUID_DASHED_toLowerCase (s : jsstring) :
  UUID_DASHED (toLowerCase s) = UUID_DASHED s.
Proof.
  unfold UUID_DASHED, test. rewrite match_toks_lower.
  destruct (match_toks _ s) as [[|c r]|]; reflexivity.
Qed.

Lemma lower_lower (c : N) : lower (lower c) = lower c.
Proof.
  unfold lower.
  destruct (N.leb_spec 65 c), (N.leb_spec c 90); cbn [andb];
    case_leb; cbn; try reflexivity; lia.
Qed.

Lemma toLowerCase_idem (s : jsstring) : toLowerCase (toLowerCase s) = toLowerCase s.
Proof.
  unfold toLowerCase. rewrite List.map_map. apply List.map_ext, lower_lower.
Qed.

Lemma extractIdFromPath_hex (path hex : jsstring) :
  extractIdFromPath path = Some hex -> UUID_BARE hex = true.
Proof.
  unfold extractIdFromPath. cbv zeta.
  destruct (List.last _ None) as [last|]; [|discriminate].
  destruct (suffix 32 last) as [m32|]; [|discriminate].
  destruct (UUID_BARE m32) eqn:Hbare; [intros [= <-]; exact Hbare|].
  destruct (suffix 36 last) as [m36|]; [|discriminate].
  destruct (UUID_DASHED m36) eqn:Hd; [|discriminate].
  intros [= <-]. now apply toDashedUuid_strip_dashes.
Qed.

Lemma UUID_DASHED_no_whitespace (s : jsstring) :
  UUID_DASHED s = true -> Forall (fun c => is_whitespace c = false) s.
Proof.
  intros Hs.
  destruct (UUID_DASHED_inv s Hs)
    as (a & b & c & d & e & -> & [_ Ha] & [_ Hb] & [_ Hc] & [_ Hd] & [_ He]).
  repeat (apply Forall_app; split);
    try (eapply Forall_impl; [eassumption | apply is_hex_not_whitespace]);
    repeat constructor.
Qed.

Lemma UUID_DASHED_not_bare (s : jsstring) :
  UUID_DASHED s = true -> UUID_BARE s = false.
Proof.
  intros Hs.
  destruct (UUID_DASHED_inv s Hs) as (a & b & c & d & e & -> & [La Ha] & _).
  unfold UUID_BARE, test. cbn [match_toks].
  change (lit "-" ++ ?r) with (45 :: r).
  rewrite hex_run_stops; [reflexivity | lia | exact Ha | reflexivity].
Qed.

Lemma parseNotionReference_dashed_any_case {rt : Builtins} (s : jsstring) :
  UUID_DASHED s = true ->
  parseNotionReference s = inl {| id := toLowerCase s |}.
Proof.
  intros Hs. unfold parseNotionReference.
  rewrite (trim_no_whitespace s (UUID_DASHED_no_whitespace s Hs)). cbv zeta.
  now rewrite (UUID_DASHED_not_bare s Hs), Hs.
Qed.

(** X4: a dashed UUID, in either letter case, normalises to its
    lower-case form. *)
Theorem parseNotionReference_dashed_lower {rt : Builtins} (s : jsstring) :
  UUID_DASHED s = true ->
  parseNotionReference s = inl {| id := toLowerCase s |}.
Proof. apply parseNotionReference_dashed_any_case. Qed.

Lemma parseNotionReference_dashed_lower_witness :
  let s := lit "ABC123DE-f456-abc1-23DE-F456ABC123DE" in
  UUID_DASHED s = true
  /\ parseNotionReference (rt := Sample.builtins) s
     = inl {| id := lit "abc123de-f456-abc1-23de-f456abc123de" |}.
Proof.
  intros s.
  assert (Hs : UUID_DASHED s = true) by (vm_compute; reflexivity).
  split; [exact Hs|].
  exact (parseNotionReference_dashed_lower (rt := Sample.builtins) s Hs).
Defined.

(** X5: whatever the accepted shape of the input, the reference returned
    is a dashed UUID: 8, 4, 4, 4 and 12 hexadecimal digits separated by
    dashes; and normalising it once more only lower-cases it. *)
Theorem parseNotionReference_gives_dashed_uuid {rt : Builtins}
        (input : jsstring) (r : ParsedReference) :
  parseNotionReference input = inl r ->
  UUID_DASHED (id r) = true
  /\ parseNotionReference (id r) = inl {| id := toLowerCase (id r) |}.
Proof.
  intros Hparse.
  assert (Hd : UUID_DASHED (id r) = true).
  { revert Hparse. unfold parseNotionReference. cbv zeta.
    destruct (UUID_BARE (trim input)) eqn:Hbare.
    { intros [= <-]. now apply UUID_DASHED_toDashedUuid. }
    destruct (UUID_DASHED (trim input)) eqn:Hdashed.
    { intros [= <-]. cbn [id]. now rewrite UUID_DASHED_toLowerCase. }
    destruct (_ || _); [|discriminate].
    destruct (new_URL (trim input)) as [url|]; [|discriminate].
    destruct (negb _); [discriminate|].
    destruct (extractIdFromPath (pathname url)) as [hex|] eqn:Hex; [|discriminate].
    destruct (truthy hex); [|discriminate].
    intros [= <-]. apply UUID_DASHED_toDashedUuid.
    now apply (extractIdFromPath_hex (pathname url)). }
  split; [exact Hd | now apply parseNotionReference_dashed_any_case].
Qed.

Lemma parseNotionReference_gives_dashed_uuid_witness :
  let input := lit "ABCDEF0123456789ABCDEF0123456789" in
  let r := {| id := lit "ABCDEF01-2345-6789-ABCD-EF0123456789" |} in
  parseNotionReference (rt := Sample.builtins) input = inl r
  /\ UUID_DASHED (id r) = true
  /\ parseNotionReference (rt := Sample.builtins) (id r)
     = inl {| id := lit "abcdef01-2345-6789-abcd-ef0123456789" |}.
Proof.
  intros input r.
  assert (Hp : parseNotionReference (rt := Sample.builtins) input = inl r)
    by (vm_compute; reflexivity).
  split; [exact Hp|].
  exact (parseNotionReference_gives_dashed_uuid (rt := Sample.builtins) input r Hp).
Defined.

(** X6: removing the dashes of a dashed UUID gives 32 hexadecimal digits
    whose dashed form is the text one started from. *)
Theorem dashes_round_trip (s : jsstring) :
  UUID_DASHED s = true ->
  UUID_BARE (strip_dashes s) = true /\ toDashedUuid (strip_dashes s) = s.
Proof. apply toDashedUuid_strip_dashes. Qed.

Lemma dashes_round_trip_witness :
  let s := lit "abc123de-f456-abc1-23de-f456abc123de" in
  UUID_DASHED s = true
  /\ UUID_BARE (strip_dashes s) = true /\ toDashedUuid (strip_dashes s) = s.
Proof.
  intros s.
  assert (Hs : UUID_DASHED s = true) by (vm_compute; reflexivity).
  split; [exact Hs | exact (dashes_round_trip s Hs)].
Defined.

(** ** URLs *)

Lemma http_not_uuid (t : jsstring) :
  startsWith (lit "http://") t || startsWith (lit "https://") t = true ->
  UUID_BARE t = false /\ UUID_DASHED t = false.
Proof.
  destruct t as [|c t]; [discriminate|].
  change (lit "http://") with (104 :: lit "ttp://").
  change (lit "https://") with (104 :: lit "ttps://").
  cbn [startsWith]. destruct (N.eqb_spec 104 c) as [<-|]; [|discriminate].
  intros _. split; reflexivity.
Qed.

Lemma last_map_snoc {A} (l : list A) (x : A) :
  List.last (List.map Some (l ++ [x])) None = Some x.
Proof. rewrite List.map_app. cbn [List.map]. apply last_snoc. Qed.

Lemma suffix_app (slug h : jsstring) (n : nat) :
  length h = n -> suffix n (slug ++ h) = Some h.
Proof.
  intros <-. unfold suffix. rewrite length_app.
  destruct (Nat.leb_spec (length h) (length slug + length h)); [|lia].
  replace (length slug + length h - length h)%nat with (length slug + 0)%nat by lia.
  now rewrite drop_app_add.
Qed.

Lemma hex_without (c : N) (n : nat) (h : jsstring) :
  is_hex c = false -> hex_digits n h -> without c h.
Proof.
  intros Hc [_ Hall]. eapply Forall_impl; [exact Hall|].
  intros d Hd ->. congruence.
Qed.

(** The id ending the last segment of a path is found behind any title
    slug. *)
Lemma extractIdFromPath_slug (dir slug hex : jsstring) :
  without (ch "?") (dir ++ lit "/" ++ slug) ->
  without (ch "#") (dir ++ lit "/" ++ slug) ->
  without (ch "/") slug ->
  UUID_BARE hex = true ->
  extractIdFromPath (dir ++ lit "/" ++ slug ++ hex) = Some hex.
Proof.
  intros Hq Hh Hs Hbare.
  pose proof (proj1 (UUID_BARE_hex_digits hex) Hbare) as Hhex.
  assert (Hq' : without (ch "?") (dir ++ lit "/" ++ slug ++ hex)).
  { replace (dir ++ lit "/" ++ slug ++ hex) with ((dir ++ lit "/" ++ slug) ++ hex)
      by now rewrite <- !app_assoc.
    apply Forall_app; split; [exact Hq|]. now apply (hex_without _ 32). }
  assert (Hh' : without (ch "#") (dir ++ lit "/" ++ slug ++ hex)).
  { replace (dir ++ lit "/" ++ slug ++ hex) with ((dir ++ lit "/" ++ slug) ++ hex)
      by now rewrite <- !app_assoc.
    apply Forall_app; split; [exact Hh|]. now apply (hex_without _ 32). }
  unfold extractIdFromPath, before. cbv zeta.
  rewrite (split_without _ _ Hq'). cbn [List.hd].
  rewrite (split_without _ _ Hh'). cbn [List.hd].
  change (dir ++ lit "/" ++ slug ++ hex) with (dir ++ ch "/" :: (slug ++ hex)).
  rewrite split_app.
  rewrite (split_without (ch "/") (slug ++ hex)).
  2:{ apply Forall_app; split; [exact Hs|]. now apply (hex_without _ 32). }
  rewrite List.filter_app. cbn [List.filter].
  assert (Hne : truthy (slug ++ hex) = true).
  { apply truthy_nonempty. destruct Hhex as [Hlen _].
    intros Heq. apply (f_equal (@length N)) in Heq.
    rewrite length_app, Hlen in Heq. cbn in Heq. lia. }
  rewrite Hne, last_map_snoc.
  rewrite (suffix_app slug hex 32) by apply Hhex.
  now rewrite Hbare.
Qed.

(** X7: for an http(s) input that the platform parses as a URL whose host
    name contains "notion" and whose path ends, in its last segment and
    behind any title slug, with 32 hexadecimal digits, the reference is
    the dashed form of these digits. *)
Theorem parseNotionReference_url {rt : Builtins}
        (input : jsstring) (url : Url) (dir slug hex : jsstring) :
  startsWith (lit "http://") (trim input)
  || startsWith (lit "https://") (trim input) = true ->
  new_URL (trim input) = Some url ->
  includes (lit "notion") (hostname url) = true ->
  pathname url = dir ++ lit "/" ++ slug ++ hex ->
  without (ch "?") (dir ++ lit "/" ++ slug) ->
  without (ch "#") (dir ++ lit "/" ++ slug) ->
  without (ch "/") slug ->
  UUID_BARE hex = true ->
  parseNotionReference input = inl {| id := toDashedUuid hex |}.
Proof.
  intros Hhttp Hurl Hhost Hpath Hq Hh Hs Hbare.
  destruct (http_not_uuid _ Hhttp) as [Hnb Hnd].
  unfold parseNotionReference. cbv zeta.
  rewrite Hnb, Hnd, Hhttp, Hurl, Hhost. cbn [negb].
  rewrite Hpath, (extractIdFromPath_slug dir slug hex Hq Hh Hs Hbare).
  rewrite truthy_nonempty; [reflexivity|].
  apply UUID_BARE_inv in Hbare as [Hlen _]. now destruct hex.
Qed.

Lemma parseNotionReference_url_witness :
  let rt := Sample2.runtime_with_url
              {| hostname := lit "www.notion.so";
                 pathname := lit "/team/Road-Map-ABCDEF0123456789abcdef0123456789" |} in
  let input := lit " https://www.notion.so/team/Road-Map-ABCDEF0123456789abcdef0123456789?v=1 " in
  let hex := lit "ABCDEF0123456789abcdef0123456789" in
  (startsWith (lit "http://") (trim input)
   || startsWith (lit "https://") (trim input) = true)
  /\ UUID_BARE hex = true
  /\ parseNotionReference (rt := rt) input
     = inl {| id := lit "ABCDEF01-2345-6789-abcd-ef0123456789" |}.
Proof.
  intros rt input hex.
  assert (H1 : startsWith (lit "http://") (trim input)
               || startsWith (lit "https://") (trim input) = true)
    by (vm_compute; reflexivity).
  assert (H2 : UUID_BARE hex = true) by (vm_compute; reflexivity).
  assert (Hq : without (ch "?") (lit "/team" ++ lit "/" ++ lit "Road-Map-"))
    by (vm_compute; repeat constructor; discriminate).
  assert (Hh : without (ch "#") (lit "/team" ++ lit "/" ++ lit "Road-Map-"))
    by (vm_compute; repeat constructor; discriminate).
  assert (Hs : without (ch "/") (lit "Road-Map-"))
    by (vm_compute; repeat constructor; discriminate).
  split; [exact H1|]. split; [exact H2|].
  exact (parseNotionReference_url (rt := rt) input
           {| hostname := lit "www.notion.so";
              pathname := lit "/team/Road-Map-ABCDEF0123456789abcdef0123456789" |}
           (lit "/team") (lit "Road-Map-") hex
           H1 eq_refl eq_refl eq_refl Hq Hh Hs H2).
Defined.

(** X8: an http(s) input whose host name does not contain "notion" is
    rejected as not being a Notion URL, whatever its path holds. *)
Theorem parseNotionReference_foreign_host {rt : Builtins}
        (input : jsstring) (url : Url) :
  startsWith (lit "http://") (trim input)
  || startsWith (lit "https://") (trim input) = true ->
  new_URL (trim input) = Some url ->
  includes (lit "notion") (hostname url) = false ->
  parseNotionReference input = inr (NotANotionUrl (trim input)).
Proof.
  intros Hhttp Hurl Hhost.
  destruct (http_not_uuid _ Hhttp) as [Hnb Hnd].
  unfold parseNotionReference. cbv zeta.
  now rewrite Hnb, Hnd, Hhttp, Hurl, Hhost.
Qed.

Lemma parseNotionReference_foreign_host_witness :
  let url := {| hostname := lit "example.com";
                pathname := lit "/abcdef0123456789abcdef0123456789" |} in
  let input := lit "https://example.com/abcdef0123456789abcdef0123456789" in
  (startsWith (lit "http://") (trim input)
   || startsWith (lit "https://") (trim input) = true)
  /\ includes (lit "notion") (hostname url) = false
  /\ parseNotionReference (rt := Sample2.runtime_with_url url) input
     = inr (NotANotionUrl input).
Proof.
  intros url input.
  assert (H1 : startsWith (lit "http://") (trim input)
               || startsWith (lit "https://") (trim input) = true)
    by (vm_compute; reflexivity).
  assert (H2 : includes (lit "notion") (hostname url) = false)
    by (vm_compute; reflexivity).
  split; [exact H1|]. split; [exact H2|].
  exact (parseNotionReference_foreign_host
           (rt := Sample2.runtime_with_url url) input url H1 eq_refl H2).
Defined.

(* ===================================================================== *)
(** * Rich text and blocks: further properties *)
(* ===================================================================== *)

Lemma join_nil_cons (p : jsstring) (rest : list jsstring) :
  join [] (p :: rest) = p ++ join [] rest.
Proof. destruct rest; [now rewrite app_nil_r | reflexivity]. Qed.

Lemma join_nil_app (l1 l2 : list jsstring) :
  join [] (l1 ++ l2) = join [] l1 ++ join [] l2.
Proof.
  induction l1 as [|p l1 IH]; [reflexivity|].
  change ((p :: l1) ++ l2) with (p :: (l1 ++ l2)).
  now rewrite !join_nil_cons, IH, app_assoc.
Qed.

(** X9: a sequence of spans renders span by span: the rendering of two
    sequences put end to end is the two renderings put end to end. *)
Theorem renderRichText_app (a b : list RichTextItem) :
  renderRichText (a ++ b) = renderRichText a ++ renderRichText b.
Proof. unfold renderRichText. now rewrite List.map_app, join_nil_app. Qed.

(** ** Tables *)

Lemma renderTable_rows_later (i : nat) (rows : list Block) (lines : list jsstring) :
  renderTable_rows (S i) rows lines
  = lines ++ List.map table_line (List.filter is_table_row rows).
Proof.
  revert i lines. induction rows as [|row rows IH]; intros i lines.
  - cbn. now rewrite app_nil_r.
  - cbn [renderTable_rows List.filter]. unfold is_table_row at 1.
    destruct (decide (type row = lit "table_row")) as [Hrow|Hrow].
    + rewrite (bool_decide_eq_true_2 _ Hrow). cbn [List.map].
      rewrite IH, <- app_assoc. reflexivity.
    + rewrite (bool_decide_eq_false_2 _ Hrow). apply IH.
Qed.

Lemma filter_all_rows (rows : list Block) :
  Forall (fun r => type r = lit "table_row") rows ->
  List.filter is_table_row rows = rows.
Proof.
  induction 1 as [|r rows Hr _ IH]; [reflexivity|].
  cbn [List.filter]. unfold is_table_row at 1.
  now rewrite (bool_decide_eq_true_2 _ Hr), IH.
Qed.

(** X10: a table whose children are all rows renders the first row, under
    it a separator with one [---] per cell of the first row, then the
    other rows in order, one line each. *)
Theorem renderTable_layout (block header : Block) (rest : list Block) :
  children block = header :: rest ->
  Forall (fun r => type r = lit "table_row") (header :: rest) ->
  renderTable block
  = join [LF] (table_line header :: table_separator header
               :: List.map table_line rest).
Proof.
  intros Hc Hrows. unfold renderTable. rewrite Hc.
  apply Forall_cons in Hrows as [Hh Hrest].
  cbn [renderTable_rows]. rewrite decide_True by exact Hh.
  rewrite renderTable_rows_later, (filter_all_rows rest Hrest).
  rewrite List.map_map. reflexivity.
Qed.

Lemma renderTable_layout_witness :
  let header := Sample2.row ["k"; "v"]%string in
  let rest := [Sample2.row ["a|b"; "1"]%string] in
  let block := Sample2.table (header :: rest) in
  children block = header :: rest
  /\ Forall (fun r => type r = lit "table_row") (header :: rest)
  /\ renderTable block
     = lit "| k | v |" ++ [LF] ++ lit "| --- | --- |" ++ [LF] ++ lit "| a\|b | 1 |".
Proof.
  intros header rest block.
  assert (Hrows : Forall (fun r => type r = lit "table_row") (header :: rest))
    by (repeat constructor).
  split; [reflexivity|]. split; [exact Hrows|].
  exact (renderTable_layout block header rest eq_refl Hrows).
Defined.

(** X11: a child of a table that is not a row gives no line, yet it is
    counted: when the first child is not a row, the table has no separator
    line at all. *)
Theorem renderTable_first_child_not_row (block first : Block) (rest : list Block) :
  children block = first :: rest ->
  type first <> lit "table_row" ->
  renderTable block
  = join [LF] (List.map table_line (List.filter is_table_row rest)).
Proof.
  intros Hc Hfirst. unfold renderTable. rewrite Hc.
  cbn [renderTable_rows]. rewrite decide_False by exact Hfirst.
  now rewrite renderTable_rows_later.
Qed.

Lemma renderTable_first_child_not_row_witness :
  let first := Sample.paragraph "p" in
  let rest := [Sample2.row ["k"; "v"]%string; Sample2.row ["a"; "1"]%string] in
  let block := Sample2.table (first :: rest) in
  children block = first :: rest
  /\ type first <> lit "table_row"
  /\ renderTable block = lit "| k | v |" ++ [LF] ++ lit "| a | 1 |".
Proof.
  intros first rest block.
  assert (Hfirst : type first <> lit "table_row") by (vm_compute; discriminate).
  split; [reflexivity|]. split; [exact Hfirst|].
  exact (renderTable_first_child_not_row block first rest eq_refl Hfirst).
Defined.

(** ** Quotes *)

Lemma split_pieces (sep : N) (s : jsstring) : Forall (without sep) (split sep s).
Proof.
  induction s as [|c s IH]; [repeat constructor|]. cbn [split].
  destruct (N.eqb_spec c sep) as [->|Hc].
  - constructor; [constructor | exact IH].
  - destruct (split sep s) as [|p ps]; [repeat constructor; exact Hc|].
    apply Forall_cons in IH as [Hp Hps].
    constructor; [constructor; assumption | exact Hps].
Qed.

(** X12: every line of the text of a quote comes out behind its own
    [> ] marker: the lines of the rendering are the lines of the text,
    each with the marker in front. *)
Theorem renderBlock_quote_lines {rt : Builtins} (block : Block) :
  type block = lit "quote" ->
  split LF (renderBlock block)
  = List.map (fun line => lit "> " ++ line)
             (split LF (renderRichText (rich_text_of (payload block)))).
Proof.
  intros Hty.
  assert (Hr : renderBlock block
               = join [LF] (List.map (fun line => lit "> " ++ line)
                    (split LF (renderRichText (rich_text_of (payload block)))))).
  { unfold renderBlock. rewrite Hty. reflexivity. }
  rewrite Hr. apply split_join.
  - pose proof (split_nonempty LF (renderRichText (rich_text_of (payload block)))).
    destruct (split LF _); [contradiction | discriminate].
  - apply Forall_map. eapply Forall_impl; [apply split_pieces|].
    intros line Hline. apply Forall_app. split; [|exact Hline].
    repeat constructor; discriminate.
Qed.

Lemma renderBlock_quote_lines_witness :
  let text := lit "one" ++ [LF] ++ lit "two" in
  let block := Sample.leaf "quote"
                 (PText [{| body := Text text; plain_text := text;
                            annotations := Sample.plain; href := None |}]) in
  type block = lit "quote"
  /\ split LF (renderBlock (rt := Sample.builtins) block)
     = [lit "> one"; lit "> two"].
Proof.
  intros text block.
  split; [reflexivity|].
  exact (renderBlock_quote_lines (rt := Sample.builtins) block eq_refl).
Defined.

(* ===================================================================== *)
(** * The assembler: indentation *)
(* ===================================================================== *)

Section Indentation.
Import Markdown.

Lemma join_app (sep : jsstring) (l1 l2 : list jsstring) :
  l1 <> [] -> l2 <> [] ->
  join sep (l1 ++ l2) = join sep l1 ++ sep ++ join sep l2.
Proof.
  intros H1 H2. induction l1 as [|p l1 IH]; [congruence|].
  destruct l1 as [|q l1].
  - destruct l2; [congruence | reflexivity].
  - change (join sep ((p :: q :: l1) ++ l2))
      with (p ++ sep ++ join sep ((q :: l1) ++ l2)).
    rewrite IH by discriminate.
    change (join sep (p :: q :: l1)) with (p ++ sep ++ join sep (q :: l1)).
    now rewrite <- !app_assoc.
Qed.

Lemma indentLines_empty_indent (text : jsstring) : indentLines text [] = text.
Proof. reflexivity. Qed.

Lemma indentLines_nil (indent : jsstring) : indentLines [] indent = [].
Proof. unfold indentLines. destruct (truthy indent); reflexivity. Qed.

Lemma indentLines_nil_inv (text indent : jsstring) :
  indentLines text indent = [] -> text = [].
Proof.
  intros H. destruct text as [|c text]; [reflexivity|].
  exfalso. revert H. now apply indentLines_nonempty.
Qed.

(** The lines of an indented text are the lines of the text, each
    non-empty one behind the indentation. *)
Lemma indentLines_split (text indent : jsstring) :
  indent <> [] -> without LF indent ->
  split LF (indentLines text indent)
  = List.map (fun line => if truthy line then indent ++ line else line)
             (split LF text).
Proof.
  intros Hne Hlf. unfold indentLines. rewrite (truthy_nonempty indent Hne).
  cbn [negb]. apply split_join.
  - pose proof (split_nonempty LF text).
    destruct (split LF text); [contradiction | discriminate].
  - apply Forall_map. eapply Forall_impl; [apply split_pieces|].
    intros line Hline. destruct (truthy line); [|exact Hline].
    now apply Forall_app.
Qed.

Lemma indentLines_app (x y indent : jsstring) :
  indentLines (x ++ LF :: y) indent
  = indentLines x indent ++ LF :: indentLines y indent.
Proof.
  unfold indentLines. destruct (truthy indent); [|reflexivity]. cbn [negb].
  rewrite split_app, List.map_app.
  rewrite join_app; [reflexivity| |].
  - pose proof (split_nonempty LF x). destruct (split LF x); [contradiction | discriminate].
  - pose proof (split_nonempty LF y). destruct (split LF y); [contradiction | discriminate].
Qed.

Lemma indentLines_join (lines : list jsstring) (indent : jsstring) :
  join [LF] (List.map (fun l => indentLines l indent) lines)
  = indentLines (join [LF] lines) indent.
Proof.
  induction lines as [|l lines IH]; [now rewrite indentLines_nil|].
  destruct lines as [|l' lines]; [reflexivity|].
  change (join [LF] (l :: l' :: lines)) with (l ++ LF :: join [LF] (l' :: lines)).
  rewrite indentLines_app, <- IH. reflexivity.
Qed.

Lemma indentLines_twice (text a b : jsstring) :
  without LF a ->
  indentLines (indentLines text a) b = indentLines text (b ++ a).
Proof.
  intros Ha. destruct a as [|ca a].
  { now rewrite app_nil_r. }
  destruct b as [|cb b]; [reflexivity|].
  unfold indentLines at 1. cbn [truthy negb app].
  unfold indentLines at 2. cbn [truthy negb].
  rewrite indentLines_split by (assumption || discriminate).
  rewrite List.map_map. f_equal. apply List.map_ext. intros line.
  destruct line as [|c line]; [reflexivity|]. cbn [truthy app].
  now rewrite <- app_assoc.
Qed.

Lemma has_ink_app (a b : jsstring) : has_ink (a ++ b) = has_ink a || has_ink b.
Proof. apply existsb_app. Qed.

Lemma has_ink_blank (ws : jsstring) : blank ws -> has_ink ws = false.
Proof.
  induction 1 as [|c ws Hc _ IH]; [reflexivity|].
  cbn [has_ink existsb]. rewrite Hc. exact IH.
Qed.

Lemma truthy_trimEnd (s : jsstring) : truthy (trimEnd s) = has_ink s.
Proof.
  induction s as [|c s IH]; [reflexivity|].
  cbn [trimEnd has_ink existsb]. fold (has_ink s). rewrite <- IH.
  destruct (trimEnd s); [destruct (is_whitespace c); reflexivity|].
  cbn. now rewrite orb_true_r.
Qed.

Lemma has_ink_trimStart (s : jsstring) : has_ink (trimStart s) = has_ink s.
Proof.
  induction s as [|c s IH]; [reflexivity|].
  cbn [trimStart]. destruct (is_whitespace c) eqn:Hc; [|reflexivity].
  cbn [has_ink existsb]. now rewrite Hc.
Qed.

Lemma truthy_trim (s : jsstring) : truthy (trim s) = has_ink s.
Proof. unfold trim. now rewrite truthy_trimEnd, has_ink_trimStart. Qed.

Lemma has_ink_join (lines : list jsstring) :
  has_ink (join [LF] lines) = existsb has_ink lines.
Proof.
  induction lines as [|l lines IH]; [reflexivity|].
  destruct lines as [|l' lines]; [cbn; now rewrite orb_false_r|].
  change (join [LF] (l :: l' :: lines)) with (l ++ LF :: join [LF] (l' :: lines)).
  rewrite has_ink_app. change (LF :: ?r) with ([LF] ++ r).
  rewrite has_ink_app, IH. reflexivity.
Qed.

Lemma has_ink_indentLines (text indent : jsstring) :
  blank indent -> has_ink (indentLines text indent) = has_ink text.
Proof.
  intros Hb. unfold indentLines. destruct (truthy indent); [|reflexivity].
  cbn [negb]. rewrite has_ink_join.
  rewrite <- (join_split LF text) at 2. rewrite has_ink_join.
  induction (split LF text) as [|l ls IH]; [reflexivity|].
  cbn [List.map existsb]. rewrite IH. f_equal.
  destruct l as [|c l]; [reflexivity|]. cbn [truthy].
  now rewrite has_ink_app, (has_ink_blank indent Hb).
Qed.

Lemma repeat_add (s : jsstring) (n m : nat) :
  repeat s (n + m) = repeat s n ++ repeat s m.
Proof.
  induction n as [|n IH]; [reflexivity|].
  cbn [Nat.add repeat]. now rewrite IH, app_assoc.
Qed.

Lemma indent_of_blank (d : nat) : blank (indent_of d).
Proof.
  induction d as [|d IH]; [constructor|].
  unfold indent_of. cbn [repeat]. apply Forall_app. split; [|exact IH].
  repeat constructor.
Qed.

Lemma indent_of_line (d : nat) : without LF (indent_of d).
Proof.
  induction d as [|d IH]; [constructor|].
  unfold indent_of. cbn [repeat]. apply Forall_app. split; [|exact IH].
  repeat constructor; discriminate.
Qed.

Lemma indent_of_add (k d : nat) : indent_of (k + d) = indent_of d ++ indent_of k.
Proof. unfold indent_of. now rewrite Nat.add_comm, repeat_add. Qed.

Lemma last_map_indent (lines : list jsstring) (indent : jsstring) :
  List.last (List.map (fun l => indentLines l indent) lines) []
  = indentLines (List.last lines []) indent.
Proof.
  induction lines as [|l lines IH]; [now rewrite indentLines_nil|].
  destruct lines as [|l' lines]; [reflexivity|]. exact IH.
Qed.

Section Depth.
Context {rt : Builtins}.
Variable d : nat.


Lemma renderBlocks_step_deeper (k : nat) (prev : option Block) (block : Block)
      (child : nat -> jsstring) (lines : list jsstring) :
  (forall k, child (k + d)%nat = (indented d) (child k)) ->
  renderBlocks_step (k + d) prev block child (List.map (indented d) lines)
  = List.map (indented d) (renderBlocks_step k prev block child lines).
Proof.
  intros Hchild. unfold renderBlocks_step. cbv zeta.
  assert (Hind : forall text,
            indentLines text (repeat (lit "    ") (k + d))
            = (indented d) (indentLines text (repeat (lit "    ") k))).
  { intros text. unfold indented. rewrite indentLines_twice by apply indent_of_line.
    fold (indent_of (k + d)). now rewrite indent_of_add. }
  assert (Hnil : (indented d) [] = []) by apply indentLines_nil.
  destruct (decide (type block = lit "table")).
  { rewrite !List.map_app. cbn [List.map]. now rewrite Hind, Hnil. }
  assert (Hlast : bool_decide (List.last (List.map (indented d) lines) [] = [])
                  = bool_decide (List.last lines [] = [])).
  { unfold indented. rewrite last_map_indent. apply bool_decide_ext. split.
    - apply indentLines_nil_inv.
    - intros ->. apply indentLines_nil. }
  assert (Hlist : truthy_list (List.map (indented d) lines) = truthy_list lines)
    by now destruct lines.
  rewrite Hlast, Hlist.
  set (blank_first := truthy (renderBlock block)
                      && negb (isListItem (type block) && _)
                      && truthy_list lines
                      && negb (bool_decide (List.last lines [] = []))).
  set (nests := isListItem (type block) || _ || _).
  assert (Hd : (if nests then S (k + d) else (k + d)%nat)
               = ((if nests then S k else k) + d)%nat) by now destruct nests.
  rewrite Hd, Hchild.
  assert (Hink : truthy (trim ((indented d) (child (if nests then S k else k))))
                 = truthy (trim (child (if nests then S k else k)))).
  { rewrite !truthy_trim. apply has_ink_indentLines, indent_of_blank. }
  rewrite Hink.
  destruct blank_first, (truthy (renderBlock block)), (children block),
    (truthy (trim (child (if nests then S k else k))));
    rewrite ?List.map_app; cbn [List.map]; rewrite ?Hind, ?Hnil; reflexivity.
Qed.

Lemma renderBlocks_loop_deeper (child : Block -> nat -> jsstring) (k : nat)
      (blocks : list Block) (prev : option Block) (lines : list jsstring) :
  Forall (fun b => forall k, child b (k + d)%nat = (indented d) (child b k)) blocks ->
  renderBlocks_loop child (k + d) prev blocks (List.map (indented d) lines)
  = List.map (indented d) (renderBlocks_loop child k prev blocks lines).
Proof.
  intros Hall. revert prev lines.
  induction Hall as [|block blocks Hb _ IH]; intros prev lines; [reflexivity|].
  cbn [renderBlocks_loop].
  rewrite (renderBlocks_step_deeper k prev block (child block) lines Hb).
  apply IH.
Qed.

Lemma renderChildren_deeper (block : Block) (k : nat) :
  renderChildren block (k + d) = (indented d) (renderChildren block k).
Proof.
  revert k. induction block as [id ty p cs IH] using Block_tree_ind. intros k.
  cbn [renderChildren].
  change (@nil jsstring) with (List.map (indented d) []) at 1.
  rewrite (renderBlocks_loop_deeper renderChildren k cs None [] IH).
  apply indentLines_join.
Qed.

Lemma renderBlocks_deeper (blocks : list Block) (k : nat) :
  renderBlocks blocks (k + d) = (indented d) (renderBlocks blocks k).
Proof.
  unfold renderBlocks.
  change (@nil jsstring) with (List.map (indented d) []) at 1.
  rewrite (renderBlocks_loop_deeper renderChildren k blocks None []).
  - apply indentLines_join.
  - apply Forall_forall. intros b _ k'. apply renderChildren_deeper.
Qed.

End Depth.

(** X13: indenting works line by line: the lines of the indented text
    are the lines of the text, each non-empty one behind the indentation
    and each empty one left empty. *)
Theorem indentLines_lines (text indent : jsstring) :
  indent <> [] -> without LF indent ->
  split LF (indentLines text indent)
  = List.map (fun line => if truthy line then indent ++ line else line)
             (split LF text).
Proof. apply indentLines_split. Qed.

Lemma indentLines_lines_witness :
  let text := lit "a" ++ [LF; LF] ++ lit "b" in
  let indent := lit "    " in
  indent <> [] /\ without LF indent
  /\ split LF (indentLines text indent) = [lit "    a"; []; lit "    b"].
Proof.
  intros text indent.
  assert (H1 : indent <> []) by discriminate.
  assert (H2 : without LF indent) by (repeat constructor; discriminate).
  split; [exact H1|]. split; [exact H2|].
  exact (indentLines_lines text indent H1 H2).
Defined.

(** X14: the nesting depth only indents: a block sequence laid out [d]
    levels (indented d) is the same text with every non-empty line behind four
    more spaces per level. *)
Theorem renderBlocks_depth {rt : Builtins} (blocks : list Block) (k d : nat) :
  renderBlocks blocks (k + d)
  = indentLines (renderBlocks blocks k) (indent_of d).
Proof. exact (renderBlocks_deeper d blocks k). Qed.

Lemma renderChildren_children {rt : Builtins} (block : Block) (depth : nat) :
  renderChildren block depth = renderBlocks (children block) depth.
Proof. destruct block. reflexivity. Qed.

(** X15: a block with output whose children have output is followed by
    them on the next line, with no blank line between: one level (indented d)
    under a list item, a toggle or a callout, at its own level under any
    other kind. *)
Theorem renderBlocks_nested {rt : Builtins} (block : Block) (depth : nat) :
  type block <> lit "table" ->
  renderBlock block <> [] ->
  has_ink (renderBlocks (children block) 0) = true ->
  renderBlocks [block] depth
  = indentLines (renderBlock block) (indent_of depth)
    ++ [LF]
    ++ indentLines (renderBlocks (children block) 0)
         (indent_of (if nests block then S depth else depth)).
Proof.
  intros Hty Hout Hink.
  assert (Hkids : children block <> []).
  { intros Hnil. rewrite Hnil in Hink. discriminate Hink. }
  unfold renderBlocks at 1. cbn [renderBlocks_loop]. unfold renderBlocks_step.
  cbv zeta. rewrite decide_False by exact Hty.
  rewrite (truthy_nonempty _ Hout). cbn [truthy_list andb].
  rewrite andb_false_r. cbn [andb app].
  destruct (children block) as [|c cs] eqn:Hc; [congruence|].
  fold (nests block). fold (indent_of depth).
  rewrite renderChildren_children, Hc.
  set (depth' := if nests block then S depth else depth).
  rewrite (renderBlocks_deeper depth' (c :: cs) 0). unfold indented.
  rewrite truthy_trim, has_ink_indentLines by apply indent_of_blank.
  rewrite Hink. reflexivity.
Qed.

Lemma renderBlocks_nested_witness :
  let block := Sample.bullet_with "a" (Sample.paragraph "c") in
  type block <> lit "table"
  /\ renderBlock (rt := Sample.builtins) block <> []
  /\ has_ink (renderBlocks (rt := Sample.builtins) (children block) 0) = true
  /\ renderBlocks (rt := Sample.builtins) [block] 1
     = lit "    - a" ++ [LF] ++ lit "        c".
Proof.
  intros block.
  assert (H1 : type block <> lit "table") by (vm_compute; discriminate).
  assert (H2 : renderBlock (rt := Sample.builtins) block <> [])
    by (vm_compute; discriminate).
  assert (H3 : has_ink (renderBlocks (rt := Sample.builtins) (children block) 0) = true)
    by (vm_compute; reflexivity).
  split; [exact H1|]. split; [exact H2|]. split; [exact H3|].
  exact (renderBlocks_nested (rt := Sample.builtins) block 1%nat H1 H2 H3).
Defined.

End Indentation.

(* ===================================================================== *)
(** * Escaping *)
(* ===================================================================== *)

Lemma replace_char_cons (c : N) (r : jsstring) (d : N) (s : jsstring) :
  replace_char c r (d :: s) = (if d =? c then r else [d]) ++ replace_char c r s.
Proof. reflexivity. Qed.

Lemma replace_char_app (c : N) (r a b : jsstring) :
  replace_char c r (a ++ b) = replace_char c r a ++ replace_char c r b.
Proof. apply flat_map_app. Qed.

Lemma escapeYaml_cons (c : N) (s : jsstring) :
  Markdown.escapeYaml (c :: s)
  = (if c =? BACKSLASH then [BACKSLASH; BACKSLASH]
     else if c =? DQUOTE then [BACKSLASH; DQUOTE] else [c])
    ++ Markdown.escapeYaml s.
Proof.
  unfold Markdown.escapeYaml. rewrite (replace_char_cons BACKSLASH).
  rewrite replace_char_app. f_equal.
  destruct (N.eqb_spec c BACKSLASH) as [->|Hb]; [reflexivity|].
  destruct (N.eqb_spec c DQUOTE) as [->|Hq]; [reflexivity|].
  cbn. apply N.eqb_neq in Hq. now rewrite Hq.
Qed.

(** X16: the escaping of the front-matter title loses nothing: two
    different titles have different escaped forms. *)
Theorem escapeYaml_injective (a b : jsstring) :
  a <> b -> Markdown.escapeYaml a <> Markdown.escapeYaml b.
Proof.
  intros Hab Heq. apply Hab. clear Hab. revert b Heq.
  induction a as [|c a IH]; intros [|c' b].
  - reflexivity.
  - rewrite escapeYaml_cons.
    destruct (c' =? BACKSLASH); [discriminate|]. destruct (c' =? DQUOTE); discriminate.
  - rewrite escapeYaml_cons.
    destruct (c =? BACKSLASH); [discriminate|]. destruct (c =? DQUOTE); discriminate.
  - rewrite !escapeYaml_cons.
    destruct (N.eqb_spec c BACKSLASH) as [->|Hb], (N.eqb_spec c' BACKSLASH) as [->|Hb'];
      [| |destruct (N.eqb_spec c DQUOTE) as [->|Hq]
       |destruct (N.eqb_spec c DQUOTE) as [->|Hq]];
      try destruct (N.eqb_spec c' DQUOTE) as [->|Hq'];
      cbn [app]; intros Heq; injection Heq as ?; subst;
      try congruence; try (f_equal; apply IH; congruence).
Qed.

Lemma escapeYaml_injective_witness :
  let a := [DQUOTE] in
  let b := [BACKSLASH; DQUOTE] in
  a <> b /\ Markdown.escapeYaml a <> Markdown.escapeYaml b.
Proof.
  intros a b.
  assert (Hab : a <> b) by discriminate.
  split; [exact Hab | exact (escapeYaml_injective a b Hab)].
Defined.

Lemma doubling_injective (a b : jsstring) :
  replace_char DQUOTE [DQUOTE; DQUOTE] a = replace_char DQUOTE [DQUOTE; DQUOTE] b ->
  a = b.
Proof.
  revert b. induction a as [|c a IH]; intros [|c' b].
  - reflexivity.
  - rewrite replace_char_cons. destruct (c' =? DQUOTE); discriminate.
  - rewrite replace_char_cons. destruct (c =? DQUOTE); discriminate.
  - rewrite !replace_char_cons.
    destruct (N.eqb_spec c DQUOTE) as [->|Hq], (N.eqb_spec c' DQUOTE) as [->|Hq'];
      cbn [app]; intros Heq; injection Heq as ?; subst;
      try congruence; try (f_equal; apply IH; congruence).
Qed.

Lemma includes_char_head (c : N) (s : jsstring) : includes_char c (c :: s) = true.
Proof. cbn. now rewrite N.eqb_refl. Qed.

(** X17: the escaping of a CSV field loses nothing: two different values
    have different escaped forms. *)
Theorem escapeField_injective (a b : jsstring) :
  a <> b -> Csv.escapeField a <> Csv.escapeField b.
Proof.
  intros Hab Heq. apply Hab. clear Hab. revert Heq.
  unfold Csv.escapeField.
  destruct (includes_char (ch ",") a || includes_char LF a
            || includes_char CR a || includes_char DQUOTE a) eqn:Ha;
    destruct (includes_char (ch ",") b || includes_char LF b
              || includes_char CR b || includes_char DQUOTE b) eqn:Hb.
  - intros Heq. apply app_inv_head in Heq. apply app_inv_tail in Heq.
    now apply doubling_injective.
  - intros <-. cbn [app] in Hb. rewrite includes_char_head in Hb.
    now rewrite !orb_true_r in Hb.
  - intros ->. cbn [app] in Ha. rewrite includes_char_head in Ha.
    now rewrite !orb_true_r in Ha.
  - auto.
Qed.

Lemma escapeField_injective_witness :
  let a := lit "x,y" in
  let b := [DQUOTE] ++ lit "x,y" ++ [DQUOTE] in
  a <> b /\ Csv.escapeField a <> Csv.escapeField b.
Proof.
  intros a b.
  assert (Hab : a <> b) by discriminate.
  split; [exact Hab | exact (escapeField_injective a b Hab)].
Defined.

(* ===================================================================== *)
(** * The table exporter: column order *)
(* ===================================================================== *)

Lemma filter_Permutation' {A} (f : A -> bool) (l1 l2 : list A) :
  Permutation l1 l2 -> Permutation (List.filter f l1) (List.filter f l2).
Proof.
  induction 1 as [|x l1 l2 _ IH|x y l|l1 l2 l3 _ IH1 _ IH2]; cbn [List.filter].
  - constructor.
  - destruct (f x); [now constructor | exact IH].
  - destruct (f x), (f y); try reflexivity. apply perm_swap.
  - now transitivity (List.filter f l2).
Qed.

Lemma sorted_unique {A} (R : A -> A -> Prop) (l1 l2 : list A) :
  (forall a b, In a l1 -> In b l1 -> R a b -> R b a -> a = b) ->
  StronglySorted R l1 -> StronglySorted R l2 -> Permutation l1 l2 -> l1 = l2.
Proof.
  intros Hanti H1. revert l2 Hanti.
  induction H1 as [|a l1 H1 IH Ha]; intros l2 Hanti H2 Hperm.
  - now apply Permutation_nil in Hperm.
  - destruct H2 as [|b l2 H2 Hb].
    { apply Permutation_sym, Permutation_nil in Hperm. discriminate. }
    assert (Hin_a : In a (b :: l2))
      by (apply (Permutation_in a Hperm); now left).
    assert (Hin_b : In b (a :: l1))
      by (apply (Permutation_in b (Permutation_sym Hperm)); now left).
    assert (Hab : a = b).
    { destruct Hin_a as [<-|Hin_a]; [reflexivity|].
      destruct Hin_b as [<-|Hin_b']; [reflexivity|].
      apply Hanti; [now left | now right | |].
      - apply (proj1 (List.Forall_forall _ _) Ha b Hin_b').
      - apply (proj1 (List.Forall_forall _ _) Hb a Hin_a). }
    subst b. f_equal. apply IH; [|exact H2|].
    + intros x y Hx Hy. apply Hanti; now right.
    + now apply Permutation_cons_inv in Hperm.
Qed.

Section ColumnOrder.
Context {rt : Builtins}.

Lemma sort_unique (l1 l2 : list jsstring) :
  comparator_ranks -> told_apart l1 -> Permutation l1 l2 ->
  Csv.sort l1 = Csv.sort l2.
Proof.
  intros (Htot & Htrans) Hanti Hperm.
  destruct (sort_sorted_perm l1 Htot) as [Hs1 Hp1].
  destruct (sort_sorted_perm l2 Htot) as [Hs2 Hp2].
  apply (sorted_unique locale_le).
  - intros a b Ha Hb. apply Hanti.
    + apply (Permutation_in a Hp1 Ha).
    + apply (Permutation_in b Hp1 Hb).
  - apply Sorted_StronglySorted; [exact Htrans | exact Hs1].
  - apply Sorted_StronglySorted; [exact Htrans | exact Hs2].
  - now rewrite Hp1, Hp2.
Qed.

(** X18: the columns do not depend on the order in which the schema
    lists its properties: under a comparator that ranks the names and
    tells the names of the schema apart, two schemas with the same
    properties and at most one title-typed one give the same columns. *)
Theorem sortColumns_iteration_order (schema1 schema2 : PropertySchema) :
  comparator_ranks ->
  told_apart (Spec.other_names schema1) ->
  Permutation schema1 schema2 ->
  (length (Spec.title_names schema1) <= 1)%nat ->
  sortColumns schema1 = sortColumns schema2.
Proof.
  intros Hord Hapart Hperm Hone. unfold sortColumns. rewrite !scan_columns_spec.
  assert (Ht : Spec.title_names schema1 = Spec.title_names schema2).
  { assert (Hp : Permutation (Spec.title_names schema1) (Spec.title_names schema2))
      by (apply Permutation_map, filter_Permutation', Hperm).
    destruct (Spec.title_names schema1) as [|t [|t' ts]].
    - now apply Permutation_nil in Hp.
    - now apply Permutation_length_1_inv in Hp.
    - cbn in Hone. lia. }
  assert (Ho : Csv.sort ([] ++ Spec.other_names schema1)
               = Csv.sort ([] ++ Spec.other_names schema2)).
  { apply sort_unique; [exact Hord | exact Hapart|].
    apply Permutation_map, filter_Permutation', Hperm. }
  now rewrite Ht, Ho.
Qed.

End ColumnOrder.

Lemma compare_units_ranks : comparator_ranks (rt := Sample.builtins).
Proof.
  split; [exact compare_units_total|]. unfold locale_le.
  cbn [localeCompare Sample.builtins].
  intros a. induction a as [|x a IH]; intros [|y b] [|z c];
    cbn [Sample.compare_units]; try lia.
  destruct (N.ltb_spec x y), (N.ltb_spec y x), (N.ltb_spec y z),
    (N.ltb_spec z y), (N.ltb_spec x z), (N.ltb_spec z x); try lia.
  apply IH.
Qed.

Lemma compare_units_told_apart (names : list jsstring) :
  told_apart (rt := Sample.builtins) names.
Proof.
  intros a b _ _. unfold locale_le. cbn [localeCompare Sample.builtins].
  revert b. induction a as [|x a IH]; intros [|y b];
    cbn [Sample.compare_units]; try lia; [reflexivity|].
  destruct (N.ltb_spec x y), (N.ltb_spec y x); try lia.
  intros H1 H2. f_equal; [lia | now apply IH].
Qed.

Lemma sortColumns_iteration_order_witness :
  let schema1 := [Sample.meta "rich_text" "Zebra"; Sample.meta "title" "Name";
                  Sample.meta "rich_text" "Apple"] in
  let schema2 := [Sample.meta "title" "Name"; Sample.meta "rich_text" "Apple";
                  Sample.meta "rich_text" "Zebra"] in
  comparator_ranks (rt := Sample.builtins)
  /\ told_apart (rt := Sample.builtins) (Spec.other_names schema1)
  /\ Permutation schema1 schema2
  /\ (length (Spec.title_names schema1) <= 1)%nat
  /\ sortColumns (rt := Sample.builtins) schema1
     = sortColumns (rt := Sample.builtins) schema2.
Proof.
  intros schema1 schema2.
  assert (Ha : told_apart (rt := Sample.builtins) (Spec.other_names schema1))
    by apply compare_units_told_apart.
  assert (Hp : Permutation schema1 schema2).
  { unfold schema1, schema2.
    apply (perm_trans (perm_swap _ _ _)). apply perm_skip, perm_swap. }
  assert (Hone : (length (Spec.title_names schema1) <= 1)%nat)
    by (vm_compute; lia).
  split; [exact compare_units_ranks|]. split; [exact Ha|].
  split; [exact Hp|]. split; [exact Hone|].
  exact (sortColumns_iteration_order (rt := Sample.builtins) schema1 schema2
           compare_units_ranks Ha Hp Hone).
Defined.

(* ===================================================================== *)
(** * File names *)
(* ===================================================================== *)

Section FileNames.
Import Writer.

Lemma collapse_whitespace_Forall (P : N -> Prop) (s : jsstring) :
  P 32 -> Forall P s -> Forall P (collapse_whitespace s).
Proof.
  intros Hsp. induction 1 as [|c s Hc Hs IH]; [constructor|].
  cbn [collapse_whitespace]. destruct (is_whitespace c).
  - destruct s as [|d s]; [repeat constructor; exact Hsp|].
    destruct (is_whitespace d); [exact IH | now constructor].
  - now constructor.
Qed.

Lemma drop_dots_Forall (P : N -> Prop) (s : jsstring) :
  Forall P s -> Forall P (drop_dots s).
Proof.
  induction 1 as [|c s Hc Hs IH]; [constructor|].
  cbn [drop_dots]. destruct (c =? ch "."); [exact IH | now constructor].
Qed.

Lemma replace_leading_dots_Forall (P : N -> Prop) (s : jsstring) :
  P (ch "_") -> Forall P s -> Forall P (replace_leading_dots s).
Proof.
  intros Hu Hs. destruct Hs as [|c s Hc Hs]; [constructor|].
  cbn [replace_leading_dots]. destruct (c =? ch ".").
  - constructor; [exact Hu | now apply drop_dots_Forall].
  - now constructor.
Qed.

Lemma trimStart_Forall (P : N -> Prop) (s : jsstring) :
  Forall P s -> Forall P (trimStart s).
Proof.
  induction 1 as [|c s Hc Hs IH]; [constructor|].
  cbn [trimStart]. destruct (is_whitespace c); [exact IH | now constructor].
Qed.

Lemma trimEnd_Forall (P : N -> Prop) (s : jsstring) :
  Forall P s -> Forall P (trimEnd s).
Proof.
  intros Hs. destruct (trimEnd_prefix s) as [ws Hws].
  rewrite Hws in Hs. now apply Forall_app in Hs as [Hs _].
Qed.

Lemma trim_Forall (P : N -> Prop) (s : jsstring) :
  Forall P s -> Forall P (trim s).
Proof. intros Hs. now apply trimEnd_Forall, trimStart_Forall. Qed.

(** X19: a sanitized name is usable as a file name: it is never empty,
    it has at most 200 code units, and it has none of the characters the
    first replacement removes (control characters and the nine reserved
    punctuation marks). *)
Theorem sanitizeFilename_safe (name : jsstring) :
  sanitizeFilename name <> []
  /\ (length (sanitizeFilename name) <= 200)%nat
  /\ Forall (fun c => is_unsafe c = false) (sanitizeFilename name).
Proof.
  unfold sanitizeFilename. cbv zeta.
  set (s := slice 0 200 (trim (replace_leading_dots (collapse_whitespace
              (List.map (fun c => if is_unsafe c then ch "_" else c) name))))).
  assert (Hlen : (length s <= 200)%nat).
  { unfold s, slice. rewrite length_take. lia. }
  assert (Hsafe : Forall (fun c => is_unsafe c = false) s).
  { unfold s, slice. apply Forall_take. cbn [skipn drop].
    apply trim_Forall, replace_leading_dots_Forall; [reflexivity|].
    apply collapse_whitespace_Forall; [reflexivity|].
    apply Forall_map, Forall_forall. intros c _.
    destruct (is_unsafe c) eqn:Hc; [reflexivity | exact Hc]. }
  destruct s as [|c s']; cbn [truthy].
  - split; [discriminate|]. split; [vm_compute; lia|].
    repeat constructor.
  - split; [discriminate|]. now split.
Qed.

Lemma replace_leading_dots_head (c : N) (s : jsstring) :
  is_whitespace c = false ->
  exists h t, replace_leading_dots (c :: s) = h :: t
              /\ is_whitespace h = false /\ h <> ch ".".
Proof.
  intros Hc. cbn [replace_leading_dots].
  destruct (N.eqb_spec c (ch ".")) as [Heq|Hne].
  - exists (ch "_"), (drop_dots s). repeat split. discriminate.
  - exists c, s. now repeat split.
Qed.

Lemma trim_head (h : N) (t : jsstring) :
  is_whitespace h = false -> exists t', trim (h :: t) = h :: t'.
Proof.
  intros Hh. unfold trim. cbn [trimStart]. rewrite Hh. cbn [trimEnd].
  rewrite Hh. destruct (trimEnd t); eauto.
Qed.

(** X20: a name that does not begin with white space never comes out
    with a leading dot. *)
Theorem sanitizeFilename_no_leading_dot (c : N) (name : jsstring) :
  is_whitespace c = false ->
  ~ exists rest, sanitizeFilename (c :: name) = ch "." :: rest.
Proof.
  intros Hc [rest Hrest]. revert Hrest.
  unfold sanitizeFilename. cbv zeta. cbn [List.map].
  set (c' := if is_unsafe c then ch "_" else c).
  assert (Hc' : is_whitespace c' = false)
    by (unfold c'; destruct (is_unsafe c); [reflexivity | exact Hc]).
  cbn [collapse_whitespace]. rewrite Hc'.
  set (tail := collapse_whitespace _).
  destruct (replace_leading_dots_head c' tail Hc') as (h & t & -> & Hh & Hdot).
  destruct (trim_head h t Hh) as [t' ->].
  unfold slice. cbn [skipn drop firstn take Nat.sub truthy].
  intros [= Heq _]. contradiction.
Qed.

Lemma sanitizeFilename_no_leading_dot_witness :
  let c := ch "." in
  let name := lit ".hidden" in
  is_whitespace c = false
  /\ (~ exists rest, sanitizeFilename (c :: name) = ch "." :: rest)
  /\ sanitizeFilename (c :: name) = lit "_hidden".
Proof.
  intros c name.
  assert (Hc : is_whitespace c = false) by reflexivity.
  split; [exact Hc|].
  split; [exact (sanitizeFilename_no_leading_dot c name Hc) | vm_compute; reflexivity].
Defined.

(** The condition on the first character is needed: behind a leading blank
    the dots stay, and the trim that follows brings them to the front. *)
Example sanitizeFilename_dots_behind_blank :
  sanitizeFilename (lit " ..") = lit "..".
Proof. reflexivity. Qed.

End FileNames.

(* ===================================================================== *)
(** * The orchestrator: failures *)
(* ===================================================================== *)

Section Failures.
Context {rt : Builtins}.
Variable client : Gateway.

Lemma careful_ret : (passes_no_failure client) ret.
Proof. intros st. exists []. split; [now rewrite app_nil_r | constructor]. Qed.

Lemma failed_behind (events1 events2 before after : list Event) (x : Event) :
  Forall (fun e => ~ failed client e) events1 ->
  events1 ++ events2 = before ++ x :: after -> failed client x ->
  exists before', events2 = before' ++ x :: after.
Proof.
  intros Hok. revert before.
  induction Hok as [|e events1 He _ IH]; intros before Heq Hx.
  - now exists before.
  - destruct before as [|b before]; cbn [app] in Heq; injection Heq as -> Heq.
    + contradiction.
    + now apply (IH before).
Qed.

Lemma careful_seq (a b : M) :
  (passes_no_failure client) a -> (passes_no_failure client) b ->
  (passes_no_failure client) (a >> b).
Proof.
  intros Ha Hb st. unfold seq. specialize (Ha st).
  destruct (a st) as [st1|st1|]; [| exact Ha | exact I].
  destruct Ha as (ev1 & Ht1 & Hok1). specialize (Hb st1).
  destruct (b st1) as [st2|st2|]; [| | exact I].
  - destruct Hb as (ev2 & Ht2 & Hok2). exists (ev1 ++ ev2). split.
    + now rewrite Ht2, Ht1, app_assoc.
    + now apply Forall_app.
  - destruct Hb as (ev2 & Ht2 & Hlast). exists (ev1 ++ ev2). split.
    + now rewrite Ht2, Ht1, app_assoc.
    + intros before x after Heq Hx.
      destruct (failed_behind ev1 ev2 before after x Hok1 Heq Hx) as [before' Heq2].
      now apply (Hlast before' x after).
Qed.

Lemma careful_mark (id : jsstring) : (passes_no_failure client) (mark id).
Proof. intros st. exists []. split; [cbn; now rewrite app_nil_r | constructor]. Qed.

Lemma careful_write (site : WriteSite) (id dir file doc : jsstring) :
  (passes_no_failure client) (writeOutputFile site id dir file doc).
Proof.
  intros st. exists [EvWrite site id dir file doc]. split; [reflexivity|].
  repeat constructor. intros [].
Qed.

Lemma careful_fetch {A} (e : Event) (r : option A) (k : A -> M) :
  (r = None <-> failed client e) -> (forall a, (passes_no_failure client) (k a)) ->
  (passes_no_failure client) (fetch e r k).
Proof.
  intros Hr Hk st. destruct r as [a|].
  - rewrite run_fetch_some. specialize (Hk a (then_ st [e])).
    assert (Hok : ~ failed client e) by (intros He; apply Hr in He; discriminate).
    destruct (k a (then_ st [e])) as [st'|st'|]; [| | exact I].
    + destruct Hk as (ev & Ht & Hev). exists (e :: ev). split.
      * rewrite Ht. cbn [then_ trace]. now rewrite <- app_assoc.
      * now constructor.
    + destruct Hk as (ev & Ht & Hlast). exists (e :: ev). split.
      * rewrite Ht. cbn [then_ trace]. now rewrite <- app_assoc.
      * intros before x after Heq Hx.
        destruct (failed_behind [e] ev before after x) as [before' Heq2];
          [repeat constructor; exact Hok | exact Heq | exact Hx|].
        now apply (Hlast before' x after).
  - rewrite run_fetch_none. exists [e]. split; [reflexivity|].
    intros before x after Heq _.
    destruct before as [|b before]; cbn [app] in Heq; injection Heq as _ Heq.
    + now symmetry.
    + now destruct before.
Qed.

Lemma careful_when (c : bool) (a : M) : (passes_no_failure client) a -> (passes_no_failure client) (when c a).
Proof. destruct c; [auto | intros _; apply careful_ret]. Qed.

Lemma careful_for_each {A} (f : A -> M) (l : list A) :
  Forall (fun x => (passes_no_failure client) (f x)) l -> (passes_no_failure client) (for_each f l).
Proof.
  induction 1 as [|x l Hx _ IH]; [apply careful_ret|].
  now apply careful_seq.
Qed.

Lemma careful_pullChildResources_block (pp pd : Puller) :
  (forall id dir d, (passes_no_failure client) (pp id dir d)) ->
  (forall id dir d, (passes_no_failure client) (pd id dir d)) ->
  forall block dir d, (passes_no_failure client) (pullChildResources_block pp pd dir d block).
Proof.
  intros Hpp Hpd block. induction block as [id ty p cs IH] using Block_tree_ind.
  intros dir d. cbn [pullChildResources_block].
  apply careful_seq.
  - destruct (decide _); [apply Hpp|].
    destruct (decide _); [apply Hpd | apply careful_ret].
  - apply careful_when. apply careful_for_each.
    eapply Forall_impl; [exact IH|]. intros c Hc. apply Hc.
Qed.

Lemma careful_pullChildResources (pp pd : Puller) :
  (forall id dir d, (passes_no_failure client) (pp id dir d)) ->
  (forall id dir d, (passes_no_failure client) (pd id dir d)) ->
  forall blocks dir d, (passes_no_failure client) (pullChildResources pp pd blocks dir d).
Proof.
  intros Hpp Hpd blocks dir d. apply careful_for_each.
  apply Forall_forall. intros block _.
  now apply careful_pullChildResources_block.
Qed.

Lemma careful_pullPage_body (pp pd : Puller) :
  (forall id dir d, (passes_no_failure client) (pp id dir d)) ->
  (forall id dir d, (passes_no_failure client) (pd id dir d)) ->
  forall id dir d, (passes_no_failure client) (pullPage_body client pp pd id dir d).
Proof.
  intros Hpp Hpd id dir d st. unfold pullPage_body.
  destruct (decide (id ∈ visited st)); [apply careful_ret|].
  revert st n. intros st _.
  apply careful_seq; [apply careful_mark|].
  apply careful_fetch; [reflexivity|]. intros page.
  apply careful_fetch; [reflexivity|]. intros blocks.
  apply careful_seq; [apply careful_write|].
  apply careful_when. now apply careful_pullChildResources.
Qed.

Lemma careful_pull_entry (pp pd : Puller) :
  (forall id dir d, (passes_no_failure client) (pp id dir d)) ->
  (forall id dir d, (passes_no_failure client) (pd id dir d)) ->
  forall dir dbDir d entry, (passes_no_failure client) (pull_entry client pp pd dir dbDir d entry).
Proof.
  intros Hpp Hpd dir dbDir d entry. unfold pull_entry.
  apply careful_fetch; [reflexivity|]. intros [|b blocks]; [apply careful_ret|].
  apply careful_seq; [apply careful_write|].
  apply careful_when. now apply careful_pullChildResources.
Qed.

Lemma careful_follow_relation (pd : Puller) :
  (forall id dir d, (passes_no_failure client) (pd id dir d)) ->
  forall dir d rel, (passes_no_failure client) (follow_relation pd dir d rel).
Proof.
  intros Hpd dir d rel st. unfold follow_relation.
  destruct (decide _); [apply careful_ret | apply Hpd].
Qed.

Lemma careful_pullDatabase_body (pp pd : Puller) :
  (forall id dir d, (passes_no_failure client) (pp id dir d)) ->
  (forall id dir d, (passes_no_failure client) (pd id dir d)) ->
  forall id dir d, (passes_no_failure client) (pullDatabase_body client pp pd id dir d).
Proof.
  intros Hpp Hpd id dir d st. unfold pullDatabase_body.
  destruct (decide (id ∈ visited st)); [apply careful_ret|].
  revert st n. intros st _.
  apply careful_seq; [apply careful_mark|].
  apply careful_fetch; [reflexivity|]. intros data.
  apply careful_seq; [apply careful_write|].
  apply careful_seq.
  - apply careful_for_each, Forall_forall. intros entry _.
    now apply careful_pull_entry.
  - apply careful_when, careful_for_each, Forall_forall. intros rel _.
    now apply careful_follow_relation.
Qed.

Lemma pull_careful (fuel : nat) :
  (forall id dir d, (passes_no_failure client) (pullPage client fuel id dir d))
  /\ (forall id dir d, (passes_no_failure client) (pullDatabase client fuel id dir d)).
Proof.
  induction fuel as [|fuel [IHp IHd]].
  - split; intros id dir d st; exact I.
  - split; cbn [pullPage pullDatabase];
      [now apply careful_pullPage_body | now apply careful_pullDatabase_body].
Qed.

End Failures.

(** X21: a pull passes over no failed request.  With fuel beyond the
    depth budget it returns or throws; when it returns, every request it
    made succeeded; when it throws, a request that failed is the last
    thing it did: nothing is requested or written after it. *)
Theorem pull_passes_no_failure {rt : Builtins} (client : Gateway)
        (fuel : nat) (id dir : jsstring) (maxDepth : Z) :
  (Z.to_nat maxDepth < fuel)%nat ->
  (returns (pullPage client fuel id dir maxDepth)
   /\ passes_no_failure client (pullPage client fuel id dir maxDepth))
  /\ (returns (pullDatabase client fuel id dir maxDepth)
      /\ passes_no_failure client (pullDatabase client fuel id dir maxDepth)).
Proof.
  intros Hfuel.
  destruct (pull_careful client fuel) as [Hp Hd].
  destruct (pull_returns client fuel maxDepth Hfuel) as [Rp Rd].
  split; split; [apply Rp | apply Hp | apply Rd | apply Hd].
Qed.

Lemma pull_passes_no_failure_witness :
  let client := Sample.world in
  (Z.to_nat 2%Z < 3)%nat
  /\ ((returns (pullPage (rt := Sample.builtins) client 3%nat (lit "E") (lit "out") 2%Z)
       /\ passes_no_failure client
            (pullPage (rt := Sample.builtins) client 3%nat (lit "E") (lit "out") 2%Z))
      /\ (returns (pullDatabase (rt := Sample.builtins) client 3%nat (lit "E") (lit "out") 2%Z)
          /\ passes_no_failure client
               (pullDatabase (rt := Sample.builtins) client 3%nat (lit "E") (lit "out") 2%Z)))
  /\ pullDatabase (rt := Sample.builtins) client 3%nat (lit "E") (lit "out") 2%Z initial
     = Threw {| visited := {[lit "E"]}; trace := [EvFetchDatabase (lit "E")] |}.
Proof.
  intros client.
  assert (Hfuel : (Z.to_nat 2%Z < 3)%nat) by (cbn; lia).
  split; [exact Hfuel|]. split; [|reflexivity].
  exact (pull_passes_no_failure (rt := Sample.builtins) client 3%nat
           (lit "E") (lit "out") 2%Z Hfuel).
Defined.

(* ===================================================================== *)
(** * The orchestrator: the depth budget *)
(* ===================================================================== *)

Lemma quiet_ret : pulls_nothing ret.
Proof. intros st st' [= <-]. now split. Qed.

Lemma quiet_Threw : pulls_nothing Threw.
Proof. intros st st' [= <-]. now split. Qed.

Lemma quiet_seq (a b : M) : pulls_nothing a -> pulls_nothing b -> pulls_nothing (a >> b).
Proof.
  intros Ha Hb st st' Hf. unfold seq in Hf.
  destruct (a st) as [st1| |] eqn:Hast; [| |discriminate].
  - destruct (Ha st st1) as [Hv1 Hp1]; [now rewrite Hast|].
    destruct (Hb st1 st' Hf) as [Hv2 Hp2].
    split; congruence.
  - apply (Ha st st'). now rewrite Hast.
Qed.

Lemma quiet_emit (e : Event) : Spec.pulled_ids [e] = [] -> pulls_nothing (emit e).
Proof.
  intros He st st' [= <-]. cbn [visited trace]. split; [reflexivity|].
  now rewrite pulled_ids_app, He, app_nil_r.
Qed.

Lemma quiet_fetch {A} (e : Event) (r : option A) (k : A -> M) :
  Spec.pulled_ids [e] = [] -> (forall a, pulls_nothing (k a)) ->
  pulls_nothing (fetch e r k).
Proof.
  intros He Hk. apply quiet_seq; [now apply quiet_emit|].
  destruct r; [apply Hk | apply quiet_Threw].
Qed.

Lemma quiet_for_each {A} (f : A -> M) (l : list A) :
  (forall x, pulls_nothing (f x)) -> pulls_nothing (for_each f l).
Proof.
  intros Hf. induction l as [|x l IH]; [apply quiet_ret|].
  now apply quiet_seq.
Qed.

Lemma quiet_when_spent (d : Z) (a : M) :
  (d <= 0)%Z -> pulls_nothing (when (0 <? d)%Z a).
Proof.
  intros Hd. destruct (Z.ltb_spec 0 d); [lia|]. apply quiet_ret.
Qed.

Section Budget.
Context {rt : Builtins}.
Variable client : Gateway.

Lemma quiet_pull_entry (pp pd : Puller) (dir dbDir : jsstring) (d : Z) (entry : Page) :
  (d <= 0)%Z -> pulls_nothing (pull_entry client pp pd dir dbDir d entry).
Proof.
  intros Hd. unfold pull_entry. apply quiet_fetch; [reflexivity|].
  intros [|b blocks]; [apply quiet_ret|].
  apply quiet_seq; [now apply quiet_emit|]. now apply quiet_when_spent.
Qed.

Lemma pulled_first (id : jsstring) (e : Event) (rest : M) (st st' : State) :
  Spec.pulled_ids [e] = [id] -> pulls_nothing rest ->
  Spec.final ((mark id >> emit e >> rest) st) = Some st' ->
  visited st' = {[id]} ∪ visited st
  /\ Spec.pulled_ids (trace st') = Spec.pulled_ids (trace st) ++ [id].
Proof.
  intros He Hrest Hf. rewrite run_mark, run_emit in Hf.
  destruct (Hrest _ _ Hf) as [Hv Hp]. split; [exact Hv|].
  rewrite Hp. cbn [then_ marked trace]. now rewrite pulled_ids_app, He.
Qed.

Lemma pullPage_body_spent (pp pd : Puller) (id dir : jsstring) (d : Z)
      (st st' : State) :
  (d <= 0)%Z -> id ∉ visited st ->
  Spec.final (pullPage_body client pp pd id dir d st) = Some st' ->
  visited st' = {[id]} ∪ visited st
  /\ Spec.pulled_ids (trace st') = Spec.pulled_ids (trace st) ++ [id].
Proof.
  intros Hd Hfresh. unfold pullPage_body.
  destruct (decide (id ∈ visited st)); [contradiction|].
  unfold fetch at 1. apply pulled_first; [reflexivity|].
  destruct (fetchPage client id) as [page|]; [|apply quiet_Threw].
  apply quiet_fetch; [reflexivity|]. intros blocks.
  apply quiet_seq; [now apply quiet_emit | now apply quiet_when_spent].
Qed.

Lemma pullDatabase_body_spent (pp pd : Puller) (id dir : jsstring) (d : Z)
      (st st' : State) :
  (d <= 0)%Z -> id ∉ visited st ->
  Spec.final (pullDatabase_body client pp pd id dir d st) = Some st' ->
  visited st' = {[id]} ∪ visited st
  /\ Spec.pulled_ids (trace st') = Spec.pulled_ids (trace st) ++ [id].
Proof.
  intros Hd Hfresh. unfold pullDatabase_body.
  destruct (decide (id ∈ visited st)); [contradiction|].
  unfold fetch at 1. apply pulled_first; [reflexivity|].
  destruct (fetchDatabase client id) as [data|]; [|apply quiet_Threw].
  apply quiet_seq; [now apply quiet_emit|].
  apply quiet_seq; [|now apply quiet_when_spent].
  apply quiet_for_each. intros entry. now apply quiet_pull_entry.
Qed.

End Budget.

(** X22: with a depth budget of zero (or less) a pull stays with its own
    resource: called on a reference not yet visited it returns or throws,
    and whichever it does, that reference is the only one it has added to
    the visited set and the only one it has pulled; no child page, child
    database or related database is followed. *)
Theorem pull_depth_zero {rt : Builtins} (client : Gateway) (fuel : nat)
        (id dir : jsstring) (maxDepth : Z) (st : State) :
  (maxDepth <= 0)%Z -> id ∉ visited st ->
  (exists st',
     Spec.final (pullPage client (S fuel) id dir maxDepth st) = Some st'
     /\ visited st' = {[id]} ∪ visited st
     /\ Spec.pulled_ids (trace st') = Spec.pulled_ids (trace st) ++ [id])
  /\ (exists st',
        Spec.final (pullDatabase client (S fuel) id dir maxDepth st) = Some st'
        /\ visited st' = {[id]} ∪ visited st
        /\ Spec.pulled_ids (trace st') = Spec.pulled_ids (trace st) ++ [id]).
Proof.
  intros Hd Hfresh.
  destruct (pull_returns client (S fuel) maxDepth) as [Rp Rd]; [lia|].
  specialize (Rp id dir st). specialize (Rd id dir st). split.
  - assert (Hf : exists st', Spec.final (pullPage client (S fuel) id dir maxDepth st)
                             = Some st').
    { destruct (pullPage client (S fuel) id dir maxDepth st); [eauto | eauto | congruence]. }
    destruct Hf as [st' Hf]. exists st'. split; [exact Hf|].
    cbn [pullPage] in Hf.
    now apply (pullPage_body_spent client (pullPage client fuel)
                 (pullDatabase client fuel) id dir maxDepth st st').
  - assert (Hf : exists st', Spec.final (pullDatabase client (S fuel) id dir maxDepth st)
                             = Some st').
    { destruct (pullDatabase client (S fuel) id dir maxDepth st);
        [eauto | eauto | congruence]. }
    destruct Hf as [st' Hf]. exists st'. split; [exact Hf|].
    cbn [pullDatabase] in Hf.
    now apply (pullDatabase_body_spent client (pullPage client fuel)
                 (pullDatabase client fuel) id dir maxDepth st st').
Qed.

Lemma pull_depth_zero_witness :
  let client := Sample.world in
  (0 <= 0)%Z /\ (lit "E" ∉ visited initial)
  /\ (exists st',
        Spec.final (pullPage (rt := Sample.builtins) client 1%nat (lit "E") (lit "out") 0%Z initial)
        = Some st'
        /\ visited st' = {[lit "E"]} ∪ visited initial
        /\ Spec.pulled_ids (trace st') = Spec.pulled_ids (trace initial) ++ [lit "E"]).
Proof.
  intros client.
  assert (Hd : (0 <= 0)%Z) by lia.
  assert (Hfresh : lit "E" ∉ visited initial) by apply not_elem_of_empty.
  split; [exact Hd|]. split; [exact Hfresh|].
  exact (proj1 (pull_depth_zero (rt := Sample.builtins) client 0%nat
                  (lit "E") (lit "out") 0%Z initial Hd Hfresh)).
Defined.

(* ===================================================================== *)
(** * The paginated requests *)
(* ===================================================================== *)

Section Listings.
Import Paging Pages Databases.

Lemma attach_mono (f g : jsstring -> Fetched (list Block)) :
  (forall id out, f id = Got out -> g id = Got out) ->
  forall listed blocks out,
    attach f listed blocks = Got out -> attach g listed blocks = Got out.
Proof.
  intros Hfg listed. induction listed as [|b listed IH]; intros blocks out.
  - auto.
  - destruct b as [id|id ty p hc]; cbn [attach]; [apply IH|].
    destruct (shouldRecurse ty hc); [|apply IH].
    destruct (f id) as [kids| |] eqn:Hf; [|discriminate|discriminate].
    rewrite (Hfg id kids Hf). apply IH.
Qed.

Section WithClient.
Variable api : jsstring -> option jsstring -> option (Listed ListedBlock).

Lemma fetch_from_S (n : nat) (id : jsstring) (cursor : option jsstring)
      (blocks : list Block) :
  fetch_from api (S n) id cursor blocks
  = match api id cursor with
    | None => Failed
    | Some response =>
        match attach (fun id => fetch_from api n id None []) (results response) blocks with
        | Got blocks =>
            if truthy_opt (next response)
            then fetch_from api n id (next response) blocks
            else Got blocks
        | Failed => Failed
        | Starved => Starved
        end
    end.
Proof. reflexivity. Qed.

Lemma fetch_from_mono (n : nat) :
  forall id cursor blocks out,
    fetch_from api n id cursor blocks = Got out ->
    fetch_from api (S n) id cursor blocks = Got out.
Proof.
  induction n as [|n IH]; intros id cursor blocks out; [discriminate|].
  intros Hn. rewrite fetch_from_S in Hn. rewrite (fetch_from_S (S n)).
  destruct (api id cursor) as [response|]; [|discriminate].
  destruct (attach (fun id => fetch_from api n id None []) (results response) blocks)
    as [blocks'| |] eqn:Ha; [|discriminate|discriminate].
  rewrite (attach_mono (fun id => fetch_from api n id None [])
             (fun id => fetch_from api (S n) id None [])
             (fun id out H => IH id None [] out H) _ _ _ Ha).
  destruct (truthy_opt (next response)); [now apply IH | exact Hn].
Qed.

Lemma fetch_from_le (n m : nat) (id : jsstring) (cursor : option jsstring)
      (blocks out : list Block) :
  (n <= m)%nat ->
  fetch_from api n id cursor blocks = Got out ->
  fetch_from api m id cursor blocks = Got out.
Proof.
  induction 1 as [|m _ IH]; [auto|]. intros Hn. now apply fetch_from_mono, IH.
Qed.

Lemma attach_listed (f : jsstring -> Fetched (list Block))
      (kids : jsstring -> list Block) (listed : list ListedBlock) :
  (forall b id, In b listed -> recurses b = Some id -> f id = Got (kids id)) ->
  forall blocks,
    attach f listed blocks = Got (blocks ++ flat_map (block_of kids) listed).
Proof.
  induction listed as [|b listed IH]; intros Hkids blocks.
  - cbn. now rewrite app_nil_r.
  - assert (Hrest : forall b' id, In b' listed -> recurses b' = Some id ->
                                  f id = Got (kids id))
      by (intros b' id Hin; apply Hkids; now right).
    destruct b as [id|id ty p hc]; cbn [attach flat_map block_of app].
    + now apply IH.
    + assert (Hhere : recurses (FullBlock id ty p hc) = Some id ->
                      f id = Got (kids id))
        by (apply Hkids; now left).
      cbn [recurses] in Hhere.
      destruct (shouldRecurse ty hc).
      * rewrite Hhere by reflexivity. rewrite (IH Hrest).
        now rewrite <- app_assoc.
      * rewrite (IH Hrest). now rewrite <- app_assoc.
Qed.

Lemma fetch_from_listing (id : jsstring) (kids : jsstring -> list Block) (m : nat)
      (cursor : option jsstring) (n : nat) (all : list ListedBlock) :
  listing (api id) cursor n all ->
  (forall b c, In b all -> recurses b = Some c ->
               fetchBlockChildren api m c = Got (kids c)) ->
  forall fuel blocks,
    (n + m <= fuel)%nat ->
    fetch_from api fuel id cursor blocks
    = Got (blocks ++ flat_map (block_of kids) all).
Proof.
  induction 1 as [cursor response Hreq Hlast
                 |cursor response n rest Hreq Hmore _ IH];
    intros Hkids fuel blocks Hfuel;
    (destruct fuel as [|fuel]; [lia|]); rewrite fetch_from_S, Hreq.
  - rewrite (attach_listed _ kids).
    + now rewrite Hlast.
    + intros b c Hin Hrec.
      apply (fetch_from_le m fuel); [lia | now apply (Hkids b c)].
  - rewrite (attach_listed _ kids).
    + rewrite Hmore, IH; [now rewrite flat_map_app, app_assoc| |lia].
      intros b c Hin. apply Hkids, in_or_app. now right.
    + intros b c Hin Hrec.
      apply (fetch_from_le m fuel); [lia|].
      apply (Hkids b c); [|exact Hrec]. apply in_or_app. now left.
Qed.

Lemma attach_sealed (f : jsstring -> Fetched (list Block)) :
  (forall id out, f id = Got out -> forallb sealed out = true) ->
  forall listed blocks out,
    forallb sealed blocks = true ->
    attach f listed blocks = Got out -> forallb sealed out = true.
Proof.
  intros Hf listed. induction listed as [|b listed IH]; intros blocks out Hb.
  - now intros [= <-].
  - destruct b as [id|id ty p hc]; cbn [attach]; [now apply IH|].
    unfold shouldRecurse.
    destruct (bool_decide (ty = lit "child_page")) eqn:Hp;
      [rewrite andb_false_r|];
      [|destruct (bool_decide (ty = lit "child_database")) eqn:Hd;
        [rewrite andb_false_r|]]; cbn [negb andb].
    + apply IH. rewrite forallb_app, Hb. cbn [forallb sealed andb].
      now rewrite Hp.
    + apply IH. rewrite forallb_app, Hb. cbn [forallb sealed andb].
      now rewrite Hp, Hd.
    + rewrite !andb_true_r. destruct hc.
      * destruct (f id) as [kids| |] eqn:Hkids; [|discriminate|discriminate].
        apply IH. rewrite forallb_app, Hb. cbn [forallb sealed andb].
        rewrite Hp, Hd. cbn [orb]. now rewrite (Hf id kids Hkids).
      * apply IH. rewrite forallb_app, Hb. cbn [forallb sealed andb].
        now rewrite Hp, Hd.
Qed.

Lemma fetch_from_sealed (fuel : nat) :
  forall id cursor blocks out,
    forallb sealed blocks = true ->
    fetch_from api fuel id cursor blocks = Got out -> forallb sealed out = true.
Proof.
  induction fuel as [|fuel IH]; intros id cursor blocks out Hb; [discriminate|].
  rewrite fetch_from_S.
  destruct (api id cursor) as [response|]; [|discriminate].
  destruct (attach (fun id => fetch_from api fuel id None []) (results response) blocks)
    as [blocks'| |] eqn:Ha; [|discriminate|discriminate].
  assert (Hb' : forallb sealed blocks' = true).
  { apply (attach_sealed _ (fun id out H => IH id None [] out eq_refl H) _ _ _ Hb Ha). }
  destruct (truthy_opt (next response)); [now apply IH | now intros [= <-]].
Qed.

End WithClient.

Lemma collect_listed (listed : list QueryResult) (entries : list Page) :
  collect listed entries = entries ++ flat_map page_of listed.
Proof.
  revert entries. induction listed as [|r listed IH]; intros entries.
  - cbn. now rewrite app_nil_r.
  - unfold collect. cbn [fold_left]. fold (collect listed). destruct r as [page|].
    + rewrite IH. cbn [flat_map page_of app]. now rewrite <- app_assoc.
    + rewrite IH. reflexivity.
Qed.

Lemma query_from_listing
      (api : jsstring -> option jsstring -> option (Listed QueryResult))
      (id : jsstring) (cursor : option jsstring) (n : nat)
      (all : list QueryResult) :
  listing (api id) cursor n all ->
  forall fuel entries,
    (n <= fuel)%nat ->
    query_from api fuel id cursor entries = Got (entries ++ flat_map page_of all).
Proof.
  induction 1 as [cursor response Hreq Hlast
                 |cursor response n rest Hreq Hmore _ IH];
    intros fuel entries Hfuel;
    (destruct fuel as [|fuel]; [lia|]); cbn [query_from]; rewrite Hreq; cbv zeta.
  - now rewrite Hlast, collect_listed.
  - rewrite Hmore, IH by lia. now rewrite collect_listed, flat_map_app, app_assoc.
Qed.

End Listings.

(** X23: the blocks fetched for a parent are the full blocks of all the
    pages of its listing, in the order listed, the partial ones left out;
    each block with children, other than a child page or a child
    database, has its own fetched blocks attached, and every other block
    has none.  Any fuel from the number of requests plus the fuel the
    children need gives this result. *)
Theorem fetchBlockChildren_listing
        (api : jsstring -> option jsstring -> option (Paging.Listed Pages.ListedBlock))
        (id : jsstring) (n : nat) (all : list Pages.ListedBlock)
        (kids : jsstring -> list Block) (m : nat) :
  listing (api id) None n all ->
  (forall b c, In b all -> recurses b = Some c ->
               Pages.fetchBlockChildren api m c = Paging.Got (kids c)) ->
  forall fuel, (n + m <= fuel)%nat ->
    Pages.fetchBlockChildren api fuel id
    = Paging.Got (flat_map (block_of kids) all).
Proof.
  intros Hlist Hkids fuel Hfuel. unfold Pages.fetchBlockChildren.
  now rewrite (fetch_from_listing api id kids m None n all Hlist Hkids fuel []).
Qed.

Lemma fetchBlockChildren_listing_witness :
  let api := Sample2.blocks_children_list in
  let all := Paging.results Sample2.first_page ++ Paging.results Sample2.second_page in
  let kids := fun _ : jsstring =>
                [mkBlock (lit "x") (lit "paragraph") (PText [Sample.text_item "in"]) []] in
  listing (api (lit "P")) None 2 all
  /\ (forall b c, In b all -> recurses b = Some c ->
                  Pages.fetchBlockChildren api 1 c = Paging.Got (kids c))
  /\ Pages.fetchBlockChildren api 3 (lit "P")
     = Paging.Got
         [mkBlock (lit "a") (lit "paragraph") (PText [Sample.text_item "one"]) [];
          mkBlock (lit "t") (lit "toggle") (PText [Sample.text_item "more"])
            [mkBlock (lit "x") (lit "paragraph") (PText [Sample.text_item "in"]) []];
          mkBlock (lit "s") (lit "child_page") (PChild (lit "Sub")) []].
Proof.
  intros api all kids.
  assert (Hlist : listing (api (lit "P")) None 2 all).
  { apply (listing_more (api (lit "P")) None Sample2.first_page 1
             (Paging.results Sample2.second_page)); [reflexivity | reflexivity|].
    apply (listing_last (api (lit "P")) (Some (lit "c1")) Sample2.second_page);
      reflexivity. }
  assert (Hkids : forall b c, In b all -> recurses b = Some c ->
                    Pages.fetchBlockChildren api 1 c = Paging.Got (kids c)).
  { intros b c Hin Hrec. unfold all in Hin. cbn in Hin.
    destruct Hin as [<-|[<-|[<-|[<-|[]]]]]; vm_compute in Hrec;
      try discriminate Hrec.
    injection Hrec as <-. vm_compute. reflexivity. }
  split; [exact Hlist|]. split; [exact Hkids|].
  exact (fetchBlockChildren_listing api (lit "P") 2 all kids 1 Hlist Hkids 3%nat
           (le_n 3)).
Defined.

(** X24: the content of a child page or of a child database is never
    fetched into its parent: in the blocks fetched for any parent, no
    block for a child page or a child database, at any depth, has blocks
    attached. *)
Theorem fetchBlockChildren_sealed
        (api : jsstring -> option jsstring -> option (Paging.Listed Pages.ListedBlock))
        (fuel : nat) (id : jsstring) (blocks : list Block) :
  Pages.fetchBlockChildren api fuel id = Paging.Got blocks ->
  forallb sealed blocks = true.
Proof. apply fetch_from_sealed. reflexivity. Qed.

Lemma fetchBlockChildren_sealed_witness :
  let api := Sample2.blocks_children_list in
  let blocks :=
    [mkBlock (lit "a") (lit "paragraph") (PText [Sample.text_item "one"]) [];
     mkBlock (lit "t") (lit "toggle") (PText [Sample.text_item "more"])
       [mkBlock (lit "x") (lit "paragraph") (PText [Sample.text_item "in"]) []];
     mkBlock (lit "s") (lit "child_page") (PChild (lit "Sub")) []] in
  Pages.fetchBlockChildren api 3 (lit "P") = Paging.Got blocks
  /\ forallb sealed blocks = true.
Proof.
  intros api blocks.
  assert (Hrun : Pages.fetchBlockChildren api 3 (lit "P") = Paging.Got blocks)
    by (vm_compute; reflexivity).
  split; [exact Hrun|].
  exact (fetchBlockChildren_sealed api 3%nat (lit "P") blocks Hrun).
Defined.

(** X25: the entries of a data source are the full page objects of all
    the pages of the query, in the order listed; any fuel from the number
    of requests gives this result. *)
Theorem queryAllEntries_listing
        (api : jsstring -> option jsstring
               -> option (Paging.Listed Databases.QueryResult))
        (id : jsstring) (n : nat) (all : list Databases.QueryResult) :
  listing (api id) None n all ->
  forall fuel, (n <= fuel)%nat ->
    Databases.queryAllEntries api fuel id = Paging.Got (flat_map page_of all).
Proof.
  intros Hlist fuel Hfuel. unfold Databases.queryAllEntries.
  now rewrite (query_from_listing api id None n all Hlist fuel []).
Qed.

Lemma queryAllEntries_listing_witness :
  let api := Sample2.dataSources_query in
  let all := [Databases.PageResult Sample.page_E; Databases.OtherResult]
             ++ [Databases.PageResult Sample.page_E] in
  listing (api (lit "Q")) None 2 all
  /\ Databases.queryAllEntries api 2 (lit "Q")
     = Paging.Got [Sample.page_E; Sample.page_E].
Proof.
  intros api all.
  assert (Hlist : listing (api (lit "Q")) None 2 all).
  { apply (listing_more (api (lit "Q")) None
             {| Paging.results := [Databases.PageResult Sample.page_E;
                                   Databases.OtherResult];
                Paging.has_more := true;
                Paging.next_cursor := Some (lit "c1") |} 1
             [Databases.PageResult Sample.page_E]); [reflexivity | reflexivity|].
    apply (listing_last (api (lit "Q")) (Some (lit "c1"))
             {| Paging.results := [Databases.PageResult Sample.page_E];
                Paging.has_more := false;
                Paging.next_cursor := Some (lit "c2") |}); reflexivity. }
  split; [exact Hlist|].
  exact (queryAllEntries_listing api (lit "Q") 2 all Hlist 2%nat (le_n 2)).
Defined.

(* ===================================================================== *)
(** * Page titles *)
(* ===================================================================== *)

Lemma getPageTitle_props_titled (props : list (jsstring * PropertyValue)) :
  getPageTitle_props props
  = match List.filter titled props with
    | (_, PvTitle spans) :: _ => plain_texts spans
    | _ => lit "Untitled"
    end.
Proof.
  induction props as [|[name v] props IH]; [reflexivity|].
  cbn [getPageTitle_props List.filter]. unfold titled at 1. cbn [snd].
  destruct v as [[|t ts]| | | | | | | | | | | | | | | | | | | | |]; try exact IH.
  reflexivity.
Qed.

(** X26: the title of a page does not depend on the order in which the
    page lists its properties, as long as at most one of them is a
    title with spans. *)
Theorem getPageTitle_order (page1 page2 : Page) :
  Permutation (properties page1) (properties page2) ->
  (length (List.filter titled (properties page1)) <= 1)%nat ->
  getPageTitle page1 = getPageTitle page2.
Proof.
  intros Hperm Hone. unfold getPageTitle. rewrite !getPageTitle_props_titled.
  assert (Hp : Permutation (List.filter titled (properties page1))
                           (List.filter titled (properties page2)))
    by now apply filter_Permutation'.
  destruct (List.filter titled (properties page1)) as [|t [|t' ts]].
  - apply Permutation_nil in Hp. now rewrite Hp.
  - apply Permutation_length_1_inv in Hp. now rewrite Hp.
  - cbn in Hone. lia.
Qed.

Lemma getPageTitle_order_witness :
  let rank := (lit "Rank", PvNumber (Some (lit "3"))) in
  let page1 := {| page_id := lit "E"; created_time := []; last_edited_time := [];
                  properties := [rank; Sample.title_prop "Entry"] |} in
  let page2 := {| page_id := lit "E"; created_time := []; last_edited_time := [];
                  properties := [Sample.title_prop "Entry"; rank] |} in
  Permutation (properties page1) (properties page2)
  /\ (length (List.filter titled (properties page1)) <= 1)%nat
  /\ getPageTitle page1 = getPageTitle page2
  /\ getPageTitle page1 = lit "Entry".
Proof.
  intros rank page1 page2.
  assert (Hp : Permutation (properties page1) (properties page2)) by apply perm_swap.
  assert (Hone : (length (List.filter titled (properties page1)) <= 1)%nat)
    by (vm_compute; lia).
  split; [exact Hp|]. split; [exact Hone|].
  split; [exact (getPageTitle_order page1 page2 Hp Hone) | reflexivity].
Defined.

(* ===================================================================== *)
(** * The assembler: the front matter *)
(* ===================================================================== *)

Section FrontMatter.
Import Markdown.

Lemma collapse_from_line (k : nat) (line rest : jsstring) :
  without LF line -> line <> [] ->
  collapse_from k (line ++ rest) = emit_run k ++ line ++ collapse_from 0 rest.
Proof.
  intros Hline Hne. revert k.
  induction Hline as [|c line Hc Hline IH]; intros k; [congruence|].
  cbn [app collapse_from]. apply N.eqb_neq in Hc. rewrite Hc.
  destruct line as [|d line]; [reflexivity|].
  rewrite IH by discriminate. reflexivity.
Qed.

Lemma collapse_from_next_line (line rest : jsstring) :
  without LF line -> line <> [] ->
  collapse_from 0 (LF :: line ++ rest) = LF :: line ++ collapse_from 0 rest.
Proof.
  intros Hline Hne. cbn [collapse_from]. rewrite N.eqb_refl.
  now rewrite collapse_from_line.
Qed.

Lemma collapse_from_starts (k : nat) (s : jsstring) :
  exists t, collapse_from (S (S k)) s = LF :: t.
Proof.
  revert k. induction s as [|c s IH]; intros k; cbn [collapse_from].
  - now exists [LF].
  - destruct (c =? LF); [apply IH|]. now eexists.
Qed.

Lemma trimEnd_behind_ink (h : jsstring) (c : N) (t : jsstring) :
  is_whitespace c = false ->
  trimEnd (h ++ c :: t) = h ++ c :: trimEnd t.
Proof.
  intros Hc. induction h as [|x h IH].
  - cbn [app trimEnd]. rewrite Hc. now destruct (trimEnd t).
  - cbn [app trimEnd]. rewrite IH. now destruct h.
Qed.

Lemma escapeYaml_line (s : jsstring) : without LF s -> without LF (escapeYaml s).
Proof.
  induction 1 as [|c s Hc _ IH]; [constructor|].
  rewrite escapeYaml_cons. apply Forall_app. split; [|exact IH].
  destruct (c =? BACKSLASH); [repeat constructor; discriminate|].
  destruct (c =? DQUOTE); repeat constructor; (discriminate || exact Hc).
Qed.

Lemma finish_five_lines (l1 l2 l3 l4 l5 h : jsstring) (c : N) (body : jsstring) :
  without LF l1 -> without LF l2 -> without LF l3 -> without LF l4 ->
  without LF l5 ->
  l1 <> [] -> l2 <> [] -> l3 <> [] -> l4 <> [] ->
  l5 = h ++ [c] -> is_whitespace c = false ->
  exists rest,
    trimEnd (collapse_newlines
               (join [LF] [join [LF] [l1; l2; l3; l4; l5; []]; body]))
    ++ [LF]
    = join [LF] [l1; l2; l3; l4; l5] ++ LF :: rest.
Proof.
  intros H1 H2 H3 H4 H5 N1 N2 N3 N4 Hl5 Hc.
  assert (N5 : l5 <> []) by (rewrite Hl5; now destruct h).
  cbn [join]. unfold collapse_newlines.
  rewrite <- !app_assoc. cbn [app].
  rewrite (collapse_from_line 0 l1) by assumption.
  rewrite (collapse_from_next_line l2) by assumption.
  rewrite (collapse_from_next_line l3) by assumption.
  rewrite (collapse_from_next_line l4) by assumption.
  rewrite (collapse_from_next_line l5) by assumption.
  cbn [emit_run app collapse_from]. rewrite !N.eqb_refl.
  destruct (collapse_from_starts 0 body) as [t Ht]. rewrite Ht.
  assert (Hhead : forall tail,
            l1 ++ LF :: l2 ++ LF :: l3 ++ LF :: l4 ++ LF :: l5 ++ tail
            = (l1 ++ LF :: l2 ++ LF :: l3 ++ LF :: l4 ++ LF :: h) ++ c :: tail).
  { intros tail. rewrite Hl5.
    repeat (rewrite <- ?app_assoc; cbn [app]). reflexivity. }
  rewrite (Hhead (LF :: t)), (trimEnd_behind_ink _ c (LF :: t) Hc).
  assert (Hfront : l1 ++ LF :: l2 ++ LF :: l3 ++ LF :: l4 ++ LF :: l5
                   = (l1 ++ LF :: l2 ++ LF :: l3 ++ LF :: l4 ++ LF :: h) ++ [c]).
  { rewrite <- (Hhead []). now rewrite app_nil_r. }
  destruct (trimEnd (LF :: t)) as [|x t'] eqn:Htail.
  - exists []. rewrite Hfront, <- !app_assoc. reflexivity.
  - destruct (trimEnd_prefix (LF :: t)) as [ws Hws]. rewrite Htail in Hws.
    injection Hws as <- _. exists (t' ++ [LF]).
    rewrite Hfront, <- !app_assoc. reflexivity.
Qed.

(** X27: the front matter survives the assembly intact: for a page whose
    title and time stamps have no line break, the document begins with
    the five front-matter lines as built, the closing [---] on a line of
    its own. *)
Theorem blocksToMarkdown_front_matter {rt : Builtins}
        (blocks : list Block) (page : Page) :
  without LF (getPageTitle page) ->
  without LF (created_time page) ->
  without LF (last_edited_time page) ->
  exists rest,
    blocksToMarkdown blocks (Some page) = front_matter page ++ LF :: rest.
Proof.
  intros Ht Hc He. unfold blocksToMarkdown, buildFrontmatter, front_matter.
  cbv zeta. cbn [app].
  apply (finish_five_lines (lit "---") _ _ _ (lit "---") (lit "--") (ch "-")).
  - repeat constructor; discriminate.
  - apply Forall_app; split; [repeat constructor; discriminate|].
    constructor; [discriminate|].
    apply Forall_app; split; [now apply escapeYaml_line|].
    repeat constructor; discriminate.
  - apply Forall_app; split; [repeat constructor; discriminate | exact Hc].
  - apply Forall_app; split; [repeat constructor; discriminate | exact He].
  - repeat constructor; discriminate.
  - discriminate.
  - discriminate.
  - discriminate.
  - discriminate.
  - reflexivity.
  - reflexivity.
Qed.

Lemma blocksToMarkdown_front_matter_witness :
  let page := Sample.page_E in
  let blocks := [Sample.paragraph "Hello"] in
  without LF (getPageTitle page)
  /\ without LF (created_time page)
  /\ without LF (last_edited_time page)
  /\ exists rest,
       blocksToMarkdown (rt := Sample.builtins) blocks (Some page)
       = front_matter page ++ LF :: rest.
Proof.
  intros page blocks.
  assert (H1 : without LF (getPageTitle page))
    by (vm_compute; repeat constructor; discriminate).
  assert (H2 : without LF (created_time page))
    by (vm_compute; repeat constructor; discriminate).
  assert (H3 : without LF (last_edited_time page))
    by (vm_compute; repeat constructor; discriminate).
  split; [exact H1|]. split; [exact H2|]. split; [exact H3|].
  exact (blocksToMarkdown_front_matter (rt := Sample.builtins) blocks page H1 H2 H3).
Defined.

End FrontMatter.

(* ===================================================================== *)
(** * The assembler: the layout of a block tree *)
(* ===================================================================== *)

Section TreeLayout.
Import Markdown Layout.
Context {rt : Builtins}.
















End TreeLayout.



